(** * Versionist: increment levels, version ordering, manifest patching
      and changelog merging

    A shallow embedding of [lib/semver.js] and of the presets module of
    versionist, with the properties of its release core. *)

From Stdlib Require Import ZArith Lia List Ascii String Bool.
From Stdlib Require Import Sorting.Permutation Sorting.Sorted.
From stdpp Require Import base gmap strings.
Import ListNotations.

Local Open Scope string_scope.
Local Open Scope list_scope.
Local Open Scope Z_scope.

(** ** JavaScript values and exceptions *)

(** The values the increment-level code inspects: [undefined], [null] and
    strings. *)
Inductive value : Type :=
| VUndefined
| VNull
| VString (s : string).

(** A computation that may [throw new Error(msg)]. *)
Inductive result (A : Type) : Type :=
| Ok (a : A)
| Throw (msg : string).
Arguments Ok {A} a.
Arguments Throw {A} msg.

#[global] Instance result_ret : MRet result := fun A a => Ok a.
#[global] Instance result_bind : MBind result := fun A B f r =>
  match r with
  | Ok a => f a
  | Throw m => Throw m
  end.

Definition value_eqb (a b : value) : bool :=
  match a, b with
  | VUndefined, VUndefined => true
  | VNull, VNull => true
  | VString s, VString t => String.eqb s t
  | _, _ => false
  end.

(** JavaScript truthiness: [undefined], [null] and the empty string are
    falsy. *)
Definition truthy (v : value) : bool :=
  match v with
  | VUndefined | VNull => false
  | VString s => negb (String.eqb s EmptyString)
  end.

(** Template-literal rendering [`${v}`]. *)
Definition to_display (v : value) : string :=
  match v with
  | VUndefined => "undefined"
  | VNull => "null"
  | VString s => s
  end.

(** ** lodash helpers used by the sources *)

Module Lodash.

(** [_.indexOf(array, v)]: first index of [v], [-1] when absent. *)
Fixpoint indexOf_from (i : Z) (l : list string) (v : value) : Z :=
  match l with
  | [] => -1
  | x :: l' => if value_eqb (VString x) v then i else indexOf_from (i + 1) l' v
  end.

Definition indexOf (l : list string) (v : value) : Z := indexOf_from 0 l v.

(** [_.includes(array, v)]. *)
Definition includes (l : list string) (v : value) : bool :=
  existsb (fun x => value_eqb (VString x) v) l.

(** [_.nth(array, n)]: a negative [n] counts from the end; out of range
    gives [undefined]. *)
Definition nth (l : list string) (n : Z) : value :=
  let i := if n <? 0 then n + Z.of_nat (length l) else n in
  if i <? 0 then VUndefined
  else match nth_error l (Z.to_nat i) with
       | Some x => VString x
       | None => VUndefined
       end.

(** [_.dropWhile] and [_.dropRightWhile]. *)
Fixpoint dropWhile {A : Type} (p : A -> bool) (l : list A) : list A :=
  match l with
  | [] => []
  | x :: l' => if p x then dropWhile p l' else l
  end.

Definition dropRightWhile {A : Type} (p : A -> bool) (l : list A) : list A :=
  rev (dropWhile p (rev l)).

(** [_.slice(array, start, end)] with JavaScript's treatment of negative
    bounds. *)
Definition clamp_index (len i : Z) : Z :=
  if i <? 0 then Z.max (len + i) 0 else Z.min i len.

Definition slice {A : Type} (l : list A) (start stop : Z) : list A :=
  let len := Z.of_nat (length l) in
  let s := clamp_index len start in
  let e := clamp_index len stop in
  firstn (Z.to_nat (e - s)) (skipn (Z.to_nat s) l).

Definition slice_from {A : Type} (l : list A) (start : Z) : list A :=
  slice l start (Z.of_nat (length l)).

(** [_.last(array)]. *)
Definition last {A : Type} (l : list A) : option A := List.last (map Some l) None.

End Lodash.

(** ** lib/semver.js: increment levels *)

Module Semver.

Definition VALID_INCREMENT_LEVELS : list string := ["patch"; "minor"; "major"].

Definition isValidIncrementLevel (level : value) : bool :=
  Lodash.includes VALID_INCREMENT_LEVELS level.

(** The guard run on each of the two arguments. *)
Definition check_level (level : value) : result unit :=
  if (negb (value_eqb level VUndefined)
      && negb (value_eqb level VNull)
      && negb (isValidIncrementLevel level))%bool
  then Throw ("Invalid increment level: " +:+ to_display level)
  else Ok tt.

Definition getHigherIncrementLevel (firstLevel secondLevel : value) : result value :=
  _ ← check_level firstLevel;
  _ ← check_level secondLevel;
  if (negb (truthy firstLevel) && negb (truthy secondLevel))%bool then Ok VNull
  else
    let firstLevelIndex := Lodash.indexOf VALID_INCREMENT_LEVELS firstLevel in
    let secondLevelIndex := Lodash.indexOf VALID_INCREMENT_LEVELS secondLevel in
    Ok (Lodash.nth VALID_INCREMENT_LEVELS (Z.max firstLevelIndex secondLevelIndex)).

Section Commits.

(** Commits are opaque; the caller supplies the classifier. *)
Variable commit : Type.
Variable getIncrementLevelFromCommit : commit -> value.

(** [_.reduce(commits, f, acc)] with a callback that may throw. *)
Fixpoint reduce_levels (commits : list commit) (currentLevel : value) : result value :=
  match commits with
  | [] => Ok currentLevel
  | c :: rest =>
      next ← getHigherIncrementLevel (getIncrementLevelFromCommit c) currentLevel;
      reduce_levels rest next
  end.

Definition calculateNextIncrementLevel (commits : list commit) : result value :=
  match commits with
  | [] => Throw "No commits to calculate the next increment level from"
  | _ => reduce_levels commits VNull
  end.

End Commits.

End Semver.

(** ** Increment levels as the specification names them *)

Inductive level : Type := Patch | Minor | Major.

(** A classification is a level or [none]. *)
Definition classification : Type := option level.

Definition level_rank (l : level) : nat :=
  match l with Patch => 0 | Minor => 1 | Major => 2 end.

Definition level_name (l : level) : string :=
  match l with Patch => "patch" | Minor => "minor" | Major => "major" end.

(** The maximum of two classifications under [patch < minor < major],
    with [none] below every level. *)
Definition class_max (a b : classification) : classification :=
  match a, b with
  | None, _ => b
  | _, None => a
  | Some x, Some y => if (level_rank x <? level_rank y)%nat then Some y else Some x
  end.

Definition class_max_list (cs : list classification) : classification :=
  fold_right class_max None cs.

(** How a classification reaches the code: [none] is [undefined] or
    [null]. *)
Definition classify (v : value) : option classification :=
  match v with
  | VUndefined | VNull => Some None
  | VString s =>
      if String.eqb s "patch" then Some (Some Patch)
      else if String.eqb s "minor" then Some (Some Minor)
      else if String.eqb s "major" then Some (Some Major)
      else None
  end.

(** What the code returns for a classification: [none] is [null]. *)
Definition class_value (c : classification) : value :=
  match c with
  | None => VNull
  | Some l => VString (level_name l)
  end.

(** ** Text helpers *)

Module Text.

Definition NL : ascii := "010"%char.
Definition DQ : ascii := "034"%char.
Definition SQ : ascii := "039"%char.

Definition chars (s : string) : list ascii := list_ascii_of_string s.
Definition text (l : list ascii) : string := string_of_list_ascii l.

(** [s.split('\n')]: an empty string splits into one empty line. *)
Fixpoint split_lines (s : string) : list string :=
  match s with
  | EmptyString => [EmptyString]
  | String c s' =>
      if Ascii.eqb c NL then EmptyString :: split_lines s'
      else match split_lines s' with
           | [] => [String c EmptyString]
           | l :: ls => String c l :: ls
           end
  end.

(** [lines.join('\n')]. *)
Definition join_lines (ls : list string) : string :=
  String.concat (String NL EmptyString) ls.

(** [_.isEmpty] on a string. *)
Definition isEmpty (s : string) : bool := String.eqb s EmptyString.

(** White space removed by [_.trim] and matched by [\s], on the ASCII
    range: tab, line feed, vertical tab, form feed, carriage return,
    space. *)
Definition is_space (c : ascii) : bool :=
  let n := nat_of_ascii c in
  ((9 <=? n)%nat && (n <=? 13)%nat) || (n =? 32)%nat.

Definition trim_chars (l : list ascii) : list ascii :=
  Lodash.dropRightWhile is_space (Lodash.dropWhile is_space l).

(** [_.trim(v)]; [_.trim(undefined)] is the empty string. *)
Definition trim (v : option string) : string :=
  match v with
  | None => EmptyString
  | Some s => text (trim_chars (chars s))
  end.

(** Text in the ASCII range: every character is below 128. For such
    text the bytes of a file are the string that reading it as UTF-8
    gives and writing gives the same bytes back, and the white space
    and the line breaks of JavaScript are the ASCII ones above. *)
Definition is_ascii (s : string) : bool :=
  forallb (fun c => (nat_of_ascii c <? 128)%nat) (chars s).

End Text.

(** ** lib/semver.js: version ordering *)

Module Versions.

(** The external comparison primitives: [semver.compare] (on valid
    versions, where it returns -1, 0 or 1) and
    [String.prototype.localeCompare]. *)
Record comparators : Type := {
  semver_compare : string -> string -> Z;
  localeCompare : string -> string -> Z
}.

Definition compareExtendedSemver (E : comparators) (a b : string) : Z :=
  let semverCompare := semver_compare E a b in
  if semverCompare =? 0 then localeCompare E a b else semverCompare.

Definition leq (E : comparators) (a b : string) : bool :=
  compareExtendedSemver E a b <=? 0.

(** [Array.prototype.sort(cmp)] is stable; on a consistent comparator
    every conforming implementation produces the stable ascending
    order, computed here by insertion. *)
Fixpoint sort_insert (cmp : string -> string -> Z) (x : string) (l : list string)
  : list string :=
  match l with
  | [] => [x]
  | y :: l' => if cmp x y <=? 0 then x :: l else y :: sort_insert cmp x l'
  end.

Definition sort_by (cmp : string -> string -> Z) (l : list string) : list string :=
  fold_right (sort_insert cmp) [] l.

(** Arrays live in a store and are passed by reference. *)
Definition ref : Type := positive.
Abbreviation heap := (gmap positive (list string)).

(** [versions.sort(cmp)] rewrites the array object in place and returns
    the same reference. *)
Definition Array_sort (cmp : string -> string -> Z) (r : ref) (h : heap) : heap :=
  match h !! r with
  | Some l => <[r := sort_by cmp l]> h
  | None => h
  end.

Definition read_array (r : ref) (h : heap) : list string :=
  default [] (h !! r).

(** [_.trim(_.last(versions.sort(compareExtendedSemver)))]: the store
    after the call and the returned string. *)
Definition getGreaterVersion (E : comparators) (versions : ref) (h : heap)
  : heap * string :=
  let h' := Array_sort (compareExtendedSemver E) versions h in
  (h', Text.trim (Lodash.last (read_array versions h'))).

(** The bounded consistency check of a comparator on the elements of an
    array: antisymmetric in sign and transitive. *)
Definition antisym_onb (cmp : string -> string -> Z) (l : list string) : bool :=
  forallb (fun a => forallb (fun b => Z.sgn (cmp b a) =? - Z.sgn (cmp a b)) l) l.

Definition trans_onb (cmp : string -> string -> Z) (l : list string) : bool :=
  forallb (fun a => forallb (fun b => forallb (fun c =>
    implb ((cmp a b <=? 0) && (cmp b c <=? 0)) (cmp a c <=? 0)) l) l) l.

Definition consistent_onb (cmp : string -> string -> Z) (l : list string) : bool :=
  antisym_onb cmp l && trans_onb cmp l.

(** Ascending order under a comparator. *)
Definition le_by (cmp : string -> string -> Z) (a b : string) : Prop := cmp a b <= 0.

(** The comparator is consistent on the elements of [dom]. *)
Definition consistent_on (cmp : string -> string -> Z) (dom : list string) : Prop :=
  (forall a b, In a dom -> In b dom -> Z.sgn (cmp b a) = - Z.sgn (cmp a b))
  /\ (forall a b c, In a dom -> In b dom -> In c dom ->
        cmp a b <= 0 -> cmp b c <= 0 -> cmp a c <= 0).

End Versions.

(** ** The file system and asynchronous completion *)

(** What an operation does to the outside world, in order. *)
Inductive io_event : Type :=
| EvTouch (path : string)
| EvExists (path : string)
| EvRead (path : string)
| EvWrite (path : string) (contents : string).

(** Files by path, and the log of the I/O performed so far (oldest
    first). A file is held as its text; for a file of ASCII text that is
    the bytes on disk, which reading as UTF-8 and writing leave as they
    are. *)
Record world : Type := World {
  files : gmap string string;
  trace : list io_event
}.

(** An [Error] object as the callbacks see it: its [code] (set by the
    file system) and its [message]. *)
Record js_error : Type := JsError {
  code : option string;
  message : string
}.

(** How a node-style operation ends: its callback is never invoked, is
    invoked with an error or with [null], or the call throws
    synchronously. *)
Inductive outcome : Type :=
| NotCalled
| Called (error : option js_error)
| Thrown (msg : string).

(** The result handed to a continuation [(error, value)]. *)
Inductive io_result (A : Type) : Type :=
| Done (a : A)
| Failed (e : js_error).
Arguments Done {A} a.
Arguments Failed {A} e.

Module Fs.

Definition log (e : io_event) (w : world) : world :=
  World (files w) (trace w ++ [e]).

(** [fs.readFile(path, 'utf8', cb)]. *)
Definition ENOENT (path : string) : js_error :=
  JsError (Some "ENOENT") ("ENOENT: no such file or directory, open '" +:+ path +:+ "'").

Definition readFile (path : string) (w : world) : world * io_result string :=
  let w' := log (EvRead path) w in
  match files w !! path with
  | Some c => (w', Done c)
  | None => (w', Failed (ENOENT path))
  end.

(** [fs.writeFile(path, data, cb)]. *)
Definition writeFile (path : string) (data : string) (w : world) : world :=
  World (<[path := data]> (files w)) (trace w ++ [EvWrite path data]).

(** [fs.existsSync(path)]. *)
Definition existsSync (path : string) (w : world) : world * bool :=
  (log (EvExists path) w, bool_decide (is_Some (files w !! path))).

(** [touch(path, {}, cb)]: creates the file empty when it is absent. *)
Definition touch (path : string) (w : world) : world :=
  let w' := log (EvTouch path) w in
  match files w !! path with
  | Some _ => w'
  | None => World (<[path := EmptyString]> (files w')) (trace w')
  end.

End Fs.

(** ** presets: addEntryToChangelog.prepend *)

Module Changelog.

(** The reducer of [prepend]: one step of the blank-line rule. *)
Definition merge_step (accumulator array : list string) : list string :=
  let head := Lodash.dropRightWhile Text.isEmpty accumulator in
  let body := Lodash.dropWhile Text.isEmpty array in
  match head with
  | [] => body
  | _ => head ++ [EmptyString] ++ body
  end.

(** The in-memory transformation of [prepend]. *)
Definition mergeEntry (contents entry : string) (fromLine : Z) : string :=
  let changelogLines := Text.split_lines contents in
  Text.join_lines
    (fold_left merge_step
       [ Lodash.slice changelogLines 0 fromLine;
         Text.split_lines entry;
         Lodash.slice_from changelogLines fromLine ]
       []).

(** [prepend(options, file, entry, callback)]; [fromLine] defaults to
    0. *)
Definition prepend (fromLine : option Z) (file entry : string) (w : world)
  : world * outcome :=
  let fromLine := default 0 fromLine in
  let w1 := Fs.touch file w in
  match Fs.readFile file w1 with
  | (w2, Failed e) => (w2, Called (Some e))
  | (w2, Done contents) =>
      (Fs.writeFile file (mergeEntry contents entry fromLine) w2, Called None)
  end.

End Changelog.

(** ** JavaScript regular expressions

    The fragment of the regular-expression language the presets use:
    literals, classes, sequence, alternation, greedy and lazy repetition,
    capture groups, back-references and line anchors, matched by
    backtracking in priority order. Text is a sequence of ASCII
    characters. *)

Module Regex.

Inductive citem : Type :=
| CChar (c : ascii)
| CRange (lo hi : ascii)
| CSpace
| CDigit
| CWord.

Inductive atom : Type :=
| ADot
| AChar (c : ascii)
| AClass (negated : bool) (items : list citem).

Inductive regex : Type :=
| Eps
| Atom (a : atom)
| Seq (r1 r2 : regex)
| Alt (r1 r2 : regex)
| Star (greedy : bool) (r : regex)
| Group (n : nat) (r : regex)
| Backref (n : nat)
| Bol
| Eol.

(** [r+] and [r+?]. *)
Definition Plus (greedy : bool) (r : regex) : regex := Seq r (Star greedy r).

(** A literal string. *)
Definition Lit (s : string) : regex :=
  fold_right (fun c r => Seq (Atom (AChar c)) r) Eps (Text.chars s).

Record flags : Type := Flags {
  global : bool;
  ignoreCase : bool;
  multiline : bool;
  dotAll : bool;
  unicode : bool;
  sticky : bool
}.

Definition no_flags : flags := Flags false false false false false false.

(** The [flags] getter: the set flags in the order [gimsuy]. *)
Definition flags_string (f : flags) : list ascii :=
  (if global f then ["g"%char] else []) ++
  (if ignoreCase f then ["i"%char] else []) ++
  (if multiline f then ["m"%char] else []) ++
  (if dotAll f then ["s"%char] else []) ++
  (if unicode f then ["u"%char] else []) ++
  (if sticky f then ["y"%char] else []).

(** Setting one flag, of the six of ECMAScript 2018; a repeated or
    unknown flag is refused. *)
Definition add_flag (f : flags) (c : ascii) : option flags :=
  let '(Flags g i m s u y) := f in
  let once (already : bool) (f' : flags) := if already then None else Some f' in
  if Ascii.eqb c "g" then once g (Flags true i m s u y)
  else if Ascii.eqb c "i" then once i (Flags g true m s u y)
  else if Ascii.eqb c "m" then once m (Flags g i true s u y)
  else if Ascii.eqb c "s" then once s (Flags g i m true u y)
  else if Ascii.eqb c "u" then once u (Flags g i m s true y)
  else if Ascii.eqb c "y" then once y (Flags g i m s u true)
  else None.

(** The constructor's reading of a flags string: an unknown or repeated
    flag is a [SyntaxError]. *)
Fixpoint parse_flags_from (f : flags) (l : list ascii) : option flags :=
  match l with
  | [] => Some f
  | c :: l' =>
      match add_flag f c with
      | Some f' => parse_flags_from f' l'
      | None => None
      end
  end.

Definition parse_flags (l : list ascii) : option flags := parse_flags_from no_flags l.

(** *** Characters *)

Definition in_range (lo hi n : nat) : bool := ((lo <=? n) && (n <=? hi))%nat.

Definition to_upper (c : ascii) : ascii :=
  let n := nat_of_ascii c in
  if in_range 97 122 n then ascii_of_nat (n - 32) else c.

Definition to_lower (c : ascii) : ascii :=
  let n := nat_of_ascii c in
  if in_range 65 90 n then ascii_of_nat (n + 32) else c.

(** [Canonicalize]: upper-casing under [ignoreCase]. *)
Definition canon (fl : flags) (c : ascii) : ascii :=
  if ignoreCase fl then to_upper c else c.

(** The line terminators in the ASCII range: line feed and carriage
    return. *)
Definition is_line_terminator (c : ascii) : bool :=
  let n := nat_of_ascii c in ((n =? 10) || (n =? 13))%nat.

Definition item_mem (it : citem) (c : ascii) : bool :=
  let n := nat_of_ascii c in
  match it with
  | CChar x => Ascii.eqb x c
  | CRange lo hi => in_range (nat_of_ascii lo) (nat_of_ascii hi) n
  | CSpace => Text.is_space c
  | CDigit => in_range 48 57 n
  | CWord => in_range 48 57 n || in_range 65 90 n || in_range 97 122 n || (n =? 95)%nat
  end.

Definition class_mem (items : list citem) (c : ascii) : bool :=
  existsb (fun it => item_mem it c) items.

(** A class matches a character when one of its members canonicalizes
    to the same character. *)
Definition class_test (fl : flags) (items : list citem) (c : ascii) : bool :=
  if ignoreCase fl
  then class_mem items c || class_mem items (to_upper c) || class_mem items (to_lower c)
  else class_mem items c.

Definition atom_test (fl : flags) (a : atom) (c : ascii) : bool :=
  match a with
  | ADot => dotAll fl || negb (is_line_terminator c)
  | AChar x => Ascii.eqb (canon fl x) (canon fl c)
  | AClass negated items => xorb negated (class_test fl items c)
  end.

(** *** The backtracking matcher *)

(** A matcher state: the text already consumed (latest character
    first), the text ahead and the captures made so far. *)
Record mstate : Type := MState {
  consumed : list ascii;
  rest : list ascii;
  caps : gmap nat (list ascii)
}.

Definition at_bol (fl : flags) (s : mstate) : bool :=
  match consumed s with
  | [] => true
  | c :: _ => multiline fl && is_line_terminator c
  end.

Definition at_eol (fl : flags) (s : mstate) : bool :=
  match rest s with
  | [] => true
  | c :: _ => multiline fl && is_line_terminator c
  end.

(** Consume the captured text [w] of a back-reference. *)
Fixpoint eat (fl : flags) (w : list ascii) (s : mstate) : option mstate :=
  match w with
  | [] => Some s
  | x :: w' =>
      match rest s with
      | c :: t =>
          if Ascii.eqb (canon fl x) (canon fl c)
          then eat fl w' (MState (c :: consumed s) t (caps s))
          else None
      | [] => None
      end
  end.

Fixpoint groups_of (r : regex) : list nat :=
  match r with
  | Seq r1 r2 | Alt r1 r2 => groups_of r1 ++ groups_of r2
  | Star _ r' => groups_of r'
  | Group n r' => n :: groups_of r'
  | _ => []
  end.

Definition max_group (r : regex) : nat := fold_right Nat.max 0%nat (groups_of r).

(** Entering an iteration of a repetition forgets the captures of the
    groups inside it. *)
Definition clear_caps (ns : list nat) (s : mstate) : mstate :=
  MState (consumed s) (rest s) (fold_right (fun n m => delete n m) (caps s) ns).

(** The text consumed between state [s] and a later state [s']. *)
Definition taken (s s' : mstate) : list ascii :=
  rev (firstn (length (consumed s') - length (consumed s)) (consumed s')).

(** Repetition of a body matcher: an iteration that consumes nothing
    is rejected, so [n] bounds the iterations by the characters ahead.
    A greedy repetition tries one more iteration before stopping, a lazy
    one stops first. *)
Fixpoint star_loop (body : mstate -> list mstate) (greedy : bool) (n : nat)
  (s : mstate) : list mstate :=
  match n with
  | O => [s]
  | S n' =>
      let more :=
        flat_map
          (fun s' => if (length (rest s') <? length (rest s))%nat
                     then star_loop body greedy n' s' else [])
          (body s) in
      if greedy then more ++ [s] else s :: more
  end.

(** All the ways [r] matches at [s], in backtracking priority order:
    the first element is the match JavaScript reports. A repetition
    rejects an iteration that consumes nothing, so it runs at most once
    per character ahead. *)
Fixpoint rmatch (fl : flags) (r : regex) (s : mstate) : list mstate :=
  match r with
  | Eps => [s]
  | Atom a =>
      match rest s with
      | c :: t => if atom_test fl a c then [MState (c :: consumed s) t (caps s)] else []
      | [] => []
      end
  | Seq r1 r2 => flat_map (rmatch fl r2) (rmatch fl r1 s)
  | Alt r1 r2 => rmatch fl r1 s ++ rmatch fl r2 s
  | Star greedy r' =>
      star_loop (fun s0 => rmatch fl r' (clear_caps (groups_of r') s0)) greedy
        (length (rest s)) s
  | Group n r' =>
      map (fun s' => MState (consumed s') (rest s') (<[n := taken s s']> (caps s')))
          (rmatch fl r' s)
  | Backref n =>
      match caps s !! n with
      | None => [s]
      | Some w => match eat fl w s with Some s' => [s'] | None => [] end
      end
  | Bol => if at_bol fl s then [s] else []
  | Eol => if at_eol fl s then [s] else []
  end.

(** State [s'] is [s] after consuming [mid]. *)
Definition extends (s s' : mstate) (mid : list ascii) : Prop :=
  consumed s' = rev mid ++ consumed s /\ rest s = mid ++ rest s'.

(** *** RegExp objects, [exec], [test] and [String.prototype.replace] *)

Record RegExp : Type := MkRegExp {
  source : regex;
  flags_of : flags;
  lastIndex : nat
}.

(** A fresh object, as a literal or [new RegExp] evaluates to. *)
Definition fresh (r : regex) (fl : flags) : RegExp := MkRegExp r fl 0.

Definition with_lastIndex (i : nat) (R : RegExp) : RegExp :=
  MkRegExp (source R) (flags_of R) i.

(** A match: where it starts, the matched text, and captures 1..m. *)
Record match_result : Type := MatchResult {
  index : nat;
  matched : list ascii;
  captures : list (option (list ascii))
}.

Definition start_state (S : list ascii) (i : nat) : mstate :=
  MState (rev (firstn i S)) (skipn i S) ∅.

Definition match_at (R : RegExp) (S : list ascii) (i : nat) : option match_result :=
  match rmatch (flags_of R) (source R) (start_state S i) with
  | [] => None
  | s' :: _ =>
      Some (MatchResult i
              (firstn (length (consumed s') - i) (skipn i S))
              (map (fun n => caps s' !! n) (seq 1 (max_group (source R)))))
  end.

(** Try start positions [i], [i+1], ... *)
Fixpoint search (R : RegExp) (S : list ascii) (fuel i : nat) : option match_result :=
  match fuel with
  | O => None
  | Datatypes.S fuel' =>
      match match_at R S i with
      | Some m => Some m
      | None => search R S fuel' (i + 1)
      end
  end.

(** [RegExpBuiltinExec]: the updated object and the match. *)
Definition exec (R : RegExp) (S : list ascii) : RegExp * option match_result :=
  let fl := flags_of R in
  let persistent := global fl || sticky fl in
  let start := if persistent then lastIndex R else 0%nat in
  let found :=
    if (length S <? start)%nat then None
    else if sticky fl then match_at R S start
    else search R S (length S - start + 1) start in
  match found with
  | None => (if persistent then with_lastIndex 0 R else R, None)
  | Some m =>
      (if persistent then with_lastIndex (index m + length (matched m)) R else R, Some m)
  end.

(** [pattern.test(text)]. *)
Definition test (R : RegExp) (S : list ascii) : RegExp * bool :=
  let (R', m) := exec R S in (R', bool_decide (is_Some m)).

Definition is_digit (c : ascii) : bool := in_range 48 57 (nat_of_ascii c).
Definition digit_val (c : ascii) : nat := nat_of_ascii c - 48.

(** [GetSubstitution]: expand [$$], [$&], [$`], [$'], [$n] and [$nn] in
    a replacement template. A two-digit reference beyond the number of
    groups is read as a one-digit reference followed by a digit; a
    reference that names no group stays as written. *)
Fixpoint substitute (S : list ascii) (m : match_result) (template : list ascii)
  : list ascii :=
  let capture (i : nat) : option (list ascii) :=
    if ((1 <=? i) && (i <=? length (captures m)))%nat
    then Some (default [] (nth (i - 1) (captures m) None))
    else None in
  match template with
  | [] => []
  | c :: t =>
      if negb (Ascii.eqb c "$") then c :: substitute S m t
      else
        match t with
        | [] => [c]
        | d :: t' =>
            if Ascii.eqb d "$" then "$"%char :: substitute S m t'
            else if Ascii.eqb d "&" then matched m ++ substitute S m t'
            else if Ascii.eqb d "`" then firstn (index m) S ++ substitute S m t'
            else if Ascii.eqb d "'" then
              skipn (index m + length (matched m)) S ++ substitute S m t'
            else if is_digit d then
              let one :=
                match capture (digit_val d) with
                | Some w => w ++ substitute S m t'
                | None => c :: d :: substitute S m t'
                end in
              match t' with
              | d2 :: t'' =>
                  if is_digit d2 then
                    let i := (10 * digit_val d + digit_val d2)%nat in
                    if (i <=? length (captures m))%nat then
                      match capture i with
                      | Some w => w ++ substitute S m t''
                      | None => c :: d :: d2 :: substitute S m t''
                      end
                    else one
                  else one
              | [] => one
              end
            else c :: substitute S m t
        end
  end.

(** The global loop of [replace]: every match, advancing past an empty
    one. *)
Fixpoint collect (fuel : nat) (R : RegExp) (S : list ascii)
  : RegExp * list match_result :=
  match fuel with
  | O => (R, [])
  | Datatypes.S fuel' =>
      match exec R S with
      | (R', None) => (R', [])
      | (R', Some m) =>
          let R'' := match matched m with
                     | [] => with_lastIndex (lastIndex R' + 1) R'
                     | _ => R'
                     end in
          let (Rf, ms) := collect fuel' R'' S in
          (Rf, m :: ms)
      end
  end.

(** Splice the replacements into the text. *)
Fixpoint assemble (S : list ascii) (template : list ascii) (ms : list match_result)
  (nextSourcePosition : nat) : list ascii :=
  match ms with
  | [] => skipn nextSourcePosition S
  | m :: ms' =>
      if (nextSourcePosition <=? index m)%nat then
        firstn (index m - nextSourcePosition) (skipn nextSourcePosition S)
          ++ substitute S m template
          ++ assemble S template ms' (index m + length (matched m))
      else assemble S template ms' nextSourcePosition
  end.

(** [text.replace(pattern, template)]: the pattern object afterwards and
    the new text. *)
Definition replace (S : list ascii) (R : RegExp) (template : list ascii)
  : RegExp * list ascii :=
  let (R', ms) :=
    if global (flags_of R) then collect (length S + 2) (with_lastIndex 0 R) S
    else match exec R S with
         | (R', None) => (R', [])
         | (R', Some m) => (R', [m])
         end in
  (R', assemble S template ms 0).

End Regex.

(** ** presets: cleaning and updateVersion *)

Module Presets.

Import Regex.

(** The collaborators outside the repository: [semver.clean] ([null]
    on an invalid version), node's [path], the [update-json] and
    [replace-in-file] packages, and the RegExp constructor's reading of
    source text spliced into a pattern ([None]: a [SyntaxError]). *)
Record env : Type := Env {
  semver_clean : string -> option string;
  path_join : list string -> string;
  path_isAbsolute : string -> bool;
  updateJSON : string -> string -> world -> world * option js_error;
  replaceInFile : string -> RegExp -> string -> world -> world * option js_error;
  regexp_fragment : list ascii -> option regex
}.

(** [options.clean]: a boolean or a RegExp. *)
Inductive clean_option : Type :=
| CleanFlag (b : bool)
| CleanPattern (R : RegExp).

Definition getCleanFunction (E : env) (clean : option clean_option)
  : string -> option string :=
  match default (CleanFlag true) clean with
  | CleanPattern R =>
      fun version => Some (Text.text (snd (Regex.replace (Text.chars version) R [])))
  | CleanFlag true => semver_clean E
  | CleanFlag false => fun version => Some version
  end.

(** [!cleanedVersion] fails for a non-empty string only. *)
Definition usable (cleanedVersion : option string) : option string :=
  match cleanedVersion with
  | Some v => if Text.isEmpty v then None else Some v
  | None => None
  end.

Definition invalid_version (version : string) : js_error :=
  JsError None ("Invalid version: " +:+ version).

(** The private [replace(file, pattern, replacement, callback)]: what
    the callback receives. *)
Definition replace (file : string) (pattern : RegExp) (replacement : string)
  (w : world) : world * option js_error :=
  match Fs.readFile file w with
  | (w1, Failed e) => (w1, Some e)
  | (w1, Done contents) =>
      let (pattern', found) := Regex.test pattern (Text.chars contents) in
      if found then
        let updated :=
          Text.text (snd (Regex.replace (Text.chars contents) pattern'
                            (Text.chars replacement))) in
        (Fs.writeFile file updated w1, None)
      else (w1, Some (JsError None ("Pattern does not match " +:+ file)))
  end.

(** The replacement template ['$1$2' + cleanedVersion + '$2']. *)
Definition version_template (cleanedVersion : string) : string :=
  "$1$2" +:+ cleanedVersion +:+ "$2".

(** *** Pattern pieces *)

Definition spaces : regex := Star true (Atom (AClass false [CSpace])).
Definition quote : regex := Alt (Atom (AChar Text.DQ)) (Atom (AChar Text.SQ)).
Definition quote_rev : regex := Alt (Atom (AChar Text.SQ)) (Atom (AChar Text.DQ)).
Definition not_bracket : regex := Atom (AClass true [CChar "["]).
Definition lazy_any : regex := Star false (Atom ADot).
Definition assign (key : string) : regex :=
  Seq (Lit key) (Seq spaces (Seq (Atom (AChar "=")) spaces)).

Definition flag_m : flags := Flags false false true false false false.
Definition flag_g : flags := Flags true false false false false false.

(** Renumber the groups of a fragment placed after [k] opening
    parentheses; back-references keep the number they were written
    with. *)
Fixpoint shift_groups (k : nat) (r : regex) : regex :=
  match r with
  | Seq r1 r2 => Seq (shift_groups k r1) (shift_groups k r2)
  | Alt r1 r2 => Alt (shift_groups k r1) (shift_groups k r2)
  | Star g r' => Star g (shift_groups k r')
  | Group n r' => Group (n + k) (shift_groups k r')
  | _ => r
  end.

(** *** updateVersion.npm *)

Definition npm (E : env) (clean : option clean_option) (cwd version : string)
  (w : world) : world * outcome :=
  let cleanFn := getCleanFunction E clean in
  let packageJSON := path_join E [cwd; "package.json"] in
  let cleanedVersion := cleanFn version in
  match usable cleanedVersion with
  | None => (w, Called (Some (invalid_version version)))
  | Some v =>
      match updateJSON E packageJSON v w with
      | (w', Some error) =>
          if bool_decide (code error = Some "ENOENT")
          then (w', Called (Some (JsError (code error)
                                    ("No such file or directory: " +:+ packageJSON))))
          else (w', Called (Some error))
      | (w', None) => (w', Called None)
      end
  end.

(** *** updateVersion.cargo *)

(** The package-name pattern of [cargo], flag [m]: the [package]
    header, lazily one or more characters other than an opening
    bracket, the key name with its equals sign, a quote (group 1),
    lazily one or more characters (group 2), the quote of group 1. *)
Definition package_name_pattern : regex :=
  Seq (Lit "[package]")
    (Seq (Plus false not_bracket)
       (Seq (assign "name")
          (Seq (Group 1 quote)
             (Seq (Group 2 (Plus false (Atom ADot))) (Backref 1))))).

(** The lock-file pattern of [cargo], flag [m]. Group 1: the key name
    with its equals sign, a quote, the package name read as pattern
    source, a quote, lazily one or more characters other than an
    opening bracket, the key version with its equals sign. Then a quote
    (the next group), lazily any characters, back-reference 2. *)
Definition lock_version_pattern (name : regex) : regex :=
  Seq (Group 1
         (Seq (assign "name")
            (Seq quote
               (Seq (shift_groups 1 name)
                  (Seq quote
                     (Seq (Plus false not_bracket) (assign "version")))))))
    (Seq (Group (2 + max_group name) quote) (Seq lazy_any (Backref 2))).

(** The manifest pattern of [cargo], flag [m]. Group 1: the [package]
    header, lazily one or more characters other than an opening
    bracket, the key version with its equals sign. Then a quote
    (group 2), lazily any characters, back-reference 2. *)
Definition package_version_pattern : regex :=
  Seq (Group 1 (Seq (Lit "[package]") (Seq (Plus false not_bracket) (assign "version"))))
    (Seq (Group 2 quote) (Seq lazy_any (Backref 2))).

(** A capture spliced into a template literal. *)
Definition capture_text (c : option (list ascii)) : list ascii :=
  match c with
  | Some t => t
  | None => Text.chars "undefined"
  end.

Definition cargo (E : env) (clean : option clean_option) (cwd version : string)
  (w : world) : world * outcome :=
  let cleanFn := getCleanFunction E clean in
  let cargoToml := path_join E [cwd; "Cargo.toml"] in
  let cargoLock := path_join E [cwd; "Cargo.lock"] in
  let cleanedVersion := cleanFn version in
  match usable cleanedVersion with
  | None => (w, Called (Some (invalid_version version)))
  | Some v =>
      match Fs.readFile cargoToml w with
      | (w1, Failed e) => (w1, Called (Some e))
      | (w1, Done contents) =>
          match snd (exec (fresh package_name_pattern flag_m) (Text.chars contents)) with
          | None =>
              (w1, Called (Some (JsError None ("Package name not found in " +:+ cargoToml))))
          | Some matches =>
              let packageName := capture_text (nth 1 (captures matches) None) in
              let (w2, locked) := Fs.existsSync cargoLock w1 in
              let after_lock :=
                if locked then
                  match regexp_fragment E packageName with
                  | None => (w2, Thrown "SyntaxError: Invalid regular expression")
                  | Some name =>
                      let (w3, error) :=
                        replace cargoLock (fresh (lock_version_pattern name) flag_m)
                          (version_template v) w2 in
                      (w3, Called error)
                  end
                else (w2, Called None) in
              match after_lock with
              | (w3, Called None) =>
                  let (w4, error) :=
                    replace cargoToml (fresh package_version_pattern flag_m)
                      (version_template v) w3 in
                  (w4, Called error)
              | stopped => stopped
              end
          end
      end
  end.

(** *** updateVersion.initPy *)

(** A numeric identifier: 0, or a digit 1-9 followed by digits. *)
Definition numeric : regex :=
  Alt (Atom (AChar "0"))
    (Seq (Atom (AClass false [CRange "1" "9"])) (Star true (Atom (AClass false [CDigit])))).

(** The pattern of [initPy], flag [g]. Group 1: the key __version__
    with its equals sign. Then a quote (group 2), three numeric
    identifiers separated by dots, back-reference 2. *)
Definition init_py_pattern : regex :=
  Seq (Group 1 (assign "__version__"))
    (Seq (Group 2 quote_rev)
       (Seq numeric
          (Seq (Atom (AChar "."))
             (Seq numeric (Seq (Atom (AChar ".")) (Seq numeric (Backref 2))))))).

Definition initPy (E : env) (targetFile : option string) (clean : option clean_option)
  (cwd version : string) (w : world) : world * outcome :=
  let targetFile := default "__init__.py" targetFile in
  let cleanFn := getCleanFunction E clean in
  let initFile := path_join E [cwd; targetFile] in
  let cleanedVersion := cleanFn version in
  match usable cleanedVersion with
  | None => (w, Called (Some (invalid_version version)))
  | Some v =>
      match replaceInFile E initFile (fresh init_py_pattern flag_g)
              (version_template v) w with
      | (w', Some error) => (w', Called (Some error))
      | (w', None) => (w', NotCalled)
      end
  end.

(** *** updateVersion.quoted *)

(** The options of [quoted]; [regex] is the object [RegExp(options.regex)]
    evaluates to. *)
Record quoted_options : Type := QuotedOptions {
  baseDir : option string;
  file : option string;
  regex_opt : option RegExp;
  regexFlags : option string;
  clean_opt : option clean_option
}.

(** [_.uniqBy] on the characters of a string: first occurrences. *)
Fixpoint uniq_from (seen l : list ascii) : list ascii :=
  match l with
  | [] => []
  | c :: l' =>
      if existsb (Ascii.eqb c) seen then uniq_from seen l'
      else c :: uniq_from (c :: seen) l'
  end.

Definition uniqBy (l : list ascii) : list ascii := uniq_from [] l.

(** The combined source of [quoted]: the inner source in parentheses
    (group 1), a quote in parentheses (the next group), lazily any
    characters, back-reference 2. *)
Definition combined_source (inner : regex) : regex :=
  Seq (Group 1 (shift_groups 1 inner))
    (Seq (Group (2 + max_group inner) quote) (Seq lazy_any (Backref 2))).

Definition config_error (msg : string) : outcome := Called (Some (JsError None msg)).

(** The message of the [SyntaxError] that [new RegExp(source, flags)]
    throws for flags it does not accept: it ends with the flags, in
    single quotes. *)
Definition invalid_flags (combinedRegexFlags : list ascii) : string :=
  "SyntaxError: Invalid flags supplied to RegExp constructor '"
  +:+ Text.text combinedRegexFlags +:+ "'".

(** The four configuration checks of [quoted] pass. *)
Definition config_ok (E : env) (options : quoted_options) : bool :=
  negb (path_isAbsolute E (default "." (baseDir options)))
  && match file options with
     | Some f => negb (path_isAbsolute E f)
     | None => false
     end
  && bool_decide (is_Some (regex_opt options)).

Definition quoted (E : env) (options : quoted_options) (cwd version : string)
  (w : world) : world * outcome :=
  let baseDir := default "." (baseDir options) in
  let regexFlags := default EmptyString (regexFlags options) in
  if path_isAbsolute E baseDir
  then (w, config_error "baseDir option can't be an absolute path")
  else
    match file options with
    | None => (w, config_error "Missing file option")
    | Some file =>
        if path_isAbsolute E file
        then (w, config_error "file option can't be an absolute path")
        else
          match regex_opt options with
          | None => (w, config_error "Missing regex option")
          | Some innerRegex =>
              let updateFile := path_join E [cwd; baseDir; file] in
              let cleanFn := getCleanFunction E (clean_opt options) in
              let cleanedVersion := cleanFn version in
              match usable cleanedVersion with
              | None => (w, Called (Some (invalid_version version)))
              | Some v =>
                  let combinedRegexSource := combined_source (source innerRegex) in
                  let combinedRegexFlags :=
                    uniqBy (flags_string (flags_of innerRegex) ++ Text.chars regexFlags) in
                  match parse_flags combinedRegexFlags with
                  | None => (w, Thrown (invalid_flags combinedRegexFlags))
                  | Some fl =>
                      let (w', error) :=
                        replace updateFile (fresh combinedRegexSource fl)
                          (version_template v) w in
                      (w', Called error)
                  end
              end
          end
    end.

End Presets.

(** ** The changelog merge as the specification words it *)

Module ChangelogSpec.

Fixpoint trim_leading_blank (l : list string) : list string :=
  match l with
  | [] => []
  | x :: t => if String.eqb x EmptyString then trim_leading_blank t else l
  end.

Fixpoint trim_trailing_blank (l : list string) : list string :=
  match l with
  | [] => []
  | x :: t =>
      match trim_trailing_blank t with
      | [] => if String.eqb x EmptyString then [] else [x]
      | t' => x :: t'
      end
  end.

(** The pairwise rule: the accumulated result, then the next segment. *)
Definition combine (accumulated next : list string) : list string :=
  match trim_trailing_blank accumulated with
  | [] => trim_leading_blank next
  | trimmed => trimmed ++ [EmptyString] ++ trim_leading_blank next
  end.

(** The merge as the specification words it: the head holds the lines
    before the index and the tail the lines from it on; the rule is
    applied to the head and the entry lines, then to that result and
    the tail. *)
Definition mergeEntry (existingText entryText : string) (insertionLineIndex : Z)
  : string :=
  let lines := Text.split_lines existingText in
  let head := firstn (Z.to_nat insertionLineIndex) lines in
  let tail := skipn (Z.to_nat insertionLineIndex) lines in
  Text.join_lines (combine (combine head (Text.split_lines entryText)) tail).

(** The number of empty lines a sequence of lines begins with, and the
    number it ends with. *)
Fixpoint leading_empty (lines : list string) : nat :=
  match lines with
  | x :: t => if String.eqb x EmptyString then S (leading_empty t) else 0%nat
  | [] => 0%nat
  end.

Definition trailing_empty (lines : list string) : nat := leading_empty (rev lines).

(** A document begins with a blank line. *)
Definition leading_blank (lines : list string) : bool :=
  match lines with
  | x :: _ :: _ => String.eqb x EmptyString
  | _ => false
  end.

(** A document ends with a blank line: its last line is empty and so
    is the line before the final line break. *)
Definition trailing_blank (lines : list string) : bool :=
  match rev lines with
  | x :: y :: _ => String.eqb x EmptyString && String.eqb y EmptyString
  | _ => false
  end.

(** The first segment does not end, and the second does not begin, with
    a blank line: one blank line between them is a run of exactly
    one. *)
Definition tight (a b : list string) : Prop :=
  (forall t x, a = t ++ [x] -> x <> EmptyString)
  /\ (forall x t, b = x :: t -> x <> EmptyString).

(** Two blocks with one blank line between them, when both are
    present. *)
Definition glue (a b : list string) : list string :=
  match a, b with
  | [], _ => b
  | _, [] => a
  | _, _ => a ++ [EmptyString] ++ b
  end.

End ChangelogSpec.

(** ** Stand-ins for the collaborators

    Concrete, simple instances of the external functions, used to run the
    operations on examples. *)

Module Demo.

Import Regex.

(** A decimal numeral. *)
Fixpoint parse_nat_from (acc : nat) (l : list ascii) : option nat :=
  match l with
  | [] => Some acc
  | c :: l' =>
      if is_digit c then parse_nat_from (10 * acc + digit_val c) l' else None
  end.

Definition parse_nat (l : list ascii) : option nat :=
  match l with
  | [] => None
  | _ => parse_nat_from 0 l
  end.

(** The text before the first occurrence of [sep] and the text after
    it. *)
Fixpoint cut (sep : ascii) (l : list ascii) : list ascii * option (list ascii) :=
  match l with
  | [] => ([], None)
  | c :: l' =>
      if Ascii.eqb c sep then ([], Some l')
      else let (a, b) := cut sep l' in (c :: a, b)
  end.

(** MAJOR.MINOR.PATCH, ignoring build metadata after [+]. *)
Definition parse_core (v : string) : option (nat * nat * nat) :=
  let (core, _) := cut "+" (Text.trim_chars (Text.chars v)) in
  let (ma, r1) := cut "." core in
  match r1 with
  | None => None
  | Some r1 =>
      let (mi, r2) := cut "." r1 in
      match r2 with
      | None => None
      | Some pa =>
          match parse_nat ma, parse_nat mi, parse_nat pa with
          | Some a, Some b, Some c => Some (a, b, c)
          | _, _, _ => None
          end
      end
  end.

Definition compare_nat (a b : nat) : Z :=
  match Nat.compare a b with Lt => -1 | Eq => 0 | Gt => 1 end.

(** Stand-in for [semver.compare] on versions without a pre-release
    part. *)
Definition semver_compare (a b : string) : Z :=
  match parse_core a, parse_core b with
  | Some (a1, a2, a3), Some (b1, b2, b3) =>
      if compare_nat a1 b1 =? 0
      then if compare_nat a2 b2 =? 0 then compare_nat a3 b3 else compare_nat a2 b2
      else compare_nat a1 b1
  | _, _ => 0
  end.

(** Stand-in for [localeCompare]: code-unit order. *)
Definition localeCompare (a b : string) : Z :=
  match String.compare a b with Lt => -1 | Eq => 0 | Gt => 1 end.

Definition comparators : Versions.comparators :=
  Versions.Build_comparators semver_compare localeCompare.

(** Stand-in for [semver.clean]: trims, drops a leading [v] or [=], and
    accepts MAJOR.MINOR.PATCH. *)
Definition semver_clean (v : string) : option string :=
  let t := Text.trim_chars (Text.chars v) in
  let t := match t with
           | c :: t' => if Ascii.eqb c "v" || Ascii.eqb c "=" then t' else t
           | [] => t
           end in
  match parse_core (Text.text t) with
  | Some _ => if existsb (Ascii.eqb "+") t then None else Some (Text.text t)
  | None => None
  end.

Definition path_join (parts : list string) : string :=
  String.concat "/" (filter (fun p => negb (String.eqb p ".")) parts).

Definition path_isAbsolute (p : string) : bool :=
  match p with
  | String c _ => Ascii.eqb c "/"
  | EmptyString => false
  end.

(** The version field of a JSON document: the key, a colon and a
    double-quoted value. *)
Definition json_version_pattern : regex :=
  Seq (Group 1 (Seq (Atom (AChar Text.DQ))
                  (Seq (Lit "version")
                     (Seq (Atom (AChar Text.DQ))
                        (Seq Presets.spaces (Seq (Atom (AChar ":")) Presets.spaces))))))
    (Seq (Group 2 (Atom (AChar Text.DQ)))
       (Seq (Star true (Atom (AClass true [CChar Text.DQ]))) (Backref 2))).

(** Stand-in for [update-json]: rewrites the version field of an existing
    document. *)
Definition updateJSON (path version : string) (w : world) : world * option js_error :=
  match Fs.readFile path w with
  | (w1, Failed e) => (w1, Some e)
  | (w1, Done contents) =>
      let updated :=
        Text.text (snd (Regex.replace (Text.chars contents)
                          (fresh json_version_pattern no_flags)
                          (Text.chars (Presets.version_template version)))) in
      (Fs.writeFile path updated w1, None)
  end.

(** Stand-in for [replace-in-file]: rewrites the file when the
    replacement changes it. *)
Definition replaceInFile (path : string) (from : RegExp) (to : string) (w : world)
  : world * option js_error :=
  match Fs.readFile path w with
  | (w1, Failed e) => (w1, Some e)
  | (w1, Done contents) =>
      let updated :=
        Text.text (snd (Regex.replace (Text.chars contents) from (Text.chars to))) in
      if String.eqb updated contents then (w1, None)
      else (Fs.writeFile path updated w1, None)
  end.

Definition is_syntax_character (c : ascii) : bool :=
  existsb (Ascii.eqb c) (Text.chars "\^$.*+?()[]{}|/").

(** Pattern source without syntax characters is a literal. *)
Definition regexp_fragment (src : list ascii) : option regex :=
  if existsb is_syntax_character src then None
  else Some (Lit (Text.text src)).

Definition env : Presets.env :=
  Presets.Env semver_clean path_join path_isAbsolute updateJSON replaceInFile
    regexp_fragment.

(** Text with quotes and line breaks. *)
Definition quoted_text (q : ascii) (s : string) : string :=
  String q (s +:+ String q EmptyString).

Definition line (s : string) : string := s +:+ String Text.NL EmptyString.

(** The options of the example of [quoted]: the prefix is the word
    VERSION at the start of a line with its equals sign, flag [m]. *)
Definition version_prefix : regex := Seq Bol (Presets.assign "VERSION").
Definition version_options : Presets.quoted_options :=
  Presets.QuotedOptions None (Some "v.h")
    (Some (fresh version_prefix Presets.flag_m)) (Some "m") None.
Definition version_file : string := "VERSION = " +:+ quoted_text Text.DQ "1.0.0".
Definition version_file_updated : string := "VERSION = " +:+ quoted_text Text.DQ "1.1.0".

(** A file with two assignments. *)
Definition two_versions : string :=
  line ("VERSION = " +:+ quoted_text Text.DQ "1.0.0")
  +:+ "VERSION = " +:+ quoted_text Text.SQ "2.0.0".
Definition two_versions_updated : string :=
  line ("VERSION = " +:+ quoted_text Text.DQ "1.1.0")
  +:+ "VERSION = " +:+ quoted_text Text.SQ "2.0.0".

(** Options of [quoted] with an absolute base directory and no
    cleaning. *)
Definition absolute_options : Presets.quoted_options :=
  Presets.QuotedOptions (Some "/etc") (Some "v.h")
    (Some (fresh version_prefix Presets.flag_m)) None (Some (Presets.CleanFlag false)).

(** A python module with its version. *)
Definition init_py : string := line ("__version__ = " +:+ quoted_text Text.SQ "1.0.0").
Definition init_py_updated : string :=
  line ("__version__ = " +:+ quoted_text Text.SQ "1.2.0").

(** The cleaning pattern of the example, without flags and with [g]. *)
Definition beta : RegExp := fresh (Lit "-beta") no_flags.
Definition beta_global : RegExp := fresh (Lit "-beta") Presets.flag_g.

(** A manifest, a lock file that lists the package, and a lock file
    that does not. *)
Definition cargo_toml : string :=
  line "[package]" +:+ line ("name = " +:+ quoted_text Text.DQ "mycrate")
  +:+ line ("version = " +:+ quoted_text Text.DQ "0.1.0")
  +:+ line "[dependencies]" +:+ line ("foo = " +:+ quoted_text Text.DQ "1.0").
Definition cargo_lock : string :=
  line "[[package]]" +:+ line ("name = " +:+ quoted_text Text.DQ "other")
  +:+ line ("version = " +:+ quoted_text Text.DQ "3.0.0")
  +:+ line "[[package]]" +:+ line ("name = " +:+ quoted_text Text.DQ "mycrate")
  +:+ line ("version = " +:+ quoted_text Text.DQ "0.1.0").
Definition cargo_world (lock : string) : world :=
  World (<["p/Cargo.toml" := cargo_toml]> {[ "p/Cargo.lock" := lock ]}) [].

(** The documents of the merge example. *)
Definition changelog_existing : string := line "## 1.0.0" +:+ line EmptyString +:+ line "foo".
Definition changelog_entry : string := line "## 1.1.0" +:+ line EmptyString +:+ line "bar".
Definition changelog_merged : string :=
  line "## 1.1.0" +:+ line EmptyString +:+ line "bar" +:+ line EmptyString
  +:+ line "## 1.0.0" +:+ line EmptyString +:+ line "foo".

(** An existing document that ends with two blank lines. *)
Definition changelog_padded : string := line "a" +:+ line EmptyString +:+ line EmptyString.

(** An existing document that begins with a blank line: an empty line,
    then the lines A and B. *)
Definition changelog_blank_head : string := Text.join_lines [EmptyString; "A"; "B"].

(** The array of the example of [getGreaterVersion], at reference 1. *)
Definition documentedVersions : list string := ["2.1.1"; "2.1.0"; "2.0.0"].
Definition heap : gmap positive (list string) := {[ 1%positive := documentedVersions ]}.

End Demo.

(** ** presets: commit subjects *)

Module Angular.

Import Regex.

(** [r?] for a body that cannot match the empty text: the body first,
    then nothing. *)
Definition optional (r : regex) : regex := Alt r Eps.

Definition word : regex := Atom (AClass false [CWord]).

(** The class of scope characters: word characters, dollar, dot, star,
    slash and hyphen. *)
Definition scope_items : list citem :=
  [CWord; CChar "$"; CChar "."; CChar "*"; CChar "/"; CChar "-"].

Definition scope_char : regex := Atom (AClass false scope_items).

Definition fixup : regex := Seq (Lit "fixup!") Presets.spaces.

Definition scope_group : regex :=
  Group 2 (Seq (Atom (AChar "("))
             (Seq (Group 3 (Star true scope_char)) (Atom (AChar ")")))).

(** The subject pattern of [angular], without flags: start of text, an
    optional fixup marker with white space, word characters (group 1), an
    optional scope in parentheses (group 2, the scope itself group 3), a
    colon and a space, the rest of the line (group 4), end of text. *)
Definition subject_pattern : regex :=
  Seq Bol
    (Seq (optional fixup)
       (Seq (Group 1 (Star true word))
          (Seq (optional scope_group)
             (Seq (Lit ": ") (Seq (Group 4 (Star true (Atom ADot))) Eol))))).

Record parsed_subject : Type := ParsedSubject {
  type : value;
  scope : value;
  title : value
}.

(** [_.nth(subjectParts, n)] for [n] from 1: a capture, [undefined] for a
    group that did not take part or when there is no match. *)
Definition part (subjectParts : option match_result) (n : nat) : value :=
  match subjectParts with
  | Some m =>
      match nth (n - 1) (captures m) None with
      | Some t => VString (Text.text t)
      | None => VUndefined
      end
  | None => VUndefined
  end.

(** [subjectParser.angular(options, subject)]. *)
Definition subjectParser (subject : string) : parsed_subject :=
  let subjectParts :=
    snd (exec (fresh subject_pattern no_flags) (Text.chars subject)) in
  ParsedSubject (part subjectParts 1) (part subjectParts 3)
    (if truthy (part subjectParts 4) then part subjectParts 4 else VString subject).

(** A commit subject is the raw text or the parsed object. *)
Inductive commit_subject : Type :=
| SubjectText (s : string)
| SubjectParsed (p : parsed_subject).

(** [_.startsWith(string, target)]. *)
Definition startsWith (s target : string) : bool := String.prefix target s.

(** [includeCommitWhen.angular(options, commit)]. *)
Definition includeCommitWhen (subject : commit_subject) : bool :=
  match subject with
  | SubjectText s => startsWith s "feat" || startsWith s "fix" || startsWith s "perf"
  | SubjectParsed p => Lodash.includes ["feat"; "fix"; "perf"] (type p)
  end.

(** [getGitReferenceFromVersion['v-prefix'](options, version)]. *)
Definition v_prefix (version : string) : string :=
  if startsWith version "v" then version else "v" +:+ version.

(** The text of an optional fixup marker with its white space, and of an
    optional scope with its parentheses. *)
Definition marker_chars (ws : option (list ascii)) : list ascii :=
  match ws with Some l => Text.chars "fixup!" ++ l | None => [] end.

Definition scope_chars (sc : option (list ascii)) : list ascii :=
  match sc with Some l => "("%char :: l ++ [")"%char] | None => [] end.

End Angular.

(** ** Reachable matcher states *)

Module Matching.

Import Regex.

(** Some way of matching [r] at [s] leaves the text [x] ahead. *)
Definition reach (fl : flags) (r : regex) (s : mstate) (x : list ascii) : Prop :=
  exists s', In s' (rmatch fl r s) /\ rest s' = x.

End Matching.

(** ** presets: nested changelogs and documented versions *)

Module Documented.

(** A changelog entry object: its version and its other fields. *)
Record entry (B : Type) : Type := Entry {
  version : string;
  body : B
}.
Arguments Entry {B} version body.
Arguments version {B} e.
Arguments body {B} e.

(** [extractContentsBetween(changelog, repo, start, end)] on an array of
    references to entry objects: the store afterwards and the returned
    array. The entries kept are renamed in place. The whole array is
    filtered before any entry is renamed; for an array that holds no
    object twice the order of the two passes makes no difference. *)
Definition in_range {B : Type} (E : Versions.comparators) (start stop : string)
  (h : gmap positive (entry B)) (r : positive) : bool :=
  match h !! r with
  | Some e => Versions.leq E start (version e) && Versions.leq E (version e) stop
  | None => false
  end.

Definition rename {B : Type} (repo : string) (e : entry B) : entry B :=
  Entry (repo +:+ "-" +:+ version e) (body e).

Definition extractContentsBetween {B : Type} (E : Versions.comparators)
  (changelog : list positive) (repo start stop : string) (h : gmap positive (entry B))
  : gmap positive (entry B) * list positive :=
  let kept := filter (in_range E start stop h) changelog in
  (fold_left (fun h' r => alter (rename repo) r h') kept h, kept).

(** What a node callback [(error, value)] receives. *)
Inductive reply (A : Type) : Type :=
| Replied (error : option js_error) (value : option A).
Arguments Replied {A} error value.

(** [getCurrentBaseVersion['latest-documented']]: the store afterwards and
    the callback's arguments, for an array on whose elements
    [semver.compare] returns (it throws on a string that is not a
    version, and the callback is then not reached). *)
Definition latest_documented (E : Versions.comparators) (documentedVersions : Versions.ref)
  (h : gmap positive (list string)) : gmap positive (list string) * reply string :=
  let (h', v) := Versions.getGreaterVersion E documentedVersions h in
  (h', Replied None (Some v)).

(** The collaborators of [changelog-headers]: the markdown module's
    [extractTitles], and [semver.valid] and [semver.clean] with their
    second argument [loose]. *)
Record titles_env : Type := TitlesEnv {
  extractTitles : string -> list string;
  semver_valid : bool -> string -> bool;
  semver_clean_loose : bool -> string -> option string
}.

(** [_.split(text, sep)] for a one-character separator. *)
Fixpoint split_on (sep : ascii) (s : string) : list string :=
  match s with
  | EmptyString => [EmptyString]
  | String c s' =>
      if Ascii.eqb c sep then EmptyString :: split_on sep s'
      else match split_on sep s' with
           | [] => [String c EmptyString]
           | l :: ls => String c l :: ls
           end
  end.

(** lodash hands the index to the callback as second argument, where
    semver reads [loose]: it is truthy from index 1 on. *)
Definition loose_at (index : nat) : bool := negb (index =? 0)%nat.

(** [_.filter(tokens, semver.valid)]. *)
Fixpoint filter_valid (T : titles_env) (index : nat) (tokens : list string) : list string :=
  match tokens with
  | [] => []
  | t :: ts =>
      if semver_valid T (loose_at index) t then t :: filter_valid T (S index) ts
      else filter_valid T (S index) ts
  end.

(** [.map(cleanFn)]: a cleaning RegExp is one object, used for every
    version in turn. *)
Fixpoint clean_each (T : titles_env) (clean : Presets.clean_option) (index : nat)
  (versions : list string) : list (option string) :=
  match versions with
  | [] => []
  | v :: vs =>
      match clean with
      | Presets.CleanPattern R =>
          let (R', cleaned) := Regex.replace (Text.chars v) R [] in
          Some (Text.text cleaned) :: clean_each T (Presets.CleanPattern R') (S index) vs
      | Presets.CleanFlag true =>
          semver_clean_loose T (loose_at index) v :: clean_each T clean (S index) vs
      | Presets.CleanFlag false => Some v :: clean_each T clean (S index) vs
      end
  end.

(** [getChangelogDocumentedVersions['changelog-headers']]. *)
Definition changelog_headers (T : titles_env) (clean : option Presets.clean_option)
  (file : string) (w : world) : world * reply (list (option string)) :=
  match Fs.readFile file w with
  | (w1, Failed error) =>
      if bool_decide (code error = Some "ENOENT") then (w1, Replied None (Some []))
      else (w1, Replied (Some error) None)
  | (w1, Done changelog) =>
      let tokens :=
        concat (map (fun title => filter_valid T 0 (split_on " " title))
                  (extractTitles T changelog)) in
      (w1, Replied None
             (Some (clean_each T (default (Presets.CleanFlag true) clean) 0 tokens)))
  end.

End Documented.

(** ** Flag sets *)

Module FlagSet.

Import Regex.




End FlagSet.

(** ** More examples *)

Module Samples.

Import Regex.

(** Stand-ins for the collaborators of [changelog-headers]: titles are
    the lines that start with two hashes; validity and cleaning as for
    the other stand-ins. *)
Definition extractTitles (changelog : string) : list string :=
  filter (fun l => String.prefix "## " l) (Text.split_lines changelog).

Definition titles_env : Documented.titles_env :=
  Documented.TitlesEnv extractTitles
    (fun _ v => bool_decide (is_Some (Demo.semver_clean v)))
    (fun _ v => Demo.semver_clean v).

(** A changelog of two entry objects, at references 1 and 2. *)
Definition nested : gmap positive (Documented.entry unit) :=
  <[1%positive := Documented.Entry "1.0.0" tt]> {[ 2%positive := Documented.Entry "2.0.0" tt ]}.

End Samples.

(** * Properties *)

(** ** Increment levels *)

Section IncrementLevels.

Lemma classify_cases (v : value) (c : classification) :
  classify v = Some c ->
  (c = None /\ (v = VUndefined \/ v = VNull))
  \/ (exists l, c = Some l /\ v = VString (level_name l)).
Proof.
  destruct v as [| |s]; simpl.
  - intros [= <-]. left. auto.
  - intros [= <-]. left. auto.
  - destruct (String.eqb_spec s "patch") as [->|_].
    { intros [= <-]. right. exists Patch. auto. }
    destruct (String.eqb_spec s "minor") as [->|_].
    { intros [= <-]. right. exists Minor. auto. }
    destruct (String.eqb_spec s "major") as [->|_].
    { intros [= <-]. right. exists Major. auto. }
    discriminate.
Qed.

Lemma classify_class_value (c : classification) : classify (class_value c) = Some c.
Proof. destruct c as [[| |]|]; reflexivity. Qed.

Lemma getHigherIncrementLevel_classified (a b : value) (ca cb : classification) :
  classify a = Some ca -> classify b = Some cb ->
  Semver.getHigherIncrementLevel a b = Ok (class_value (class_max ca cb)).
Proof.
  intros Ha Hb.
  destruct (classify_cases _ _ Ha) as [[-> [->| ->]]|[la [-> ->]]];
    destruct (classify_cases _ _ Hb) as [[-> [->| ->]]|[lb [-> ->]]];
    try reflexivity;
    try (destruct la; reflexivity);
    try (destruct lb; reflexivity).
  destruct la, lb; reflexivity.
Qed.

Lemma class_max_comm (a b : classification) : class_max a b = class_max b a.
Proof. destruct a as [[| |]|], b as [[| |]|]; reflexivity. Qed.

Lemma class_max_assoc (a b c : classification) :
  class_max a (class_max b c) = class_max (class_max a b) c.
Proof. destruct a as [[| |]|], b as [[| |]|], c as [[| |]|]; reflexivity. Qed.

Lemma fold_class_max (cs : list classification) (acc : classification) :
  fold_left (fun cur c => class_max c cur) cs acc = class_max acc (class_max_list cs).
Proof.
  revert acc. induction cs as [|c cs IH]; intros acc; simpl.
  - destruct acc as [[| |]|]; reflexivity.
  - rewrite IH. rewrite class_max_assoc. f_equal. apply class_max_comm.
Qed.

Lemma reduce_levels_classified (commit : Type) (get : commit -> value)
  (commits : list commit) (cs : list classification) (ccur : classification) :
  map (fun c => classify (get c)) commits = map Some cs ->
  Semver.reduce_levels commit get commits (class_value ccur)
  = Ok (class_value (fold_left (fun cur c => class_max c cur) cs ccur)).
Proof.
  revert cs ccur. induction commits as [|c commits IH]; intros cs ccur Hcs.
  - destruct cs; [|discriminate]. reflexivity.
  - destruct cs as [|c0 cs]; [discriminate|].
    simpl in Hcs. injection Hcs as Hc Hrest.
    simpl. rewrite (getHigherIncrementLevel_classified _ _ c0 ccur Hc
                      (classify_class_value ccur)).
    simpl. apply IH. exact Hrest.
Qed.

Lemma class_max_list_none (cs : list classification) :
  class_max_list cs = None <-> Forall (fun c => c = None) cs.
Proof.
  induction cs as [|c cs IH]; simpl.
  - split; auto.
  - split.
    + intros H. destruct c as [l|].
      * destruct (class_max_list cs) as [m|]; simpl in H;
          [destruct (level_rank l <? level_rank m)%nat|]; discriminate.
      * constructor; [reflexivity|]. apply IH. exact H.
    + intros H. inversion H as [|? ? Hc Hcs]; subst. simpl. apply IH. exact Hcs.
Qed.

Lemma class_max_list_upper (cs : list classification) (m : level) :
  class_max_list cs = Some m ->
  In (Some m) cs /\
  forall l, In (Some l) cs -> (level_rank l <= level_rank m)%nat.
Proof.
  revert m. induction cs as [|c cs IH]; intros m; simpl; [discriminate|].
  destruct c as [l|].
  - destruct (class_max_list cs) as [m'|] eqn:Hm'; simpl.
    + destruct (IH m' eq_refl) as [Hin Hle].
      destruct (Nat.ltb_spec (level_rank l) (level_rank m')) as [Hlt|Hge];
        intros [= <-]; (split; [auto|]).
      * intros l0 [[= ->]|Hl0]; [lia|auto].
      * intros l0 [[= ->]|Hl0]; [lia|]. specialize (Hle _ Hl0). lia.
    + intros [= <-]. split; [auto|].
      intros l0 [[= ->]|Hl0]; [lia|].
      apply class_max_list_none in Hm'.
      rewrite List.Forall_forall in Hm'. specialize (Hm' _ Hl0). discriminate.
  - intros Hm. destruct (IH m Hm) as [Hin Hle]. split; [auto|].
    intros l0 [[=]|Hl0]. auto.
Qed.

End IncrementLevels.

(** C1. On a non-empty sequence of classifications drawn from patch,
    minor, major and none, [calculateNextIncrementLevel] returns the
    maximum level present under patch < minor < major, and none exactly
    when every element is none; [getHigherIncrementLevel] returns none for
    two nones and otherwise the classification of greater position, so a
    level beats none. *)
Theorem calculateNextIncrementLevel_max (commit : Type) (get : commit -> value)
  (commits : list commit) (cs : list classification) :
  commits <> [] ->
  map (fun c => classify (get c)) commits = map Some cs ->
  Semver.calculateNextIncrementLevel commit get commits
  = Ok (class_value (class_max_list cs))
  /\ (class_max_list cs = None <-> Forall (fun c => c = None) cs)
  /\ (forall m, class_max_list cs = Some m ->
        In (Some m) cs /\
        forall l, In (Some l) cs -> (level_rank l <= level_rank m)%nat)
  /\ (forall a b ca cb, classify a = Some ca -> classify b = Some cb ->
        Semver.getHigherIncrementLevel a b = Ok (class_value (class_max ca cb)))
  /\ Semver.calculateNextIncrementLevel commit get []
     = Throw "No commits to calculate the next increment level from"
  /\ class_max None None = None
  /\ (forall l, class_max (Some l) None = Some l /\ class_max None (Some l) = Some l)
  /\ (forall x y, class_max (Some x) (Some y)
                  = Some (if (level_rank x <? level_rank y)%nat then y else x)).
Proof.
  intros Hne Hcs.
  split; [|split; [|split; [|split; [|split; [|split; [|split]]]]]].
  - destruct commits as [|c commits]; [contradiction|].
    unfold Semver.calculateNextIncrementLevel.
    change VNull with (class_value None).
    rewrite (reduce_levels_classified _ _ _ cs None Hcs).
    rewrite fold_class_max. reflexivity.
  - apply class_max_list_none.
  - apply class_max_list_upper.
  - intros a b ca cb. apply getHigherIncrementLevel_classified.
  - reflexivity.
  - reflexivity.
  - intros l. split; reflexivity.
  - intros x y. simpl. destruct (level_rank x <? level_rank y)%nat; reflexivity.
Qed.

Lemma calculateNextIncrementLevel_max_witness :
  Semver.calculateNextIncrementLevel string VString ["patch"; "major"; "minor"]
  = Ok (VString "major").
Proof.
  apply (calculateNextIncrementLevel_max string VString ["patch"; "major"; "minor"]
           [Some Patch; Some Major; Some Minor]).
  - discriminate.
  - reflexivity.
Defined.

(** ** Version ordering and [getGreaterVersion] *)

Section Ordering.

Variable cmp : string -> string -> Z.

Local Abbreviation le_by := (Versions.le_by cmp).
Local Abbreviation consistent_on := (Versions.consistent_on cmp).

Lemma consistent_onb_sound (dom : list string) :
  Versions.consistent_onb cmp dom = true -> consistent_on dom.
Proof.
  unfold Versions.consistent_onb, Versions.antisym_onb, Versions.trans_onb.
  rewrite andb_true_iff, !List.forallb_forall. intros [Ha Ht]. split.
  - intros a b Hia Hib. specialize (Ha a Hia).
    rewrite List.forallb_forall in Ha. specialize (Ha b Hib). lia.
  - intros a b c Hia Hib Hic Hab Hbc. specialize (Ht a Hia).
    rewrite List.forallb_forall in Ht. specialize (Ht b Hib).
    rewrite List.forallb_forall in Ht. specialize (Ht c Hic).
    destruct (Z.leb_spec (cmp a b) 0); [|lia].
    destruct (Z.leb_spec (cmp b c) 0); [|lia].
    destruct (Z.leb_spec (cmp a c) 0); [lia|discriminate].
Qed.

Lemma sort_insert_perm (x : string) (l : list string) :
  Permutation (Versions.sort_insert cmp x l) (x :: l).
Proof.
  induction l as [|y l IH]; simpl; [reflexivity|].
  destruct (cmp x y <=? 0); [reflexivity|].
  rewrite IH. apply perm_swap.
Qed.

Lemma sort_by_perm (l : list string) : Permutation (Versions.sort_by cmp l) l.
Proof.
  induction l as [|x l IH]; simpl; [reflexivity|].
  rewrite sort_insert_perm. constructor. exact IH.
Qed.

Lemma sort_insert_sorted (dom : list string) (x : string) (l : list string) :
  consistent_on dom -> In x dom -> (forall y, In y l -> In y dom) ->
  StronglySorted le_by l -> StronglySorted le_by (Versions.sort_insert cmp x l).
Proof.
  intros [Hanti Htrans] Hx. induction l as [|y l IH]; intros Hdom Hs; simpl.
  - constructor; constructor.
  - inversion Hs as [|? ? Hsl Hall]; subst.
    destruct (Z.leb_spec (cmp x y) 0) as [Hle|Hgt].
    + constructor; [exact Hs|]. constructor; [exact Hle|].
      rewrite List.Forall_forall in Hall |- *. intros z Hz.
      apply (Htrans x y z); auto. { apply Hdom; left; reflexivity. }
      { apply Hdom; right; exact Hz. } apply Hall. exact Hz.
    + constructor.
      * apply IH; [|exact Hsl]. intros z Hz. apply Hdom. right. exact Hz.
      * rewrite List.Forall_forall in Hall |- *. intros z Hz.
        apply (Permutation_in _ (sort_insert_perm x l)) in Hz.
        destruct Hz as [<-|Hz]; [|apply Hall; exact Hz].
        unfold Versions.le_by. specialize (Hanti x y Hx (Hdom y (or_introl eq_refl))). lia.
Qed.

Lemma sort_by_sorted_sub (dom l : list string) :
  consistent_on dom -> (forall y, In y l -> In y dom) ->
  StronglySorted le_by (Versions.sort_by cmp l).
Proof.
  intros Hc. induction l as [|x l IH]; intros Hdom; simpl.
  - constructor.
  - apply (sort_insert_sorted dom); auto.
    + apply Hdom. left. reflexivity.
    + intros y Hy. apply (Permutation_in _ (sort_by_perm l)) in Hy.
      apply Hdom. right. exact Hy.
    + apply IH. intros y Hy. apply Hdom. right. exact Hy.
Qed.

Lemma sort_by_sorted (l : list string) :
  consistent_on l -> StronglySorted le_by (Versions.sort_by cmp l).
Proof. intros Hc. apply (sort_by_sorted_sub l); auto. Qed.

(** The last element of an ascending array is above every element. *)
Lemma sorted_last_max (l : list string) :
  (forall a, In a l -> cmp a a <= 0) ->
  StronglySorted le_by l -> l <> [] ->
  exists m, Lodash.last l = Some m /\ In m l /\ forall x, In x l -> cmp x m <= 0.
Proof.
  intros Hrefl Hs Hne. induction Hs as [|a l Hs IH Hall]; [contradiction|].
  destruct l as [|b l].
  - exists a. split; [reflexivity|]. split; [left; reflexivity|].
    intros x [<-|[]]. apply Hrefl. left. reflexivity.
  - destruct IH as (m & Hlast & Hin & Hmax).
    + intros z Hz. apply Hrefl. right. exact Hz.
    + discriminate.
    + exists m. split; [exact Hlast|]. split; [right; exact Hin|].
      intros x [<-|Hx]; [|apply Hmax; exact Hx].
      rewrite List.Forall_forall in Hall. apply Hall. exact Hin.
Qed.

Lemma consistent_refl (dom : list string) (a : string) :
  consistent_on dom -> In a dom -> cmp a a <= 0.
Proof. intros [Hanti _] Ha. specialize (Hanti a a Ha Ha). lia. Qed.

End Ordering.

Section Trimming.

Lemma dropWhile_head {A : Type} (p : A -> bool) (l : list A) (x : A) (t : list A) :
  Lodash.dropWhile p l = x :: t -> p x = false.
Proof.
  induction l as [|y l IH]; simpl; [discriminate|].
  destruct (p y) eqn:Hy; [exact IH|]. intros [= <- _]. exact Hy.
Qed.

Lemma dropRightWhile_last {A : Type} (p : A -> bool) (l t : list A) (x : A) :
  Lodash.dropRightWhile p l = t ++ [x] -> p x = false.
Proof.
  unfold Lodash.dropRightWhile. intros H.
  apply (f_equal (@rev A)) in H. rewrite rev_involutive, rev_app_distr in H.
  simpl in H. apply (dropWhile_head _ _ _ _ H).
Qed.

Lemma dropRightWhile_keep {A : Type} (p : A -> bool) (l : list A) (x : A) :
  p x = false -> Lodash.dropRightWhile p (l ++ [x]) = l ++ [x].
Proof.
  intros Hx. unfold Lodash.dropRightWhile. rewrite rev_app_distr. simpl.
  rewrite Hx. simpl. rewrite rev_involutive. reflexivity.
Qed.

Lemma dropRightWhile_drop {A : Type} (p : A -> bool) (l : list A) (x : A) :
  p x = true -> Lodash.dropRightWhile p (l ++ [x]) = Lodash.dropRightWhile p l.
Proof.
  intros Hx. unfold Lodash.dropRightWhile. rewrite rev_app_distr. simpl.
  rewrite Hx. reflexivity.
Qed.

(** Dropping from the right keeps a head that does not satisfy [p]. *)
Lemma dropRightWhile_head {A : Type} (p : A -> bool) (l : list A) (x : A) :
  p x = false -> exists t, Lodash.dropRightWhile p (x :: l) = x :: t.
Proof.
  intros Hx. induction l as [|y l IH] using rev_ind.
  - exists []. apply (dropRightWhile_keep p [] x Hx).
  - destruct (p y) eqn:Hy.
    + change (x :: l ++ [y]) with ((x :: l) ++ [y]).
      rewrite dropRightWhile_drop by exact Hy. exact IH.
    + exists (l ++ [y]). change (x :: l ++ [y]) with ((x :: l) ++ [y]).
      apply dropRightWhile_keep. exact Hy.
Qed.

(** [_.trim] leaves no white space at either end. *)
Lemma trim_chars_edges (l : list ascii) :
  (forall c t, Text.trim_chars l = c :: t -> Text.is_space c = false)
  /\ (forall t c, Text.trim_chars l = t ++ [c] -> Text.is_space c = false).
Proof.
  unfold Text.trim_chars. split.
  - intros c t H. destruct (Lodash.dropWhile Text.is_space l) as [|y l'] eqn:Hd.
    + discriminate.
    + pose proof (dropWhile_head _ _ _ _ Hd) as Hy.
      destruct (dropRightWhile_head Text.is_space l' y Hy) as [t' Ht'].
      rewrite Ht' in H. injection H as <- _. exact Hy.
  - intros t c H. apply (dropRightWhile_last _ _ _ _ H).
Qed.

Lemma dropWhile_prefix {A : Type} (p : A -> bool) (l : list A) :
  exists pre, l = pre ++ Lodash.dropWhile p l /\ Forall (fun x => p x = true) pre.
Proof.
  induction l as [|x l (pre & Hl & Hpre)]; [exists []; split; [reflexivity|constructor]|].
  simpl. destruct (p x) eqn:Hx.
  - exists (x :: pre). split; [simpl; rewrite <- Hl; reflexivity|].
    constructor; assumption.
  - exists []. split; [reflexivity|constructor].
Qed.

Lemma dropRightWhile_suffix {A : Type} (p : A -> bool) (l : list A) :
  exists post, l = Lodash.dropRightWhile p l ++ post /\ Forall (fun x => p x = true) post.
Proof.
  destruct (dropWhile_prefix p (rev l)) as (pre & Hl & Hpre).
  exists (rev pre). split.
  - unfold Lodash.dropRightWhile. rewrite <- rev_app_distr, <- Hl.
    symmetry. apply rev_involutive.
  - apply List.Forall_forall. intros x Hx. apply in_rev in Hx.
    exact (proj1 (List.Forall_forall _ _) Hpre x Hx).
Qed.

(** [_.trim] removes white space at the two ends and nothing else. *)
Lemma trim_chars_split (l : list ascii) :
  exists pre post,
    l = pre ++ Text.trim_chars l ++ post
    /\ Forall (fun c => Text.is_space c = true) pre
    /\ Forall (fun c => Text.is_space c = true) post.
Proof.
  unfold Text.trim_chars.
  destruct (dropWhile_prefix Text.is_space l) as (pre & Hl & Hpre).
  destruct (dropRightWhile_suffix Text.is_space (Lodash.dropWhile Text.is_space l))
    as (post & Hd & Hpost).
  exists pre, post. split; [|split; assumption].
  rewrite <- Hd. exact Hl.
Qed.

End Trimming.

Section GreaterVersion.

Import Versions.

Variable E : comparators.

Lemma Array_sort_lookup (cmp : string -> string -> Z) (h : heap) (r : ref)
  (l : list string) :
  h !! r = Some l -> read_array r (Array_sort cmp r h) = sort_by cmp l.
Proof.
  intros Hl. unfold read_array, Array_sort. rewrite Hl.
  rewrite lookup_insert_eq. reflexivity.
Qed.

Lemma text_chars (l : list ascii) : Text.chars (Text.text l) = l.
Proof. apply list_ascii_of_string_of_list_ascii. Qed.

Lemma chars_text (s : string) : Text.text (Text.chars s) = s.
Proof. apply string_of_list_ascii_of_string. Qed.

End GreaterVersion.

(** C8. [compareExtendedSemver] is the semver comparison, with ties broken
    by [localeCompare] on the full strings; [leq] is its test; and on a
    non-empty array [getGreaterVersion] returns a maximum element under
    this order, as [_.trim] renders it: the element itself when the
    versions carry no surrounding white space. *)
Theorem getGreaterVersion_maximum (E : Versions.comparators)
  (h : gmap positive (list string)) (r : Versions.ref) (l : list string)
  (Hl : h !! r = Some l) (Hne : l <> [])
  (Hcons : Versions.consistent_onb (Versions.compareExtendedSemver E) l = true) :
  (forall a b, Versions.semver_compare E a b <> 0 ->
     Versions.compareExtendedSemver E a b = Versions.semver_compare E a b)
  /\ (forall a b, Versions.semver_compare E a b = 0 ->
        Versions.compareExtendedSemver E a b = Versions.localeCompare E a b)
  /\ (forall a b, Versions.leq E a b = true <-> Versions.compareExtendedSemver E a b <= 0)
  /\ exists m, In m l
       /\ (forall x, In x l -> Versions.compareExtendedSemver E x m <= 0)
       /\ snd (Versions.getGreaterVersion E r h) = Text.trim (Some m)
       /\ ((forall x, In x l -> Text.trim (Some x) = x) ->
           snd (Versions.getGreaterVersion E r h) = m).
Proof.
  split; [|split; [|split]].
  - intros a b Hab. unfold Versions.compareExtendedSemver.
    destruct (Z.eqb_spec (Versions.semver_compare E a b) 0); [contradiction|reflexivity].
  - intros a b Hab. unfold Versions.compareExtendedSemver. rewrite Hab. reflexivity.
  - intros a b. unfold Versions.leq. apply Z.leb_le.
  - pose proof (consistent_onb_sound _ _ Hcons) as Hc.
    pose proof (sort_by_sorted _ l Hc) as Hs.
    pose proof (sort_by_perm (Versions.compareExtendedSemver E) l) as Hp.
    destruct (sorted_last_max (Versions.compareExtendedSemver E)
                (Versions.sort_by (Versions.compareExtendedSemver E) l))
      as (m & Hlast & Hin & Hmax).
    + intros a Ha. apply (consistent_refl _ l); [exact Hc|].
      apply (Permutation_in _ Hp). exact Ha.
    + exact Hs.
    + intros Hnil. rewrite Hnil in Hp. apply Permutation_nil in Hp. contradiction.
    + assert (Hres : snd (Versions.getGreaterVersion E r h) = Text.trim (Some m)).
      { unfold Versions.getGreaterVersion. simpl.
        rewrite (Array_sort_lookup _ _ _ l Hl). rewrite Hlast. reflexivity. }
      exists m. split; [apply (Permutation_in _ Hp); exact Hin|]. split; [|split].
      * intros x Hx. apply Hmax. apply (Permutation_in _ (Permutation_sym Hp)). exact Hx.
      * exact Hres.
      * intros Htrim. rewrite Hres. apply Htrim. apply (Permutation_in _ Hp). exact Hin.
Qed.

Lemma getGreaterVersion_maximum_witness :
  snd (Versions.getGreaterVersion Demo.comparators 1%positive Demo.heap) = "2.1.1".
Proof.
  destruct (getGreaterVersion_maximum Demo.comparators Demo.heap 1%positive
              Demo.documentedVersions)
    as (_ & _ & _ & m & _ & _ & Hm & _);
    [reflexivity | discriminate | vm_compute; reflexivity |].
  vm_compute. reflexivity.
Defined.

(** C10. [getGreaterVersion] sorts the caller's array in place: after the
    call the array object holds a permutation of its elements in
    ascending extended-semver order, so an array that was not ascending
    has changed; other arrays are untouched. The returned string has no
    white space at either end; for a last element of ASCII text it is
    that element without the white space at its two ends and with
    everything between kept; for an empty array it is the empty
    string. *)
Theorem getGreaterVersion_sorts_in_place (E : Versions.comparators)
  (h : gmap positive (list string)) (r : Versions.ref) (l : list string)
  (Hl : h !! r = Some l)
  (Hcons : Versions.consistent_onb (Versions.compareExtendedSemver E) l = true) :
  let cmp := Versions.compareExtendedSemver E in
  let h' := fst (Versions.getGreaterVersion E r h) in
  let v := snd (Versions.getGreaterVersion E r h) in
  h' = <[r := Versions.sort_by cmp l]> h
  /\ Permutation (Versions.read_array r h') l
  /\ StronglySorted (Versions.le_by cmp) (Versions.read_array r h')
  /\ (~ StronglySorted (Versions.le_by cmp) l -> Versions.read_array r h' <> l)
  /\ (forall r', r' <> r -> h' !! r' = h !! r')
  /\ (forall c t, Text.chars v = c :: t -> Text.is_space c = false)
  /\ (forall t c, Text.chars v = t ++ [c] -> Text.is_space c = false)
  /\ match Lodash.last (Versions.read_array r h') with
     | Some s =>
         Text.is_ascii s = true ->
         v = Text.trim (Some s)
         /\ exists pre post,
              Text.chars s = pre ++ Text.chars v ++ post
              /\ Forall (fun c => Text.is_space c = true) pre
              /\ Forall (fun c => Text.is_space c = true) post
     | None => l = [] /\ v = EmptyString
     end.
Proof.
  intros cmp h' v.
  assert (Hh' : h' = <[r := Versions.sort_by cmp l]> h).
  { unfold h', Versions.getGreaterVersion, Versions.Array_sort. simpl.
    rewrite Hl. reflexivity. }
  assert (Hread : Versions.read_array r h' = Versions.sort_by cmp l).
  { rewrite Hh'. unfold Versions.read_array. rewrite lookup_insert_eq. reflexivity. }
  pose proof (sort_by_sorted _ l (consistent_onb_sound _ _ Hcons)) as Hs.
  split; [exact Hh'|]. rewrite Hread.
  split; [apply sort_by_perm|]. split; [exact Hs|].
  split; [intros Hns Heq; apply Hns; rewrite <- Heq; exact Hs|].
  split; [intros r' Hr'; rewrite Hh'; apply lookup_insert_ne; congruence|].
  assert (Hv : v = Text.trim (Lodash.last (Versions.sort_by cmp l))).
  { unfold v, Versions.getGreaterVersion. simpl. fold cmp.
    rewrite (Array_sort_lookup cmp h r l Hl). reflexivity. }
  rewrite Hv.
  destruct (Lodash.last (Versions.sort_by cmp l)) as [s|] eqn:Hlast; simpl.
  - rewrite text_chars.
    split; [apply trim_chars_edges|]. split; [apply trim_chars_edges|].
    intros _. split; [reflexivity|]. apply trim_chars_split.
  - split; [discriminate|]. split; [intros [|? ?] ?; discriminate|].
    split; [|reflexivity].
    pose proof (sort_by_perm cmp l) as Hp.
    destruct (Versions.sort_by cmp l) as [|x t] eqn:Hsorted.
    + apply Permutation_nil in Hp. exact Hp.
    + exfalso. unfold Lodash.last in Hlast.
      assert (Hne : map Some (x :: t) <> []) by discriminate.
      destruct (exists_last Hne) as (t' & y & Hy). rewrite Hy in Hlast.
      rewrite last_last in Hlast.
      assert (Hin : In y (map Some (x :: t))) by (rewrite Hy; apply in_or_app; right; left; reflexivity).
      apply in_map_iff in Hin. destruct Hin as (z & <- & _). discriminate Hlast.
Qed.

Lemma getGreaterVersion_sorts_in_place_witness :
  Versions.read_array 1%positive
    (fst (Versions.getGreaterVersion Demo.comparators 1%positive Demo.heap))
  <> Demo.documentedVersions.
Proof.
  destruct (getGreaterVersion_sorts_in_place Demo.comparators Demo.heap 1%positive
              Demo.documentedVersions)
    as (Hh & _ & _ & _); [reflexivity | vm_compute; reflexivity |].
  rewrite Hh. vm_compute. discriminate.
Defined.

(** ** The changelog merge *)

Section DropWhile.

Context {A : Type} (p : A -> bool).

Lemma dropWhile_app (u v : list A) :
  Lodash.dropWhile p (u ++ v)
  = match Lodash.dropWhile p u with
    | [] => Lodash.dropWhile p v
    | u' => u' ++ v
    end.
Proof.
  induction u as [|x u IH]; simpl; [reflexivity|].
  destruct (p x); [exact IH|reflexivity].
Qed.

Lemma dropRightWhile_app (a b : list A) :
  Lodash.dropRightWhile p (a ++ b)
  = match Lodash.dropRightWhile p b with
    | [] => Lodash.dropRightWhile p a
    | b' => a ++ b'
    end.
Proof.
  unfold Lodash.dropRightWhile. rewrite rev_app_distr, dropWhile_app.
  destruct (Lodash.dropWhile p (rev b)) as [|y w] eqn:Hb; simpl; [reflexivity|].
  rewrite rev_app_distr, rev_involutive.
  destruct (rev w ++ [y]) as [|z w'] eqn:Hw.
  - destruct (rev w); discriminate.
  - rewrite <- Hw, app_assoc. reflexivity.
Qed.

Lemma dropWhile_idem (l : list A) :
  Lodash.dropWhile p (Lodash.dropWhile p l) = Lodash.dropWhile p l.
Proof.
  induction l as [|x l IH]; simpl; [reflexivity|].
  destruct (p x) eqn:Hx; [exact IH|]. simpl. rewrite Hx. reflexivity.
Qed.

Lemma dropRightWhile_idem (l : list A) :
  Lodash.dropRightWhile p (Lodash.dropRightWhile p l) = Lodash.dropRightWhile p l.
Proof.
  unfold Lodash.dropRightWhile. rewrite rev_involutive, dropWhile_idem. reflexivity.
Qed.

Lemma dropRightWhile_nil : Lodash.dropRightWhile p [] = [].
Proof. reflexivity. Qed.

(** After dropping on the left, dropping on the right empties the list
    only if it was empty. *)
Lemma dropRightWhile_dropWhile_nil (l : list A) :
  Lodash.dropRightWhile p (Lodash.dropWhile p l) = [] -> Lodash.dropWhile p l = [].
Proof.
  destruct (Lodash.dropWhile p l) as [|x t] eqn:Hd; [reflexivity|].
  destruct (dropRightWhile_head p t x (dropWhile_head _ _ _ _ Hd)) as [t' Ht'].
  rewrite Ht'. discriminate.
Qed.

(** Dropping on the right keeps the left edge clean. *)
Lemma dropRightWhile_dropWhile_head (l : list A) (x : A) (t : list A) :
  Lodash.dropRightWhile p (Lodash.dropWhile p l) = x :: t -> p x = false.
Proof.
  destruct (Lodash.dropWhile p l) as [|y t0] eqn:Hd; [discriminate|].
  pose proof (dropWhile_head _ _ _ _ Hd) as Hy.
  destruct (dropRightWhile_head p t0 y Hy) as [t' Ht'].
  rewrite Ht'. intros [= <- _]. exact Hy.
Qed.

End DropWhile.

Section Merge.

Lemma trim_leading_blank_dropWhile (l : list string) :
  ChangelogSpec.trim_leading_blank l = Lodash.dropWhile Text.isEmpty l.
Proof.
  induction l as [|x l IH]; simpl; [reflexivity|].
  unfold Text.isEmpty at 1. destruct (String.eqb x EmptyString); [exact IH|reflexivity].
Qed.

Lemma trim_trailing_blank_dropRightWhile (l : list string) :
  ChangelogSpec.trim_trailing_blank l = Lodash.dropRightWhile Text.isEmpty l.
Proof.
  induction l as [|x l IH]; [reflexivity|].
  change (x :: l) with ([x] ++ l) at 2. rewrite dropRightWhile_app.
  simpl. rewrite IH.
  destruct (Lodash.dropRightWhile Text.isEmpty l); [|reflexivity].
  unfold Lodash.dropRightWhile, Text.isEmpty. simpl.
  destruct (String.eqb x EmptyString); reflexivity.
Qed.

Lemma merge_step_combine (acc seg : list string) :
  Changelog.merge_step acc seg = ChangelogSpec.combine acc seg.
Proof.
  unfold Changelog.merge_step, ChangelogSpec.combine.
  rewrite trim_trailing_blank_dropRightWhile, trim_leading_blank_dropWhile.
  destruct (Lodash.dropRightWhile Text.isEmpty acc); reflexivity.
Qed.

Lemma slice_head {A : Type} (l : list A) (n : nat) :
  Lodash.slice l 0 (Z.of_nat n) = firstn n l.
Proof.
  unfold Lodash.slice, Lodash.clamp_index.
  replace (0 <? 0) with false by reflexivity.
  destruct (Z.ltb_spec (Z.of_nat n) 0) as [Hneg|_]; [exfalso; lia|].
  rewrite (Z.min_l 0) by lia. simpl skipn.
  destruct (Nat.le_ge_cases n (length l)) as [Hle|Hge].
  - rewrite Z.min_l by lia. rewrite Z.sub_0_r, Nat2Z.id. reflexivity.
  - rewrite Z.min_r by lia. rewrite Z.sub_0_r, Nat2Z.id.
    rewrite firstn_all. symmetry. apply firstn_all2. exact Hge.
Qed.

Lemma slice_tail {A : Type} (l : list A) (n : nat) :
  Lodash.slice_from l (Z.of_nat n) = skipn n l.
Proof.
  unfold Lodash.slice_from, Lodash.slice, Lodash.clamp_index.
  destruct (Z.ltb_spec (Z.of_nat n) 0) as [Hneg|_]; [exfalso; lia|].
  destruct (Z.ltb_spec (Z.of_nat (length l)) 0) as [Hneg|_]; [exfalso; lia|].
  rewrite (Z.min_l (Z.of_nat (length l))) by lia.
  destruct (Nat.le_ge_cases n (length l)) as [Hle|Hge].
  - rewrite Z.min_l by lia. rewrite Nat2Z.id.
    apply firstn_all2. rewrite length_skipn. lia.
  - rewrite Z.min_r by lia. rewrite Nat2Z.id.
    rewrite skipn_all, (skipn_all2 l Hge). apply firstn_nil.
Qed.

(** The cut of the existing lines, for any index: a negative index counts
    from the end, an index beyond the end cuts at the end. *)
Lemma slice_cut {A : Type} (l : list A) (fromLine : Z) :
  let j := Z.to_nat (Lodash.clamp_index (Z.of_nat (length l)) fromLine) in
  Lodash.slice l 0 fromLine = firstn j l /\ Lodash.slice_from l fromLine = skipn j l.
Proof.
  intros j. unfold j, Lodash.slice_from, Lodash.slice.
  assert (Hj : 0 <= Lodash.clamp_index (Z.of_nat (length l)) fromLine
               <= Z.of_nat (length l)).
  { unfold Lodash.clamp_index. destruct (fromLine <? 0) eqn:Hf; lia. }
  replace (Lodash.clamp_index (Z.of_nat (length l)) 0) with 0
    by (unfold Lodash.clamp_index; simpl; lia).
  replace (Lodash.clamp_index (Z.of_nat (length l)) (Z.of_nat (length l)))
    with (Z.of_nat (length l))
    by (unfold Lodash.clamp_index; destruct (Z.ltb_spec (Z.of_nat (length l)) 0); lia).
  split.
  - rewrite Z.sub_0_r. reflexivity.
  - apply firstn_all2. rewrite length_skipn. lia.
Qed.

End Merge.

(** C3, where the claim fails: the code folds the rule from an empty
    accumulated result, so the head is itself a next segment and loses
    its leading blank lines; the rule applied to the head and the entry
    lines, then to that result and the tail, keeps them. On a document
    of an empty line and the lines A and B, with entry E at index 2, the
    code gives A, E and B separated by blank lines, and the rule as
    worded gives the same after an empty first line. *)
Lemma mergeEntry_drops_leading_blank_lines :
  Changelog.mergeEntry Demo.changelog_blank_head "E" 2
  = Text.join_lines ["A"; EmptyString; "E"; EmptyString; "B"]
  /\ ChangelogSpec.mergeEntry Demo.changelog_blank_head "E" 2
     = Text.join_lines [EmptyString; "A"; EmptyString; "E"; EmptyString; "B"]
  /\ Changelog.mergeEntry Demo.changelog_blank_head "E" 2
     <> ChangelogSpec.mergeEntry Demo.changelog_blank_head "E" 2.
Proof.
  split; [vm_compute; reflexivity|]. split; [vm_compute; reflexivity|].
  vm_compute. discriminate.
Qed.

(** C3, as the code has it. The reducer of [prepend] is the blank-line
    rule. [mergeEntry] splits both texts into lines, cuts the existing
    lines at the index into head and tail (a negative index counts from
    the end, an index beyond the end cuts at the end), and folds the rule
    from an empty accumulated result over head, entry lines and tail:
    that is the rule applied to the head without its leading blank lines
    and the entry lines, then to that result and the tail. It is the
    merge as the specification words it when the index is not negative
    and the head does not begin with a blank line. The documented example
    holds, and [prepend] writes the merge of the file's text, the empty
    text for a missing file. *)
Theorem mergeEntry_refines_rule (contents entry : string) (fromLine : Z) :
  let lines := Text.split_lines contents in
  let cut := Z.to_nat (Lodash.clamp_index (Z.of_nat (length lines)) fromLine) in
  let head := firstn cut lines in
  let tail := skipn cut lines in
  (forall acc seg, Changelog.merge_step acc seg = ChangelogSpec.combine acc seg)
  /\ Changelog.mergeEntry contents entry fromLine
     = Text.join_lines
         (fold_left ChangelogSpec.combine [head; Text.split_lines entry; tail] [])
  /\ Changelog.mergeEntry contents entry fromLine
     = Text.join_lines
         (ChangelogSpec.combine
            (ChangelogSpec.combine (ChangelogSpec.trim_leading_blank head)
               (Text.split_lines entry)) tail)
  /\ (0 <= fromLine ->
      head = firstn (Z.to_nat fromLine) lines /\ tail = skipn (Z.to_nat fromLine) lines)
  /\ (0 <= fromLine ->
      (forall x t, head = x :: t -> x <> EmptyString) ->
      Changelog.mergeEntry contents entry fromLine
      = ChangelogSpec.mergeEntry contents entry fromLine)
  /\ Changelog.mergeEntry Demo.changelog_existing Demo.changelog_entry 0
     = Demo.changelog_merged
  /\ (forall file w,
        files (fst (Changelog.prepend (Some fromLine) file entry w)) !! file
        = Some (Changelog.mergeEntry (default EmptyString (files w !! file))
                  entry fromLine)).
Proof.
  intros lines cut head tail.
  assert (Hcode : Changelog.mergeEntry contents entry fromLine
                  = Text.join_lines
                      (ChangelogSpec.combine
                         (ChangelogSpec.combine (ChangelogSpec.combine [] head)
                            (Text.split_lines entry)) tail)).
  { unfold Changelog.mergeEntry. fold lines.
    destruct (slice_cut lines fromLine) as [-> ->]. fold cut head tail.
    simpl fold_left. rewrite !merge_step_combine. reflexivity. }
  assert (Hcut : 0 <= fromLine ->
                 head = firstn (Z.to_nat fromLine) lines
                 /\ tail = skipn (Z.to_nat fromLine) lines).
  { intros Hpos. unfold head, tail, cut, Lodash.clamp_index.
    destruct (Z.ltb_spec fromLine 0) as [Hneg|_]; [exfalso; lia|].
    destruct (Z.le_ge_cases fromLine (Z.of_nat (length lines))) as [Hle|Hge].
    - rewrite Z.min_l by lia. split; reflexivity.
    - rewrite Z.min_r by lia. rewrite Nat2Z.id. split.
      + rewrite firstn_all. symmetry. apply firstn_all2. lia.
      + rewrite skipn_all. symmetry. apply skipn_all2. lia. }
  split; [apply merge_step_combine|]. split; [exact Hcode|].
  split; [exact Hcode|]. split; [exact Hcut|].
  split; [|split].
  - intros Hpos Hhead. rewrite Hcode. unfold ChangelogSpec.mergeEntry. fold lines.
    destruct (Hcut Hpos) as [<- <-].
    replace (ChangelogSpec.combine [] head) with head; [reflexivity|].
    change (ChangelogSpec.combine [] head) with (ChangelogSpec.trim_leading_blank head).
    destruct head as [|x t]; [reflexivity|]. simpl.
    destruct (String.eqb_spec x EmptyString) as [Hx|_]; [|reflexivity].
    exfalso. exact (Hhead x t eq_refl Hx).
  - vm_compute. reflexivity.
  - intros file w. unfold Changelog.prepend, Fs.touch, Fs.readFile, Fs.writeFile, Fs.log.
    simpl default. destruct (files w !! file) as [c|] eqn:Hfile; cbn [files].
    + rewrite Hfile. cbn [fst files]. rewrite lookup_insert_eq. reflexivity.
    + rewrite lookup_insert_eq. cbn [fst files].
      rewrite lookup_insert_eq. reflexivity.
Qed.

Section MergeShape.

Local Abbreviation dw := (Lodash.dropWhile Text.isEmpty).
Local Abbreviation dr := (Lodash.dropRightWhile Text.isEmpty).

(** The accumulated result, trimmed on the right, is the two trimmed
    blocks with one blank line between them. *)
Lemma merge_step_trimmed (acc seg : list string) :
  dr (Changelog.merge_step acc seg) = ChangelogSpec.glue (dr acc) (dr (dw seg)).
Proof.
  unfold Changelog.merge_step.
  destruct (dr acc) as [|a l] eqn:Ha; [reflexivity|].
  rewrite dropRightWhile_app, dropRightWhile_app.
  destruct (dr (dw seg)) as [|m ms] eqn:Hm.
  - replace (dr [EmptyString]) with (@nil string) by reflexivity.
    rewrite <- Ha, dropRightWhile_idem, Ha. reflexivity.
  - reflexivity.
Qed.

Lemma trimmed_tight_right (l : list string) (t : list string) (x : string) :
  dr l = t ++ [x] -> x <> EmptyString.
Proof.
  intros H Hx. apply dropRightWhile_last in H. subst x. discriminate.
Qed.

Lemma trimmed_tight_left (l : list string) (x : string) (t : list string) :
  dw l = x :: t -> x <> EmptyString.
Proof.
  intros H Hx. apply dropWhile_head in H. subst x. discriminate.
Qed.

Lemma glue_tight_right (a b t : list string) (x : string) :
  (forall t x, a = t ++ [x] -> x <> EmptyString) ->
  (forall t x, b = t ++ [x] -> x <> EmptyString) ->
  ChangelogSpec.glue a b = t ++ [x] -> x <> EmptyString.
Proof.
  intros Ha Hb. unfold ChangelogSpec.glue.
  destruct a as [|a0 a']; [apply Hb|].
  destruct b as [|b0 b']; [apply Ha|].
  intros H. destruct (exists_last (l := b0 :: b')) as (t' & y & Hy); [discriminate|].
  rewrite Hy in H. change ((a0 :: a') ++ [EmptyString] ++ t' ++ [y])
    with ((a0 :: a') ++ ([EmptyString] ++ t') ++ [y]) in H.
  rewrite app_assoc in H. apply app_inj_tail in H. destruct H as [_ <-].
  apply (Hb t' y Hy).
Qed.

Lemma fold_merge_shape (head mid tail : list string) :
  fold_left Changelog.merge_step [head; mid; tail] []
  = match ChangelogSpec.glue (dr (dw head)) (dr (dw mid)) with
    | [] => dw tail
    | X => X ++ [EmptyString] ++ dw tail
    end.
Proof.
  simpl fold_left. unfold Changelog.merge_step at 1. rewrite merge_step_trimmed.
  change (Changelog.merge_step [] head) with (dw head).
  destruct (ChangelogSpec.glue (dr (dw head)) (dr (dw mid))); reflexivity.
Qed.

Lemma dropWhile_split {A : Type} (p : A -> bool) (l : list A) :
  exists pre, l = pre ++ Lodash.dropWhile p l /\ forallb p pre = true.
Proof.
  induction l as [|x l (pre & Hl & Hpre)]; [exists []; split; reflexivity|].
  simpl. destruct (p x) eqn:Hx.
  - exists (x :: pre). split; [simpl; rewrite <- Hl; reflexivity|].
    simpl. rewrite Hx. exact Hpre.
  - exists []. split; reflexivity.
Qed.

Lemma dropWhile_nil_iff {A : Type} (p : A -> bool) (l : list A) :
  Lodash.dropWhile p l = [] <-> forallb p l = true.
Proof.
  induction l as [|x l IH]; simpl; [tauto|].
  destruct (p x); [exact IH|]. split; discriminate.
Qed.

(** The empty lines at the start are counted up to the first line that
    is not empty. *)
Lemma leading_empty_app (a b : list string) :
  forallb Text.isEmpty a = false ->
  ChangelogSpec.leading_empty (a ++ b) = ChangelogSpec.leading_empty a.
Proof.
  induction a as [|x a IH]; [discriminate|]. simpl. unfold Text.isEmpty at 1.
  destruct (String.eqb x EmptyString); simpl; [|reflexivity].
  intros H. rewrite IH by exact H. reflexivity.
Qed.

Lemma forallb_rev_list {A : Type} (p : A -> bool) (l : list A) :
  forallb p (rev l) = forallb p l.
Proof.
  induction l as [|x l IH]; [reflexivity|]. simpl.
  rewrite forallb_app, IH. simpl. rewrite andb_true_r. apply andb_comm.
Qed.

(** A sequence that ends with a block holding a line that is not empty
    ends with as many empty lines as the block. *)
Lemma trailing_empty_app (a b : list string) :
  forallb Text.isEmpty b = false ->
  ChangelogSpec.trailing_empty (a ++ b) = ChangelogSpec.trailing_empty b.
Proof.
  intros Hb. unfold ChangelogSpec.trailing_empty. rewrite rev_app_distr.
  apply leading_empty_app. rewrite forallb_rev_list. exact Hb.
Qed.

End MergeShape.

(** C4, the edge the merge does not clean: an existing document that ends
    with blank lines keeps them; inserting at the top of a document that
    ends with two blank lines gives a document that ends with two blank
    lines. *)
Lemma mergeEntry_keeps_trailing_blank_lines :
  Changelog.mergeEntry Demo.changelog_padded "b" 0
  = Demo.line "b" +:+ Demo.line EmptyString +:+ Demo.line "a"
    +:+ Demo.line EmptyString +:+ Demo.line EmptyString
  /\ ChangelogSpec.trailing_blank
       (Text.split_lines (Changelog.mergeEntry Demo.changelog_padded "b" 0)) = true
  /\ ~ (forall contents entry fromLine,
          let out := Text.split_lines (Changelog.mergeEntry contents entry fromLine) in
          ChangelogSpec.leading_blank out = false
          /\ ChangelogSpec.trailing_blank out = false).
Proof.
  split; [vm_compute; reflexivity|]. split; [vm_compute; reflexivity|].
  intros H. specialize (H Demo.changelog_padded "b" 0). destruct H as [_ H].
  vm_compute in H. discriminate.
Qed.

(** C4, as the code has it. The output is the trimmed head and the
    trimmed entry with one blank line between them when both are present,
    then, if that is not empty, one blank line and the tail without its
    leading blank lines. No block ends with a blank line before a
    separator and none begins with one after it, so every boundary the
    merge creates holds exactly one blank line; the output never begins
    with a blank line. At the end of the output: when the tail holds a
    line that is not empty, the output ends with as many empty lines as
    the tail does; when the tail holds empty lines only, they are dropped
    and the output ends with the one separator line, or is empty when
    head and entry are blank too. *)
Theorem mergeEntry_blank_lines (contents entry : string) (fromLine : Z) :
  let lines := Text.split_lines contents in
  let trim := fun l =>
    Lodash.dropRightWhile Text.isEmpty (Lodash.dropWhile Text.isEmpty l) in
  let H := trim (Lodash.slice lines 0 fromLine) in
  let M := trim (Text.split_lines entry) in
  let tail := Lodash.slice_from lines fromLine in
  let T := Lodash.dropWhile Text.isEmpty tail in
  let X := ChangelogSpec.glue H M in
  let out := match X with [] => T | _ => X ++ [EmptyString] ++ T end in
  Changelog.mergeEntry contents entry fromLine = Text.join_lines out
  /\ ChangelogSpec.tight H M
  /\ ChangelogSpec.tight X T
  /\ (forall x t, out = x :: t -> x <> EmptyString)
  /\ (forallb Text.isEmpty tail = false ->
      ChangelogSpec.trailing_empty out = ChangelogSpec.trailing_empty tail)
  /\ (forallb Text.isEmpty tail = true ->
      out = match X with [] => [] | _ => X ++ [EmptyString] end
      /\ ChangelogSpec.trailing_empty out = match X with [] => 0%nat | _ => 1%nat end).
Proof.
  intros lines trim H M tail T X out.
  assert (HH : forall t x, H = t ++ [x] -> x <> EmptyString).
  { intros t x. apply trimmed_tight_right. }
  assert (HM : forall t x, M = t ++ [x] -> x <> EmptyString).
  { intros t x. apply trimmed_tight_right. }
  assert (HH0 : forall x t, H = x :: t -> x <> EmptyString).
  { intros x t Hx Hxe. apply dropRightWhile_dropWhile_head in Hx. subst x. discriminate. }
  assert (HM0 : forall x t, M = x :: t -> x <> EmptyString).
  { intros x t Hx Hxe. apply dropRightWhile_dropWhile_head in Hx. subst x. discriminate. }
  assert (HT0 : forall x t, T = x :: t -> x <> EmptyString).
  { intros x t. apply trimmed_tight_left. }
  assert (HX0 : forall x t, X = x :: t -> x <> EmptyString).
  { unfold X, ChangelogSpec.glue. intros x t.
    destruct H as [|h0 h']; [apply HM0|].
    destruct M as [|m0 m']; [apply HH0|].
    intros [= <- _]. apply (HH0 h0 h'). reflexivity. }
  assert (HX1 : forall t x, X = t ++ [x] -> x <> EmptyString).
  { intros t x. apply glue_tight_right; assumption. }
  split; [|split; [|split; [|split; [|split]]]].
  - unfold Changelog.mergeEntry. rewrite fold_merge_shape.
    unfold out, X, T, tail, M, H, trim, lines.
    destruct (ChangelogSpec.glue _ _); reflexivity.
  - split; [exact HH|exact HM0].
  - split; [exact HX1|exact HT0].
  - unfold out. intros x t. destruct X as [|x0 X'] eqn:HX.
    + apply HT0.
    + intros [= <- _]. apply (HX0 x0 X'). reflexivity.
  - intros Htail.
    destruct (dropWhile_split Text.isEmpty tail) as (pre & Hsplit & Hpre). fold T in Hsplit.
    assert (HT : forallb Text.isEmpty T = false).
    { destruct (forallb Text.isEmpty T) eqn:HTe; [|reflexivity].
      rewrite Hsplit, forallb_app, Hpre, HTe in Htail. discriminate Htail. }
    pose proof (trailing_empty_app pre T HT) as Htl. rewrite <- Hsplit in Htl.
    rewrite Htl. unfold out. destruct X as [|x0 X']; [reflexivity|].
    rewrite app_assoc. apply trailing_empty_app. exact HT.
  - intros Htail. apply dropWhile_nil_iff in Htail. fold T in Htail.
    unfold out. rewrite Htail. destruct X as [|x0 X'] eqn:HX; [split; reflexivity|].
    split; [reflexivity|]. rewrite <- HX in *.
    destruct (exists_last (l := X)) as (t & x & Hlast); [rewrite HX; discriminate|].
    rewrite Hlast. unfold ChangelogSpec.trailing_empty.
    rewrite !rev_app_distr. simpl.
    destruct (String.eqb_spec x EmptyString) as [Hx|_]; [|reflexivity].
    exfalso. exact (HX1 t x Hlast Hx).
Qed.

(** ** The matcher *)

Section Matcher.

Import Regex.

Variable fl : flags.

Lemma extends_refl (s : mstate) : extends s s [].
Proof. split; reflexivity. Qed.

Lemma extends_trans (s1 s2 s3 : mstate) (a b : list ascii) :
  extends s1 s2 a -> extends s2 s3 b -> extends s1 s3 (a ++ b).
Proof.
  intros [Hc1 Hr1] [Hc2 Hr2]. split.
  - rewrite Hc2, Hc1, rev_app_distr, app_assoc. reflexivity.
  - rewrite Hr1, Hr2, app_assoc. reflexivity.
Qed.

Lemma extends_taken (s s' : mstate) (mid : list ascii) :
  extends s s' mid -> taken s s' = mid.
Proof.
  intros [Hc _]. unfold taken. rewrite Hc, length_app, length_rev.
  replace (length mid + length (consumed s) - length (consumed s))%nat
    with (length (rev mid) + 0)%nat by (rewrite length_rev; lia).
  rewrite firstn_app_2. simpl. rewrite app_nil_r. apply rev_involutive.
Qed.

Lemma extends_length (s s' : mstate) (mid : list ascii) :
  extends s s' mid -> length (rest s) = (length mid + length (rest s'))%nat.
Proof. intros [_ Hr]. rewrite Hr. apply length_app. Qed.

Lemma eat_extends (w : list ascii) (s s' : mstate) :
  eat fl w s = Some s' ->
  exists mid, extends s s' mid /\ caps s' = caps s
              /\ Forall2 (fun x c => canon fl x = canon fl c) w mid.
Proof.
  revert s. induction w as [|x w IH]; intros s; simpl.
  - intros [= <-]. exists []. split; [apply extends_refl|]. split; [reflexivity|constructor].
  - destruct (rest s) as [|c t] eqn:Hrest; [discriminate|].
    destruct (Ascii.eqb_spec (canon fl x) (canon fl c)) as [Hxc|_]; [|discriminate].
    intros H. destruct (IH _ H) as (mid & [Hc Hr] & Hcaps & Hall).
    exists (c :: mid). split; [split|split].
    + rewrite Hc. simpl. rewrite <- app_assoc. reflexivity.
    + rewrite Hrest. simpl in Hr. rewrite Hr. reflexivity.
    + exact Hcaps.
    + constructor; assumption.
Qed.

(** A relation that the body preserves is preserved by its
    repetition. *)
Lemma star_loop_rel (Rel : mstate -> mstate -> Prop) (body : mstate -> list mstate)
  (greedy : bool) :
  (forall s, Rel s s) ->
  (forall a b c, Rel a b -> Rel b c -> Rel a c) ->
  (forall s s', In s' (body s) -> Rel s s') ->
  forall n s s', In s' (star_loop body greedy n s) -> Rel s s'.
Proof.
  intros Hrefl Htrans Hbody. induction n as [|n IH]; intros s s'; simpl.
  - intros [<-|[]]. apply Hrefl.
  - assert (Hmore : In s' (flat_map
             (fun s1 => if (length (rest s1) <? length (rest s))%nat
                        then star_loop body greedy n s1 else []) (body s)) -> Rel s s').
    { rewrite in_flat_map. intros (s1 & Hs1 & Hs').
      destruct (length (rest s1) <? length (rest s))%nat; [|contradiction].
      apply (Htrans _ s1); [apply Hbody; exact Hs1|apply IH; exact Hs']. }
    destruct greedy.
    + rewrite in_app_iff. intros [H|[<-|[]]]; [apply Hmore; exact H|apply Hrefl].
    + intros [<-|H]; [apply Hrefl|apply Hmore; exact H].
Qed.

(** The iteration bound of a repetition is never the reason it stops:
    any bound of at least the number of characters ahead gives the same
    matches. *)
Lemma star_loop_fuel (body : mstate -> list mstate) (greedy : bool) (n k : nat)
  (s : mstate) :
  (length (rest s) <= n)%nat -> (length (rest s) <= k)%nat ->
  star_loop body greedy n s = star_loop body greedy k s.
Proof.
  revert k s. induction n as [|n IH]; intros k s Hn Hk.
  - destruct k as [|k]; [reflexivity|]. simpl.
    replace (length (rest s)) with 0%nat by lia.
    assert (Hnil : flat_map (fun _ : mstate => @nil mstate) (body s) = []).
    { induction (body s) as [|x l IHl]; [reflexivity|exact IHl]. }
    simpl. rewrite Hnil. destruct greedy; reflexivity.
  - destruct k as [|k].
    + simpl. replace (length (rest s)) with 0%nat by lia.
      assert (Hnil : flat_map (fun _ : mstate => @nil mstate) (body s) = []).
      { induction (body s) as [|x l IHl]; [reflexivity|exact IHl]. }
      simpl. rewrite Hnil. destruct greedy; reflexivity.
    + simpl.
      assert (Hsame :
        flat_map (fun s' => if (length (rest s') <? length (rest s))%nat
                            then star_loop body greedy n s' else []) (body s)
        = flat_map (fun s' => if (length (rest s') <? length (rest s))%nat
                              then star_loop body greedy k s' else []) (body s)).
      { induction (body s) as [|x l IHl]; [reflexivity|]. simpl. rewrite IHl. f_equal.
        destruct (Nat.ltb_spec (length (rest x)) (length (rest s))) as [Hlt|_];
          [|reflexivity].
        apply IH; lia. }
      rewrite Hsame. reflexivity.
Qed.

Lemma clear_caps_lookup (ns : list nat) (s : mstate) (n : nat) :
  ~ In n ns -> caps (clear_caps ns s) !! n = caps s !! n.
Proof.
  unfold clear_caps. simpl. induction ns as [|k ns IH]; simpl; [reflexivity|].
  intros Hn. rewrite lookup_delete_ne by (intros ->; apply Hn; left; reflexivity).
  apply IH. intros Hin. apply Hn. right. exact Hin.
Qed.

(** A match only moves forward in the text. *)
Lemma rmatch_extends (r : regex) (s s' : mstate) :
  In s' (rmatch fl r s) -> exists mid, extends s s' mid.
Proof.
  revert s s'. induction r as [|a|r1 IH1 r2 IH2|r1 IH1 r2 IH2|g r IH|n r IH|n| |];
    intros s s'; simpl.
  - intros [<-|[]]. exists []. apply extends_refl.
  - destruct (rest s) as [|c t] eqn:Hrest; [intros []|].
    destruct (atom_test fl a c); [|intros []].
    intros [<-|[]]. exists [c]. split; [reflexivity|exact Hrest].
  - rewrite in_flat_map. intros (s1 & H1 & H2).
    destruct (IH1 _ _ H1) as [m1 Hm1]. destruct (IH2 _ _ H2) as [m2 Hm2].
    exists (m1 ++ m2). apply (extends_trans _ s1); assumption.
  - rewrite in_app_iff. intros [H|H]; [apply IH1|apply IH2]; exact H.
  - apply (star_loop_rel (fun a b => exists mid, extends a b mid)).
    + intros s0. exists []. apply extends_refl.
    + intros a b c [m1 Hm1] [m2 Hm2]. exists (m1 ++ m2).
      apply (extends_trans _ b); assumption.
    + intros s0 s1 H. destruct (IH _ _ H) as [mid Hmid]. exists mid. exact Hmid.
  - rewrite in_map_iff. intros (s1 & <- & H1).
    destruct (IH _ _ H1) as [mid Hmid]. exists mid. exact Hmid.
  - destruct (caps s !! n) as [w|].
    + destruct (eat fl w s) as [s1|] eqn:Heat; [|intros []].
      intros [<-|[]]. destruct (eat_extends _ _ _ Heat) as (mid & Hmid & _).
      exists mid. exact Hmid.
    + intros [<-|[]]. exists []. apply extends_refl.
  - destruct (at_bol fl s); [|intros []]. intros [<-|[]]. exists []. apply extends_refl.
  - destruct (at_eol fl s); [|intros []]. intros [<-|[]]. exists []. apply extends_refl.
Qed.

(** A match leaves the captures of the groups outside the pattern as
    they were. *)
Lemma rmatch_frame (r : regex) (s s' : mstate) :
  In s' (rmatch fl r s) ->
  forall n, ~ In n (groups_of r) -> caps s' !! n = caps s !! n.
Proof.
  revert s s'. induction r as [|a|r1 IH1 r2 IH2|r1 IH1 r2 IH2|g r IH|k r IH|k| |];
    intros s s'; simpl.
  - intros [<-|[]]. reflexivity.
  - destruct (rest s) as [|c t]; [intros []|].
    destruct (atom_test fl a c); [|intros []]. intros [<-|[]]. reflexivity.
  - rewrite in_flat_map. intros (s1 & H1 & H2) n Hn.
    rewrite (IH2 _ _ H2 n), (IH1 _ _ H1 n); [reflexivity| |];
      intros Hin; apply Hn; apply in_or_app; auto.
  - rewrite in_app_iff. intros [H|H] n Hn; [apply (IH1 _ _ H)|apply (IH2 _ _ H)];
      intros Hin; apply Hn; apply in_or_app; auto.
  - apply (star_loop_rel
             (fun a b => forall n, ~ In n (groups_of r) -> caps b !! n = caps a !! n)).
    + reflexivity.
    + intros a b c Hab Hbc n Hn. rewrite (Hbc n Hn). apply Hab. exact Hn.
    + intros s0 s1 H n Hn. rewrite (IH _ _ H n Hn). apply clear_caps_lookup. exact Hn.
  - rewrite in_map_iff. intros (s1 & <- & H1) n Hn. simpl.
    rewrite lookup_insert_ne by (intros ->; apply Hn; left; reflexivity).
    apply (IH _ _ H1). intros Hin. apply Hn. right. exact Hin.
  - destruct (caps s !! k) as [w|].
    + destruct (eat fl w s) as [s1|] eqn:Heat; [|intros []].
      intros [<-|[]] n _. destruct (eat_extends _ _ _ Heat) as (_ & _ & -> & _).
      reflexivity.
    + intros [<-|[]]. reflexivity.
  - destruct (at_bol fl s); [|intros []]. intros [<-|[]]. reflexivity.
  - destruct (at_eol fl s); [|intros []]. intros [<-|[]]. reflexivity.
Qed.

Lemma rmatch_caps (r : regex) (s s' : mstate) :
  groups_of r = [] -> In s' (rmatch fl r s) -> caps s' = caps s.
Proof.
  intros Hg H. apply map_eq. intros n. apply (rmatch_frame _ _ _ H).
  rewrite Hg. intros [].
Qed.

End Matcher.

Section QuotedLiteral.

Import Regex.

Variable fl : flags.

(** Canonicalization never maps another character onto a quote. *)
Lemma canon_quote (q c : ascii) :
  q = Text.DQ \/ q = Text.SQ ->
  Ascii.eqb (canon fl q) (canon fl c) = true -> c = q.
Proof.
  unfold canon. intros Hq.
  destruct (ignoreCase fl).
  - destruct Hq as [-> | ->];
      destruct c as [[] [] [] [] [] [] [] []]; vm_compute;
      intros H; first [reflexivity | discriminate H].
  - intros H. apply Ascii.eqb_eq in H. symmetry. exact H.
Qed.

Lemma in_rmatch_quote (s s' : mstate) :
  In s' (rmatch fl Presets.quote s) ->
  exists q, (q = Text.DQ \/ q = Text.SQ) /\ extends s s' [q] /\ caps s' = caps s.
Proof.
  unfold Presets.quote. simpl.
  destruct (rest s) as [|c t] eqn:Hrest; [intros []|].
  rewrite in_app_iff. intros [H|H].
  - destruct (Ascii.eqb (canon fl Text.DQ) (canon fl c)) eqn:Hc; [|destruct H].
    destruct H as [<-|[]]. apply canon_quote in Hc; [|left; reflexivity]. subst c.
    exists Text.DQ. split; [left; reflexivity|]. split; [|reflexivity].
    split; [reflexivity|exact Hrest].
  - destruct (Ascii.eqb (canon fl Text.SQ) (canon fl c)) eqn:Hc; [|destruct H].
    destruct H as [<-|[]]. apply canon_quote in Hc; [|right; reflexivity]. subst c.
    exists Text.SQ. split; [right; reflexivity|]. split; [|reflexivity].
    split; [reflexivity|exact Hrest].
Qed.

Lemma shift_groups_id (k : nat) (r : regex) :
  groups_of r = [] -> Presets.shift_groups k r = r.
Proof.
  induction r as [|a|r1 IH1 r2 IH2|r1 IH1 r2 IH2|g r IH|n r IH|n| |]; simpl;
    try reflexivity.
  - intros H. apply app_eq_nil in H. destruct H as [H1 H2].
    rewrite IH1, IH2 by assumption. reflexivity.
  - intros H. apply app_eq_nil in H. destruct H as [H1 H2].
    rewrite IH1, IH2 by assumption. reflexivity.
  - intros H. rewrite IH by assumption. reflexivity.
  - discriminate.
Qed.

Lemma combined_source_plain (inner : regex) :
  groups_of inner = [] ->
  Presets.combined_source inner
  = Seq (Group 1 inner)
      (Seq (Group 2 Presets.quote) (Seq Presets.lazy_any (Backref 2))).
Proof.
  intros Hg. unfold Presets.combined_source, max_group.
  rewrite shift_groups_id, Hg by exact Hg. reflexivity.
Qed.

Lemma hd_flat_map {A B : Type} (f : A -> list B) (l : list A) (x : B) :
  hd_error (flat_map f l) = Some x -> exists y, In y l /\ hd_error (f y) = Some x.
Proof.
  induction l as [|a l IH]; simpl; [discriminate|].
  destruct (f a) as [|b bs] eqn:Hfa; simpl.
  - intros H. destruct (IH H) as (y & Hy & Hx). exists y. split; [right; exact Hy|exact Hx].
  - intros [= <-]. exists a. split; [left; reflexivity|]. rewrite Hfa. reflexivity.
Qed.

(** The lazy run before the closing quote stops at the first character
    equal to the quote: the payload of the reported match holds no
    quote. *)
Lemma lazy_any_backref_head (q : ascii) (n : nat) (s s' : mstate) :
  q = Text.DQ \/ q = Text.SQ ->
  caps s !! 2%nat = Some [q] ->
  hd_error (flat_map (rmatch fl (Backref 2))
              (star_loop (fun s0 => rmatch fl (Atom ADot) (clear_caps [] s0)) false n s))
  = Some s' ->
  exists payload,
    extends s s' (payload ++ [q]) /\ ~ In q payload /\ caps s' = caps s.
Proof.
  intros Hq. revert s. 
  assert (Hstop : forall s s1, caps s !! 2%nat = Some [q] ->
            rmatch fl (Backref 2) s = [s1] ->
            extends s s1 ([] ++ [q]) /\ caps s1 = caps s).
  { intros s s1 Hc. cbn [rmatch]. rewrite Hc.
    destruct (eat fl [q] s) as [s2|] eqn:Heat; [|discriminate].
    intros [= <-]. destruct (eat_extends _ _ _ _ Heat) as (mid & Hmid & Hcaps & Hall).
    inversion Hall as [|x c w' mid' Hxc Hnil]; subst. inversion Hnil; subst.
    assert (c = q) as -> by (apply canon_quote; [exact Hq|rewrite Hxc; apply Ascii.eqb_refl]).
    split; [exact Hmid|exact Hcaps]. }
  assert (Hone : forall s, caps s !! 2%nat = Some [q] ->
            rmatch fl (Backref 2) s = []
            \/ exists s1, rmatch fl (Backref 2) s = [s1]).
  { intros s Hc. cbn [rmatch]. rewrite Hc.
    destruct (eat fl [q] s) as [s2|]; [right; exists s2; reflexivity|left; reflexivity]. }
  induction n as [|n IH]; intros s Hc; cbn [star_loop flat_map].
  - destruct (Hone s Hc) as [Hnil|[s1 Hs1]].
    + rewrite Hnil. discriminate.
    + rewrite Hs1. intros [= <-]. destruct (Hstop _ _ Hc Hs1) as [Hext Hcaps].
      exists []. split; [exact Hext|]. split; [intros []|exact Hcaps].
  - destruct (Hone s Hc) as [Hnil|[s1 Hs1]].
    2:{ rewrite Hs1. intros [= <-]. destruct (Hstop _ _ Hc Hs1) as [Hext Hcaps].
        exists []. split; [exact Hext|]. split; [intros []|exact Hcaps]. }
    rewrite Hnil. cbn [app rmatch clear_caps fold_right consumed rest caps].
    destruct (rest s) as [|c t] eqn:Hrest; [discriminate|].
    destruct (atom_test fl ADot c); [|discriminate].
    cbn [flat_map rest length]. rewrite (proj2 (Nat.ltb_lt _ _) (Nat.lt_succ_diag_r _)).
    rewrite app_nil_r. intros H.
    destruct (IH (MState (c :: consumed s) t (caps s)) Hc H)
      as (payload & [Hcons Hrst] & Hnot & Hcaps).
    simpl in Hcons, Hrst, Hcaps.
    assert (Hcq : c <> q).
    { intros ->. revert Hnil. cbn [rmatch]. rewrite Hc. cbn [eat]. rewrite Hrest.
      rewrite Ascii.eqb_refl. discriminate. }
    exists (c :: payload). split; [split|split].
    + rewrite Hcons. simpl. rewrite <- !app_assoc. reflexivity.
    + cbn [rest]. rewrite Hrest, Hrst. reflexivity.
    + intros [Heq|Hin]; [apply Hcq; exact Heq|apply Hnot; exact Hin].
    + exact Hcaps.
Qed.

(** The match JavaScript reports for the combined pattern: the prefix
    matches at the start position, a quote follows, then the characters
    up to the first occurrence of that quote. *)
Lemma combined_first (inner : regex) (s s' : mstate) :
  groups_of inner = [] ->
  hd_error (rmatch fl (Presets.combined_source inner) s) = Some s' ->
  exists p q payload sp,
    (q = Text.DQ \/ q = Text.SQ)
    /\ In sp (rmatch fl inner s) /\ extends s sp p
    /\ extends s s' (p ++ [q] ++ payload ++ [q])
    /\ ~ In q payload
    /\ caps s' !! 1%nat = Some p
    /\ caps s' !! 2%nat = Some [q].
Proof.
  intros Hg. rewrite (combined_source_plain _ Hg).
  cbn [rmatch]. intros H.
  destruct (hd_flat_map _ _ _ H) as (s1 & H1 & H'). clear H.
  rewrite in_map_iff in H1. destruct H1 as (sp & <- & Hsp).
  destruct (rmatch_extends fl _ _ _ Hsp) as [p Hp].
  rewrite (extends_taken _ _ _ Hp) in H'.
  destruct (hd_flat_map _ _ _ H') as (s2 & H2 & H''). clear H'.
  rewrite in_map_iff in H2. destruct H2 as (sq & <- & Hsq).
  destruct (in_rmatch_quote _ _ Hsq) as (q & Hq & Hext_q & Hcaps_q).
  rewrite (extends_taken _ _ _ Hext_q) in H''.
  unfold Presets.lazy_any in H''. cbn [rmatch groups_of] in H''.
  destruct (lazy_any_backref_head q _ _ _ Hq (lookup_insert_eq _ _ _) H'')
    as (payload & Hpay & Hnot & Hcaps).
  exists p, q, payload, sp.
  split; [exact Hq|]. split; [exact Hsp|]. split; [exact Hp|].
  split; [|split; [exact Hnot|split]].
  - apply (extends_trans _ (MState (consumed sp) (rest sp) (<[1%nat := p]> (caps sp)))).
    { exact Hp. }
    apply (extends_trans _ (MState (consumed sq) (rest sq) (<[2%nat := [q]]> (caps sq)))).
    { exact Hext_q. }
    exact Hpay.
  - rewrite Hcaps. simpl. rewrite lookup_insert_ne by discriminate.
    rewrite Hcaps_q. simpl. apply lookup_insert_eq.
  - rewrite Hcaps. simpl. apply lookup_insert_eq.
Qed.

End QuotedLiteral.

Section Exec.

Import Regex.

Lemma search_found (R : RegExp) (S : list ascii) (fuel i0 : nat) (m : match_result) :
  search R S fuel i0 = Some m ->
  exists i, (i0 <= i < i0 + fuel)%nat /\ match_at R S i = Some m
            /\ forall j, (i0 <= j < i)%nat -> match_at R S j = None.
Proof.
  revert i0. induction fuel as [|fuel IH]; intros i0; simpl; [discriminate|].
  destruct (match_at R S i0) as [m0|] eqn:H0.
  - intros [= <-]. exists i0. split; [lia|]. split; [exact H0|]. intros j Hj. lia.
  - intros H. destruct (IH _ H) as (i & Hi & Hm & Hnone).
    exists i. split; [lia|]. split; [exact Hm|].
    intros j Hj. destruct (Nat.eq_dec j i0) as [->|Hne]; [exact H0|].
    apply Hnone. lia.
Qed.

Lemma search_none (R : RegExp) (S : list ascii) (fuel i0 : nat) :
  search R S fuel i0 = None ->
  forall j, (i0 <= j < i0 + fuel)%nat -> match_at R S j = None.
Proof.
  revert i0. induction fuel as [|fuel IH]; intros i0; simpl; [intros _ j Hj; lia|].
  destruct (match_at R S i0) as [m0|] eqn:H0; [discriminate|].
  intros H j Hj. destruct (Nat.eq_dec j i0) as [->|Hne]; [exact H0|].
  apply (IH _ H). lia.
Qed.

(** Without the [g] and [y] flags, [exec] searches from the start and
    leaves the object as it was. *)
Lemma exec_plain (R : RegExp) (S : list ascii) :
  global (flags_of R) = false -> sticky (flags_of R) = false ->
  exec R S = (R, search R S (length S + 1) 0).
Proof.
  intros Hg Hy. unfold exec. rewrite Hg, Hy. simpl.
  rewrite Nat.sub_0_r.
  destruct (search R S (length S + 1) 0); reflexivity.
Qed.

Lemma test_plain (R : RegExp) (S : list ascii) :
  global (flags_of R) = false -> sticky (flags_of R) = false ->
  test R S = (R, bool_decide (is_Some (search R S (length S + 1) 0))).
Proof. intros Hg Hy. unfold test. rewrite exec_plain by assumption. reflexivity. Qed.

(** Without the [g] flag, [replace] rewrites the first match only. *)
Lemma replace_plain (R : RegExp) (S template : list ascii) :
  global (flags_of R) = false -> sticky (flags_of R) = false ->
  snd (replace S R template)
  = match search R S (length S + 1) 0 with
    | None => S
    | Some m =>
        firstn (index m) S ++ substitute S m template
          ++ skipn (index m + length (matched m)) S
    end.
Proof.
  intros Hg Hy. unfold replace. rewrite Hg, exec_plain by assumption.
  destruct (search R S (length S + 1) 0) as [m|]; simpl.
  - rewrite Nat.sub_0_r. reflexivity.
  - reflexivity.
Qed.

(** The text between the start state at [i] and a later state. *)
Lemma start_state_extends (S : list ascii) (i : nat) (s' : mstate) (mid : list ascii) :
  (i <= length S)%nat ->
  extends (start_state S i) s' mid ->
  firstn (length (consumed s') - i) (skipn i S) = mid
  /\ S = firstn i S ++ mid ++ skipn (i + length mid) S.
Proof.
  intros Hi [Hc Hrest]. simpl in Hc, Hrest. split.
  - rewrite Hc, Hrest, length_app, !length_rev, length_firstn.
    replace (length mid + Nat.min i (length S) - i)%nat
      with (length mid + 0)%nat by lia.
    rewrite firstn_app_2. simpl. apply app_nil_r.
  - rewrite <- (firstn_skipn i S) at 1. f_equal.
    rewrite Nat.add_comm, <- skipn_skipn.
    rewrite Hrest at 1. f_equal.
    rewrite Hrest. rewrite skipn_app, skipn_all, Nat.sub_diag. reflexivity.
Qed.

(** A match of the combined pattern, as [exec] reports it. *)
Lemma match_at_combined (R : RegExp) (S : list ascii) (i : nat) (m : match_result)
  (inner : regex) :
  source R = Presets.combined_source inner -> groups_of inner = [] ->
  (i <= length S)%nat ->
  match_at R S i = Some m ->
  exists p q payload sp,
    (q = Text.DQ \/ q = Text.SQ)
    /\ In sp (rmatch (flags_of R) inner (start_state S i))
    /\ extends (start_state S i) sp p
    /\ ~ In q payload
    /\ index m = i
    /\ matched m = p ++ [q] ++ payload ++ [q]
    /\ captures m = [Some p; Some [q]]
    /\ S = firstn i S ++ matched m ++ skipn (i + length (matched m)) S.
Proof.
  intros Hsrc Hg Hi. unfold match_at.
  destruct (rmatch (flags_of R) (source R) (start_state S i)) as [|s' others] eqn:Hr;
    [discriminate|].
  intros [= <-]. simpl.
  assert (Hhd : hd_error (rmatch (flags_of R) (Presets.combined_source inner)
                            (start_state S i)) = Some s').
  { rewrite <- Hsrc, Hr. reflexivity. }
  destruct (combined_first _ _ _ _ Hg Hhd)
    as (p & q & payload & sp & Hq & Hsp & Hp & Hext & Hnot & H1 & H2).
  destruct (start_state_extends _ _ _ _ Hi Hext) as [Hmatched Hsplit].
  exists p, q, payload, sp. split; [exact Hq|]. split; [exact Hsp|].
  split; [exact Hp|]. split; [exact Hnot|]. split; [reflexivity|].
  split; [exact Hmatched|]. split.
  - rewrite Hsrc, (combined_source_plain _ Hg). unfold max_group. simpl.
    rewrite Hg. simpl. rewrite H1, H2. reflexivity.
  - rewrite Hmatched. exact Hsplit.
Qed.

End Exec.

Section Substitution.

Import Regex.

Variables (S : list ascii) (m : match_result) (p q : list ascii).
Hypothesis Hcaps : captures m = [Some p; Some q].

Lemma substitute_plain (v t : list ascii) :
  Forall (fun c => c <> "$"%char) v ->
  substitute S m (v ++ t) = v ++ substitute S m t.
Proof.
  induction 1 as [|c v Hc Hv IH]; [reflexivity|].
  simpl app. cbn [substitute].
  destruct (Ascii.eqb_spec c "$") as [->|_]; [contradiction|].
  simpl. rewrite IH. reflexivity.
Qed.

Lemma substitute_group1 (t : list ascii) :
  substitute S m ("$"%char :: "1"%char :: "$"%char :: t)
  = p ++ substitute S m ("$"%char :: t).
Proof. cbn [substitute]. rewrite Hcaps. reflexivity. Qed.

Lemma substitute_group2 (t : list ascii) :
  substitute S m ("$"%char :: "2"%char :: t) = q ++ substitute S m t.
Proof.
  cbn [substitute]. rewrite Hcaps.
  destruct t as [|d2 t']; [reflexivity|].
  destruct (is_digit d2); reflexivity.
Qed.

Lemma chars_append (a b : string) :
  Text.chars (a +:+ b) = Text.chars a ++ Text.chars b.
Proof. induction a as [|c a IH]; simpl; [reflexivity|]. f_equal. exact IH. Qed.

(** The template of the presets rewrites a match to group 1, group 2,
    the version and group 2 again, for a version without a dollar
    sign. *)
Lemma substitute_version (v : string) :
  Forall (fun c => c <> "$"%char) (Text.chars v) ->
  substitute S m (Text.chars (Presets.version_template v))
  = p ++ q ++ Text.chars v ++ q.
Proof.
  intros Hv. unfold Presets.version_template.
  rewrite !chars_append.
  change (Text.chars "$1$2") with ["$"%char; "1"%char; "$"%char; "2"%char].
  change (Text.chars "$2") with ["$"%char; "2"%char].
  simpl app. rewrite substitute_group1, substitute_group2.
  rewrite (substitute_plain _ _ Hv), substitute_group2.
  cbn [substitute]. rewrite app_nil_r. reflexivity.
Qed.

End Substitution.

(** ** Anchored updates *)

Section Anchored.

Import Regex.

Lemma quoted_runs_replace (E : Presets.env) (options : Presets.quoted_options)
  (cwd version v f : string) (Rin : RegExp) (fl : flags) (w : world) :
  Presets.config_ok E options = true ->
  Presets.file options = Some f ->
  Presets.regex_opt options = Some Rin ->
  Presets.usable (Presets.getCleanFunction E (Presets.clean_opt options) version) = Some v ->
  parse_flags (Presets.uniqBy (flags_string (flags_of Rin)
                                 ++ Text.chars (default EmptyString (Presets.regexFlags options))))
  = Some fl ->
  Presets.quoted E options cwd version w
  = (let r := Presets.replace
                (Presets.path_join E [cwd; default "." (Presets.baseDir options); f])
                (fresh (Presets.combined_source (source Rin)) fl)
                (Presets.version_template v) w in
     (fst r, Called (snd r))).
Proof.
  unfold Presets.config_ok, Presets.quoted. intros Hok Hf HR Hv Hfl.
  rewrite Hf, HR in *. rewrite Hv, Hfl.
  apply andb_prop in Hok. destruct Hok as [Hok _].
  apply andb_prop in Hok. destruct Hok as [Hb Hfa].
  apply negb_true_iff in Hb, Hfa. rewrite Hb, Hfa.
  destruct (Presets.replace _ _ _ w). reflexivity.
Qed.

Lemma files_log (e : io_event) (w : world) : files (Fs.log e w) = files w.
Proof. reflexivity. Qed.

End Anchored.

(** C5, where the claim fails: a file with two assignments matches the
    combined pattern twice, and the update does not fail: it rewrites the
    first quoted payload and reports success. *)
Lemma quoted_two_matches_succeeds :
  let w := World {[ "p/v.h" := Demo.two_versions ]} [] in
  let r := Presets.quoted Demo.env Demo.version_options "p" "1.1.0" w in
  snd r = Called None
  /\ files (fst r) !! "p/v.h" = Some Demo.two_versions_updated
  /\ Demo.two_versions_updated <> Demo.two_versions
  /\ length (snd (Regex.collect 100
       (Regex.fresh (Presets.combined_source Demo.version_prefix)
          (Regex.Flags true false true false false false))
       (Text.chars Demo.two_versions))) = 2%nat.
Proof.
  vm_compute. split; [reflexivity|]. split; [reflexivity|].
  split; [discriminate|reflexivity].
Qed.

(** C5, as the code has it. For the private [replace] on a file of
    ASCII text, with a combined pattern (a prefix without capture groups,
    then a quoted literal) without the [g] and [y] flags, and an ASCII
    cleaned version without a dollar sign: when the pattern has no match
    the callback receives the error Pattern does not match and the file
    is unchanged; when it matches, the leftmost match is a text the
    prefix matches there, a quote, a payload free of that quote and the
    same quote, the file is rewritten with that payload replaced by the
    version and every other character kept, the text written is ASCII
    again, and the callback receives null. [quoted] with a valid
    configuration is this operation. *)
Theorem anchored_update_first_match (file : string) (inner : Regex.regex)
  (fl : Regex.flags) (v contents : string) (w : world)
  (Hfile : files w !! file = Some contents)
  (Hascii : Text.is_ascii contents = true /\ Text.is_ascii v = true)
  (Hgroups : Regex.groups_of inner = [])
  (Hflags : Regex.global fl = false /\ Regex.sticky fl = false)
  (Hplain : Forall (fun c => c <> "$"%char) (Text.chars v)) :
  let R := Regex.fresh (Presets.combined_source inner) fl in
  let r := Presets.replace file R (Presets.version_template v) w in
  (snd (Regex.exec R (Text.chars contents)) = None ->
     snd r = Some (JsError None ("Pattern does not match " +:+ file))
     /\ files (fst r) = files w)
  /\ (forall m, snd (Regex.exec R (Text.chars contents)) = Some m ->
        exists pre p q payload post,
          Text.chars contents = pre ++ p ++ [q] ++ payload ++ [q] ++ post
          /\ (q = Text.DQ \/ q = Text.SQ)
          /\ ~ In q payload
          /\ (exists sp,
                In sp (Regex.rmatch fl inner
                         (Regex.start_state (Text.chars contents) (length pre)))
                /\ Regex.extends
                     (Regex.start_state (Text.chars contents) (length pre)) sp p)
          /\ Regex.index m = length pre
          /\ Regex.matched m = p ++ [q] ++ payload ++ [q]
          /\ (forall j, (j < length pre)%nat ->
                Regex.match_at R (Text.chars contents) j = None)
          /\ snd r = None
          /\ files (fst r)
             = <[file := Text.text (pre ++ p ++ [q] ++ Text.chars v ++ [q] ++ post)]>
                 (files w)
          /\ Text.is_ascii (Text.text (pre ++ p ++ [q] ++ Text.chars v ++ [q] ++ post))
             = true)
  /\ (forall E options cwd version f Rin,
        Presets.config_ok E options = true ->
        Presets.file options = Some f ->
        Presets.regex_opt options = Some Rin ->
        Regex.source Rin = inner ->
        Presets.usable (Presets.getCleanFunction E (Presets.clean_opt options) version)
        = Some v ->
        Regex.parse_flags
          (Presets.uniqBy (Regex.flags_string (Regex.flags_of Rin)
                             ++ Text.chars (default EmptyString (Presets.regexFlags options))))
        = Some fl ->
        Presets.path_join E [cwd; default "." (Presets.baseDir options); f] = file ->
        Presets.quoted E options cwd version w = (fst r, Called (snd r))).
Proof.
  intros R r. destruct Hflags as [Hg Hy].
  assert (HRg : Regex.global (Regex.flags_of R) = false) by exact Hg.
  assert (HRy : Regex.sticky (Regex.flags_of R) = false) by exact Hy.
  assert (Hr : r = match Regex.search R (Text.chars contents)
                           (length (Text.chars contents) + 1) 0 with
                   | None =>
                       (Fs.log (EvRead file) w,
                        Some (JsError None ("Pattern does not match " +:+ file)))
                   | Some m =>
                       (Fs.writeFile file
                          (Text.text (firstn (Regex.index m) (Text.chars contents)
                             ++ Regex.substitute (Text.chars contents) m
                                  (Text.chars (Presets.version_template v))
                             ++ skipn (Regex.index m + length (Regex.matched m))
                                  (Text.chars contents)))
                          (Fs.log (EvRead file) w), None)
                   end).
  { unfold r, Presets.replace, Fs.readFile. rewrite Hfile.
    rewrite (test_plain R _ HRg HRy).
    pose proof (replace_plain R (Text.chars contents)
                  (Text.chars (Presets.version_template v)) HRg HRy) as Hrep.
    destruct (Regex.search R (Text.chars contents)
                (length (Text.chars contents) + 1) 0) as [m|] eqn:Hs.
    - rewrite bool_decide_eq_true_2 by (eexists; reflexivity).
      rewrite Hrep. reflexivity.
    - rewrite bool_decide_eq_false_2 by (intros [? ?]; discriminate). reflexivity. }
  rewrite (exec_plain R _ HRg HRy). simpl snd.
  split; [|split].
  - intros Hnone. rewrite Hr, Hnone. split; reflexivity.
  - intros m Hm. rewrite Hr, Hm. cbn [fst snd].
    destruct (search_found _ _ _ _ _ Hm) as (i & Hi & Hat & Hleft).
    assert (Hile : (i <= length (Text.chars contents))%nat) by lia.
    destruct (match_at_combined R _ i m inner eq_refl Hgroups Hile Hat)
      as (p & q & payload & sp & Hq & Hsp & Hp & Hnot & Hidx & Hmatched & Hcaps & Hsplit).
    exists (firstn i (Text.chars contents)), p, q, payload,
      (skipn (i + length (Regex.matched m)) (Text.chars contents)).
    assert (Hlen : length (firstn i (Text.chars contents)) = i).
    { rewrite length_firstn. lia. }
    assert (Hparts : Text.chars contents
                     = firstn i (Text.chars contents) ++ p ++ [q] ++ payload ++ [q]
                         ++ skipn (i + length (Regex.matched m)) (Text.chars contents)).
    { rewrite Hsplit at 1. rewrite Hmatched. rewrite <- !app_assoc. reflexivity. }
    split; [exact Hparts|split; [exact Hq|split; [exact Hnot|split;
      [|split; [|split; [exact Hmatched|split; [|split; [|split]]]]]]]].
    + exists sp. rewrite Hlen. split; [exact Hsp|exact Hp].
    + rewrite Hlen. exact Hidx.
    + rewrite Hlen. intros j Hj. apply Hleft. lia.
    + reflexivity.
    + unfold Fs.writeFile, Fs.log. cbn [files]. rewrite Hidx.
      rewrite (substitute_version _ m p [q] Hcaps v Hplain).
      rewrite <- !app_assoc. reflexivity.
    + destruct Hascii as [Hc Hva]. unfold Text.is_ascii in *.
      rewrite text_chars. apply List.forallb_forall. intros c Hin.
      assert (Hc' : In c (Text.chars contents) \/ In c (Text.chars v)).
      { rewrite Hparts. rewrite !in_app_iff in Hin. rewrite !in_app_iff. tauto. }
      destruct Hc' as [Hc'|Hc'].
      * exact (proj1 (List.forallb_forall _ _) Hc c Hc').
      * exact (proj1 (List.forallb_forall _ _) Hva c Hc').
  - intros E options cwd version f Rin Hok Hf HR Hsrc Hv Hfl Hpath.
    rewrite (quoted_runs_replace E options cwd version v f Rin fl w Hok Hf HR Hv Hfl).
    rewrite Hpath, Hsrc. reflexivity.
Qed.

Lemma anchored_update_first_match_witness :
  Presets.quoted Demo.env Demo.version_options "p" "1.1.0"
    (World {[ "p/v.h" := Demo.version_file ]} [])
  = (World {[ "p/v.h" := Demo.version_file_updated ]}
       [EvRead "p/v.h"; EvWrite "p/v.h" Demo.version_file_updated],
     Called None).
Proof.
  assert (Hplain : Forall (fun c => c <> "$"%char) (Text.chars "1.1.0")).
  { vm_compute. repeat constructor; discriminate. }
  assert (Hfile : files (World {[ "p/v.h" := Demo.version_file ]} []) !! "p/v.h"
                  = Some Demo.version_file) by apply lookup_singleton_eq.
  assert (Hascii : Text.is_ascii Demo.version_file = true /\ Text.is_ascii "1.1.0" = true).
  { split; vm_compute; reflexivity. }
  destruct (anchored_update_first_match "p/v.h" Demo.version_prefix Presets.flag_m
              "1.1.0" Demo.version_file (World {[ "p/v.h" := Demo.version_file ]} [])
              Hfile Hascii eq_refl (conj eq_refl eq_refl) Hplain)
    as (_ & _ & Hquoted).
  rewrite (Hquoted Demo.env Demo.version_options "p" "1.1.0" "v.h"
             (Regex.fresh Demo.version_prefix Presets.flag_m));
    try reflexivity.
Defined.

(** ** The cargo variant *)

Section Cargo.

Import Regex.

(** [replace] on an existing file, for a pattern without the [g] and
    [y] flags. *)
Lemma replace_present (file : string) (R : RegExp) (template contents : string)
  (w : world) :
  files w !! file = Some contents ->
  global (flags_of R) = false -> sticky (flags_of R) = false ->
  Presets.replace file R template w
  = match snd (exec R (Text.chars contents)) with
    | None =>
        (Fs.log (EvRead file) w,
         Some (JsError None ("Pattern does not match " +:+ file)))
    | Some _ =>
        (Fs.writeFile file
           (Text.text (snd (Regex.replace (Text.chars contents) R (Text.chars template))))
           (Fs.log (EvRead file) w), None)
    end.
Proof.
  intros Hfile Hg Hy. unfold Presets.replace, Fs.readFile. rewrite Hfile.
  rewrite (test_plain R _ Hg Hy), (exec_plain R _ Hg Hy). cbn [snd].
  destruct (search R (Text.chars contents) (length (Text.chars contents) + 1) 0).
  - rewrite bool_decide_eq_true_2 by (eexists; reflexivity). reflexivity.
  - rewrite bool_decide_eq_false_2 by (intros [? ?]; discriminate). reflexivity.
Qed.

End Cargo.



(** ** Cleaning *)

Section Cleaning.

Import Regex.

(** A cleaning pattern without the [g] flag removes its first match
    only. *)
Lemma clean_pattern_plain (E : Presets.env) (R : RegExp) (version : string) :
  global (flags_of R) = false -> sticky (flags_of R) = false ->
  Presets.getCleanFunction E (Some (Presets.CleanPattern R)) version
  = Some (Text.text
            match snd (exec R (Text.chars version)) with
            | None => Text.chars version
            | Some m =>
                firstn (index m) (Text.chars version)
                  ++ skipn (index m + length (matched m)) (Text.chars version)
            end).
Proof.
  intros Hg Hy.
  change (Presets.getCleanFunction E (Some (Presets.CleanPattern R)) version)
    with (Some (Text.text (snd (Regex.replace (Text.chars version) R [])))).
  rewrite (replace_plain R _ [] Hg Hy), (exec_plain R _ Hg Hy). cbn [snd].
  destruct (search R (Text.chars version) (length (Text.chars version) + 1) 0);
    reflexivity.
Qed.

End Cleaning.

(** C2. The cleaning function built from a RegExp calls [replace] with
    that RegExp: without the [g] flag only the first match is removed, so
    stripping -beta from 1.2.3-beta-beta leaves 1.2.3-beta; the documented
    example holds, and with the [g] flag every match is removed. *)
Theorem clean_pattern_removes_first_match_only (E : Presets.env) :
  Presets.getCleanFunction E (Some (Presets.CleanPattern Demo.beta)) "1.2.3-beta-beta"
  = Some "1.2.3-beta"
  /\ Presets.getCleanFunction E (Some (Presets.CleanPattern Demo.beta)) "1.2.3-beta"
     = Some "1.2.3"
  /\ Presets.getCleanFunction E (Some (Presets.CleanPattern Demo.beta_global))
       "1.2.3-beta-beta"
     = Some "1.2.3".
Proof.
  split; [|split].
  - rewrite clean_pattern_plain by reflexivity. vm_compute. reflexivity.
  - rewrite clean_pattern_plain by reflexivity. vm_compute. reflexivity.
  - unfold Presets.getCleanFunction. vm_compute. reflexivity.
Qed.

(** ** Invalid versions *)

(** C7, where the claim fails: [quoted] checks its configuration before it
    cleans the version, so with an absolute base directory an empty
    cleaned version is reported as a configuration error. *)
Lemma quoted_configuration_error_first :
  let w := World {[ "p/v.h" := Demo.version_file ]} [] in
  Presets.usable
    (Presets.getCleanFunction Demo.env (Presets.clean_opt Demo.absolute_options) EmptyString)
  = None
  /\ Presets.quoted Demo.env Demo.absolute_options "p" EmptyString w
     = (w, Called (Some (JsError None "baseDir option can't be an absolute path")))
  /\ snd (Presets.quoted Demo.env Demo.absolute_options "p" EmptyString w)
     <> Called (Some (Presets.invalid_version EmptyString)).
Proof.
  intros w. split; [reflexivity|]. split; [reflexivity|]. discriminate.
Qed.

(** C7, as the code has it. When the cleaning function gives [null] or the
    empty string, [npm], [cargo] and [initPy] call back with Invalid
    version and the world is untouched: no file is read, tested or
    written. [quoted] does the same when its configuration checks pass;
    when they do not it calls back with the configuration error, also
    without touching the world. *)
Theorem invalid_version_aborts (E : Presets.env) (clean : option Presets.clean_option)
  (cwd version : string) (targetFile : option string)
  (options : Presets.quoted_options) (w : world)
  (Hv : Presets.usable (Presets.getCleanFunction E clean version) = None) :
  let invalid := Called (Some (Presets.invalid_version version)) in
  Presets.npm E clean cwd version w = (w, invalid)
  /\ Presets.cargo E clean cwd version w = (w, invalid)
  /\ Presets.initPy E targetFile clean cwd version w = (w, invalid)
  /\ (Presets.clean_opt options = clean ->
      fst (Presets.quoted E options cwd version w) = w
      /\ (Presets.config_ok E options = true ->
          Presets.quoted E options cwd version w = (w, invalid))
      /\ (Presets.config_ok E options = false ->
          exists msg, Presets.quoted E options cwd version w
                      = (w, Presets.config_error msg))).
Proof.
  intros invalid. split; [|split; [|split]].
  - unfold Presets.npm. rewrite Hv. reflexivity.
  - unfold Presets.cargo. rewrite Hv. reflexivity.
  - unfold Presets.initPy. rewrite Hv. reflexivity.
  - intros Hclean. unfold Presets.quoted, Presets.config_ok. rewrite Hclean, Hv.
    destruct (Presets.path_isAbsolute E (default "." (Presets.baseDir options))).
    { split; [reflexivity|]. split; [discriminate|]. intros _. eexists. reflexivity. }
    destruct (Presets.file options) as [f|].
    2:{ split; [reflexivity|]. split; [discriminate|]. intros _. eexists. reflexivity. }
    destruct (Presets.path_isAbsolute E f).
    { split; [reflexivity|]. split; [discriminate|]. intros _. eexists. reflexivity. }
    destruct (Presets.regex_opt options) as [Rin|].
    2:{ split; [reflexivity|]. split; [intros H; cbv in H; discriminate H|].
        intros _. eexists. reflexivity. }
    split; [reflexivity|]. split; [reflexivity|].
    intros H. cbv in H. discriminate H.
Qed.

Lemma invalid_version_aborts_witness :
  Presets.cargo Demo.env None "p" "one.two" (Demo.cargo_world Demo.cargo_lock)
  = (Demo.cargo_world Demo.cargo_lock,
     Called (Some (JsError None "Invalid version: one.two"))).
Proof.
  assert (Hv : Presets.usable (Presets.getCleanFunction Demo.env None "one.two") = None)
    by (vm_compute; reflexivity).
  destruct (invalid_version_aborts Demo.env None "p" "one.two" None Demo.version_options
              (Demo.cargo_world Demo.cargo_lock) Hv) as (_ & Hcargo & _).
  exact Hcargo.
Defined.

(** ** The python variant *)

(** C9. When the replacement in the python file completes without error,
    [initPy] never invokes its callback; it invokes it for an invalid
    version and for a failed replacement only, and never with [null]. *)
Theorem initPy_never_signals_success (E : Presets.env) (targetFile : option string)
  (clean : option Presets.clean_option) (cwd version v : string) (w w' : world)
  (Hv : Presets.usable (Presets.getCleanFunction E clean version) = Some v)
  (Hdone : Presets.replaceInFile E
             (Presets.path_join E [cwd; default "__init__.py" targetFile])
             (Regex.fresh Presets.init_py_pattern Presets.flag_g)
             (Presets.version_template v) w = (w', None)) :
  Presets.initPy E targetFile clean cwd version w = (w', NotCalled)
  /\ (forall E0 t c d ver w0, snd (Presets.initPy E0 t c d ver w0) <> Called None)
  /\ (forall E0 t c d ver w0 e,
        snd (Presets.initPy E0 t c d ver w0) = Called (Some e) ->
        e = Presets.invalid_version ver
        \/ exists v0 w1,
             Presets.replaceInFile E0 (Presets.path_join E0 [d; default "__init__.py" t])
               (Regex.fresh Presets.init_py_pattern Presets.flag_g)
               (Presets.version_template v0) w0 = (w1, Some e)).
Proof.
  split; [|split].
  - unfold Presets.initPy. rewrite Hv, Hdone. reflexivity.
  - clear. intros E0 t c d ver w0. unfold Presets.initPy.
    destruct (Presets.usable (Presets.getCleanFunction E0 c ver)) as [v0|];
      [|discriminate].
    destruct (Presets.replaceInFile E0 _ _ _ w0) as [w1 [e|]]; discriminate.
  - clear. intros E0 t c d ver w0 e. unfold Presets.initPy.
    destruct (Presets.usable (Presets.getCleanFunction E0 c ver)) as [v0|];
      [|intros [= <-]; left; reflexivity].
    destruct (Presets.replaceInFile E0 _ _ _ w0) as [w1 [e0|]] eqn:Hrep;
      [|discriminate].
    intros [= <-]. right. exists v0, w1. exact Hrep.
Qed.

Lemma initPy_never_signals_success_witness :
  Presets.initPy Demo.env None None "p" "1.2.0" (World {[ "p/__init__.py" := Demo.init_py ]} [])
  = (World {[ "p/__init__.py" := Demo.init_py_updated ]}
       [EvRead "p/__init__.py"; EvWrite "p/__init__.py" Demo.init_py_updated],
     NotCalled).
Proof.
  assert (Hv : Presets.usable (Presets.getCleanFunction Demo.env None "1.2.0")
               = Some "1.2.0") by (vm_compute; reflexivity).
  refine (proj1 (initPy_never_signals_success Demo.env None None "p" "1.2.0" "1.2.0"
                   _ _ Hv _)).
  vm_compute. reflexivity.
Defined.

(** * Further properties *)

(** ** Increment levels: errors and order *)

Section LevelErrors.

Lemma check_level_invalid (v : value) :
  classify v = None ->
  Semver.check_level v = Throw ("Invalid increment level: " +:+ to_display v).
Proof.
  destruct v as [| |s]; try discriminate.
  unfold classify, Semver.check_level, Semver.isValidIncrementLevel, Lodash.includes,
    Semver.VALID_INCREMENT_LEVELS.
  cbn [existsb value_eqb negb andb orb to_display].
  rewrite (String.eqb_sym "patch" s), (String.eqb_sym "minor" s),
    (String.eqb_sym "major" s).
  destruct (String.eqb s "patch"); [discriminate|].
  destruct (String.eqb s "minor"); [discriminate|].
  destruct (String.eqb s "major"); [discriminate|].
  reflexivity.
Qed.

Lemma check_level_valid (v : value) (c : classification) :
  classify v = Some c -> Semver.check_level v = Ok tt.
Proof.
  intros H. destruct (classify_cases _ _ H) as [[_ [->| ->]]|[l [_ ->]]];
    try reflexivity. destruct l; reflexivity.
Qed.

Lemma class_max_list_perm (cs cs' : list classification) :
  Permutation cs cs' -> class_max_list cs = class_max_list cs'.
Proof.
  induction 1 as [|x l l' _ IH|x y l|l l' l'' _ IH1 _ IH2]; simpl.
  - reflexivity.
  - rewrite IH. reflexivity.
  - rewrite !class_max_assoc, (class_max_comm y x). reflexivity.
  - rewrite IH1. exact IH2.
Qed.

(** The classifications of a list of valid commits. *)
Lemma valid_commits_classified (commit : Type) (get : commit -> value)
  (commits : list commit) :
  Forall (fun c => classify (get c) <> None) commits ->
  map (fun c => classify (get c)) commits
  = map Some (map (fun c => default None (classify (get c))) commits).
Proof.
  induction 1 as [|c commits Hc _ IH]; simpl; [reflexivity|].
  rewrite IH. destruct (classify (get c)); [reflexivity|contradiction].
Qed.

End LevelErrors.

(** X1. A level that is neither [undefined], [null] nor one of patch,
    minor and major makes [getHigherIncrementLevel] throw Invalid
    increment level with that level in the message, in either argument
    position when the other argument is valid. *)
Theorem getHigherIncrementLevel_invalid (a b : value) (cb : classification)
  (Ha : classify a = None) (Hb : classify b = Some cb) :
  Semver.getHigherIncrementLevel a b
  = Throw ("Invalid increment level: " +:+ to_display a)
  /\ Semver.getHigherIncrementLevel b a
     = Throw ("Invalid increment level: " +:+ to_display a)
  /\ Semver.getHigherIncrementLevel a a
     = Throw ("Invalid increment level: " +:+ to_display a).
Proof.
  unfold Semver.getHigherIncrementLevel.
  rewrite (check_level_invalid a Ha), (check_level_valid b cb Hb).
  repeat split; reflexivity.
Qed.

Lemma getHigherIncrementLevel_invalid_witness :
  Semver.getHigherIncrementLevel (VString "huge") VNull
  = Throw "Invalid increment level: huge".
Proof.
  apply (getHigherIncrementLevel_invalid (VString "huge") VNull None);
    reflexivity.
Defined.

(** X2. [calculateNextIncrementLevel] stops at the first commit whose
    level is invalid and throws Invalid increment level for that level,
    whatever follows it. *)
Theorem calculateNextIncrementLevel_first_invalid (commit : Type)
  (get : commit -> value) (before after : list commit) (c : commit)
  (Hbefore : Forall (fun c0 => classify (get c0) <> None) before)
  (Hc : classify (get c) = None) :
  Semver.calculateNextIncrementLevel commit get (before ++ c :: after)
  = Throw ("Invalid increment level: " +:+ to_display (get c)).
Proof.
  assert (Hred : forall cur,
    Semver.reduce_levels commit get (before ++ c :: after) (class_value cur)
    = Throw ("Invalid increment level: " +:+ to_display (get c))).
  { induction Hbefore as [|c0 before Hc0 _ IH]; intros cur; simpl.
    - unfold Semver.getHigherIncrementLevel.
      rewrite (check_level_invalid _ Hc). reflexivity.
    - destruct (classify (get c0)) as [k|] eqn:Hk; [|contradiction].
      rewrite (getHigherIncrementLevel_classified _ _ k cur Hk
                 (classify_class_value cur)).
      simpl. apply IH. }
  unfold Semver.calculateNextIncrementLevel.
  destruct (before ++ c :: after) as [|x l] eqn:Heq.
  - destruct before; discriminate.
  - exact (Hred None).
Qed.

Lemma calculateNextIncrementLevel_first_invalid_witness :
  Semver.calculateNextIncrementLevel string VString ["minor"; "huge"; "major"]
  = Throw "Invalid increment level: huge".
Proof.
  apply (calculateNextIncrementLevel_first_invalid string VString ["minor"] ["major"] "huge").
  - constructor; [discriminate|constructor].
  - reflexivity.
Defined.

(** X3. The level [calculateNextIncrementLevel] returns does not depend
    on the order of the commits: two lists of valid commits that are
    permutations of each other give the same result. *)
Theorem calculateNextIncrementLevel_order (commit : Type) (get : commit -> value)
  (commits commits' : list commit)
  (Hvalid : Forall (fun c => classify (get c) <> None) commits)
  (Hperm : Permutation commits commits') :
  Semver.calculateNextIncrementLevel commit get commits
  = Semver.calculateNextIncrementLevel commit get commits'.
Proof.
  assert (Hvalid' : Forall (fun c => classify (get c) <> None) commits').
  { rewrite List.Forall_forall in Hvalid |- *. intros c Hc. apply Hvalid.
    apply (Permutation_in _ (Permutation_sym Hperm)). exact Hc. }
  assert (Hcalc : forall l, Forall (fun c => classify (get c) <> None) l -> l <> [] ->
    Semver.calculateNextIncrementLevel commit get l
    = Ok (class_value (class_max_list
            (map (fun c => default None (classify (get c))) l)))).
  { intros l Hl Hne. destruct l as [|x l]; [contradiction|].
    unfold Semver.calculateNextIncrementLevel.
    change VNull with (class_value None).
    rewrite (reduce_levels_classified _ _ _ _ None
               (valid_commits_classified _ _ _ Hl)).
    rewrite fold_class_max. reflexivity. }
  destruct commits as [|c0 commits0] eqn:Hcs.
  - apply Permutation_nil in Hperm. subst commits'. reflexivity.
  - rewrite <- Hcs in *. rewrite (Hcalc commits Hvalid) by (rewrite Hcs; discriminate).
    rewrite (Hcalc commits' Hvalid').
    + f_equal. f_equal. apply class_max_list_perm. apply Permutation_map. exact Hperm.
    + intros Hnil. rewrite Hnil in Hperm. apply Permutation_sym, Permutation_nil in Hperm.
      rewrite Hcs in Hperm. discriminate.
Qed.

Lemma calculateNextIncrementLevel_order_witness :
  Semver.calculateNextIncrementLevel string VString ["patch"; "major"; "minor"]
  = Semver.calculateNextIncrementLevel string VString ["major"; "minor"; "patch"].
Proof.
  apply calculateNextIncrementLevel_order.
  - repeat constructor; discriminate.
  - apply Permutation_cons_append.
Defined.

(** ** Version ordering: consistency, repetition, order of the input *)

Section OrderingMore.

Variable cmp : string -> string -> Z.

(** An ascending array is left as it is by the sort. *)
Lemma sort_by_sorted_id (l : list string) :
  StronglySorted (Versions.le_by cmp) l -> Versions.sort_by cmp l = l.
Proof.
  induction 1 as [|x l Hs IH Hall]; simpl; [reflexivity|].
  rewrite IH. destruct l as [|y l]; [reflexivity|]. simpl.
  inversion Hall as [|? ? Hxy _]; subst. unfold Versions.le_by in Hxy.
  rewrite (proj2 (Z.leb_le _ _) Hxy). reflexivity.
Qed.

Lemma consistent_on_incl (dom dom' : list string) :
  (forall x, In x dom' -> In x dom) ->
  Versions.consistent_on cmp dom -> Versions.consistent_on cmp dom'.
Proof.
  intros Hincl [Ha Ht]. split.
  - intros a b Hia Hib. apply Ha; apply Hincl; assumption.
  - intros a b c Hia Hib Hic. apply Ht; apply Hincl; assumption.
Qed.

(** The greatest element of a non-empty array, as the sort leaves it
    last. *)
Lemma sort_by_last_max (l : list string) :
  Versions.consistent_on cmp l -> l <> [] ->
  exists m, Lodash.last (Versions.sort_by cmp l) = Some m /\ In m l
            /\ forall x, In x l -> cmp x m <= 0.
Proof.
  intros Hc Hne.
  pose proof (sort_by_perm cmp l) as Hp.
  destruct (sorted_last_max cmp (Versions.sort_by cmp l)) as (m & Hlast & Hin & Hmax).
  - intros a Ha. apply (consistent_refl cmp l); [exact Hc|].
    apply (Permutation_in _ Hp). exact Ha.
  - apply sort_by_sorted. exact Hc.
  - intros Hnil. rewrite Hnil in Hp. apply Permutation_nil in Hp. contradiction.
  - exists m. split; [exact Hlast|]. split; [apply (Permutation_in _ Hp); exact Hin|].
    intros x Hx. apply Hmax. apply (Permutation_in _ (Permutation_sym Hp)). exact Hx.
Qed.

End OrderingMore.

(** X4. When [semver.compare] and [localeCompare] are each consistent on
    a set of versions (antisymmetric in sign, transitive), so is
    [compareExtendedSemver]: the comparator handed to the sort is a
    consistent one. *)
Theorem compareExtendedSemver_consistent (E : Versions.comparators) (dom : list string)
  (Hsemver : Versions.consistent_on (Versions.semver_compare E) dom)
  (Hlocale : Versions.consistent_on (Versions.localeCompare E) dom) :
  Versions.consistent_on (Versions.compareExtendedSemver E) dom.
Proof.
  destruct Hsemver as [Hsa Hst], Hlocale as [Hla Hlt].
  unfold Versions.compareExtendedSemver. split.
  - intros a b Hia Hib. specialize (Hsa a b Hia Hib). specialize (Hla a b Hia Hib).
    pose proof (Z.sgn_spec (Versions.semver_compare E a b)) as Sab.
    pose proof (Z.sgn_spec (Versions.semver_compare E b a)) as Sba.
    destruct (Z.eqb_spec (Versions.semver_compare E a b) 0) as [Hab|Hab];
      destruct (Z.eqb_spec (Versions.semver_compare E b a) 0) as [Hba|Hba];
      try assumption; exfalso; lia.
  - intros a b c Hia Hib Hic.
    pose proof (Hst a b c Hia Hib Hic) as Tabc.
    pose proof (Hst c a b Hic Hia Hib) as Tcab.
    pose proof (Hst b c a Hib Hic Hia) as Tbca.
    pose proof (Hsa a b Hia Hib) as Aab. pose proof (Hsa b c Hib Hic) as Abc.
    pose proof (Hsa a c Hia Hic) as Aac.
    pose proof (Z.sgn_spec (Versions.semver_compare E a b)) as Sab.
    pose proof (Z.sgn_spec (Versions.semver_compare E b a)) as Sba.
    pose proof (Z.sgn_spec (Versions.semver_compare E b c)) as Sbc.
    pose proof (Z.sgn_spec (Versions.semver_compare E c b)) as Scb.
    pose proof (Z.sgn_spec (Versions.semver_compare E a c)) as Sac.
    pose proof (Z.sgn_spec (Versions.semver_compare E c a)) as Sca.
    pose proof (Hlt a b c Hia Hib Hic) as Labc.
    destruct (Z.eqb_spec (Versions.semver_compare E a b) 0) as [Hab|Hab];
      destruct (Z.eqb_spec (Versions.semver_compare E b c) 0) as [Hbc|Hbc];
      destruct (Z.eqb_spec (Versions.semver_compare E a c) 0) as [Hac|Hac];
      intros H1 H2; try lia.
Qed.

Lemma compareExtendedSemver_consistent_witness :
  Versions.consistent_on (Versions.compareExtendedSemver Demo.comparators)
    Demo.documentedVersions.
Proof.
  apply compareExtendedSemver_consistent;
    apply consistent_onb_sound; vm_compute; reflexivity.
Defined.

(** X5. A second call of [getGreaterVersion] on the same array changes
    nothing and returns the same version: the array is already in
    order. *)
Theorem getGreaterVersion_twice (E : Versions.comparators)
  (h : gmap positive (list string)) (r : Versions.ref) (l : list string)
  (Hl : h !! r = Some l)
  (Hcons : Versions.consistent_onb (Versions.compareExtendedSemver E) l = true) :
  Versions.getGreaterVersion E r (fst (Versions.getGreaterVersion E r h))
  = Versions.getGreaterVersion E r h.
Proof.
  pose proof (sort_by_sorted _ l (consistent_onb_sound _ _ Hcons)) as Hs.
  set (cmp := Versions.compareExtendedSemver E) in *.
  assert (H1 : Versions.Array_sort cmp r h !! r = Some (Versions.sort_by cmp l)).
  { unfold Versions.Array_sort, Versions.ref in *. rewrite Hl.
    apply lookup_insert_eq. }
  assert (H2 : Versions.Array_sort cmp r (Versions.Array_sort cmp r h)
               = Versions.Array_sort cmp r h).
  { unfold Versions.Array_sort at 1. rewrite H1.
    rewrite (sort_by_sorted_id _ _ Hs). apply insert_id. exact H1. }
  unfold Versions.getGreaterVersion. cbn [fst]. fold cmp. rewrite H2. reflexivity.
Qed.

Lemma getGreaterVersion_twice_witness :
  Versions.getGreaterVersion Demo.comparators 1%positive
    (fst (Versions.getGreaterVersion Demo.comparators 1%positive Demo.heap))
  = Versions.getGreaterVersion Demo.comparators 1%positive Demo.heap.
Proof.
  apply (getGreaterVersion_twice Demo.comparators Demo.heap 1%positive
           Demo.documentedVersions).
  - reflexivity.
  - vm_compute. reflexivity.
Defined.

(** X6. The version [getGreaterVersion] returns does not depend on the
    order of the array, when the comparator is consistent and reports 0
    for identical strings only. *)
Theorem getGreaterVersion_order (E : Versions.comparators)
  (h h' : gmap positive (list string)) (r r' : Versions.ref) (l l' : list string)
  (Hl : h !! r = Some l) (Hl' : h' !! r' = Some l')
  (Hperm : Permutation l l')
  (Hcons : Versions.consistent_onb (Versions.compareExtendedSemver E) l = true)
  (Hstrict : forall a b, In a l -> In b l ->
               Versions.compareExtendedSemver E a b = 0 -> a = b) :
  snd (Versions.getGreaterVersion E r h) = snd (Versions.getGreaterVersion E r' h').
Proof.
  pose proof (consistent_onb_sound _ _ Hcons) as Hc.
  assert (Hc' : Versions.consistent_on (Versions.compareExtendedSemver E) l').
  { apply (consistent_on_incl _ l); [|exact Hc].
    intros x Hx. apply (Permutation_in _ (Permutation_sym Hperm)). exact Hx. }
  unfold Versions.getGreaterVersion. cbn [snd].
  rewrite (Array_sort_lookup _ _ _ l Hl), (Array_sort_lookup _ _ _ l' Hl').
  destruct l as [|x0 l0] eqn:Hlx.
  { apply Permutation_nil in Hperm. subst l'. reflexivity. }
  rewrite <- Hlx in *.
  destruct (sort_by_last_max _ l Hc) as (m & Hlast & Hin & Hmax);
    [rewrite Hlx; discriminate|].
  destruct (sort_by_last_max _ l' Hc') as (m' & Hlast' & Hin' & Hmax').
  { intros Hnil. rewrite Hnil in Hperm. apply Permutation_sym, Permutation_nil in Hperm.
    rewrite Hlx in Hperm. discriminate. }
  rewrite Hlast, Hlast'. f_equal. f_equal.
  assert (Hin'l : In m' l) by (apply (Permutation_in _ (Permutation_sym Hperm)); exact Hin').
  apply Hstrict; [exact Hin|exact Hin'l|].
  pose proof (Hmax m' Hin'l) as H1.
  pose proof (Hmax' m (Permutation_in _ Hperm Hin)) as H2.
  destruct Hc as [Hanti _]. specialize (Hanti m m' Hin Hin'l).
  pose proof (Z.sgn_spec (Versions.compareExtendedSemver E m m')).
  pose proof (Z.sgn_spec (Versions.compareExtendedSemver E m' m)).
  lia.
Qed.

Lemma getGreaterVersion_order_witness :
  snd (Versions.getGreaterVersion Demo.comparators 1%positive Demo.heap)
  = snd (Versions.getGreaterVersion Demo.comparators 1%positive
           {[ 1%positive := ["2.0.0"; "2.1.1"; "2.1.0"] ]}).
Proof.
  apply (getGreaterVersion_order Demo.comparators Demo.heap _ 1%positive 1%positive
           Demo.documentedVersions ["2.0.0"; "2.1.1"; "2.1.0"]).
  - reflexivity.
  - apply lookup_singleton_eq.
  - apply Permutation_sym, Permutation_cons_append.
  - vm_compute. reflexivity.
  - intros a b Ha Hb.
    repeat (destruct Ha as [<-|Ha]; [|]); try contradiction;
      repeat (destruct Hb as [<-|Hb]; [|]); try contradiction;
      vm_compute; intros H; first [reflexivity | discriminate H].
Defined.

(** X7. [latest-documented] with no documented versions: the sort has
    nothing to compare, the callback gets no error and the empty string
    as version, and the array is left as it was. *)
Theorem latest_documented_no_versions (E : Versions.comparators)
  (h : gmap positive (list string)) (r : Versions.ref)
  (Hempty : Versions.read_array r h = []) :
  Documented.latest_documented E r h
  = (h, Documented.Replied None (Some EmptyString)).
Proof.
  revert Hempty.
  unfold Documented.latest_documented, Versions.getGreaterVersion.
  unfold Versions.read_array, Versions.Array_sort.
  destruct (h !! r) as [l|] eqn:Hl; simpl.
  - intros ->. simpl. rewrite lookup_insert_eq. simpl.
    rewrite (insert_id h r [] Hl). reflexivity.
  - intros _. rewrite Hl. reflexivity.
Qed.

Lemma latest_documented_no_versions_witness :
  Documented.latest_documented Demo.comparators 1%positive {[ 1%positive := [] ]}
  = ({[ 1%positive := [] ]}, Documented.Replied None (Some EmptyString)).
Proof.
  apply (latest_documented_no_versions Demo.comparators {[ 1%positive := [] ]} 1%positive).
  vm_compute. reflexivity.
Defined.

(** ** The changelog merge: what it keeps *)

Section Lines.

Local Abbreviation no_break := (fun s : string => ~ In Text.NL (Text.chars s)).
Local Abbreviation nonblank := (fun s : string => negb (Text.isEmpty s)).

Lemma split_lines_cons (s : string) : exists x t, Text.split_lines s = x :: t.
Proof.
  destruct s as [|c s]; simpl; [eauto|].
  destruct (Ascii.eqb c Text.NL); [eauto|].
  destruct (Text.split_lines s); eauto.
Qed.

Lemma split_lines_no_break (s : string) : Forall no_break (Text.split_lines s).
Proof.
  induction s as [|c s IH]; simpl.
  - constructor; [intros []|constructor].
  - destruct (Ascii.eqb_spec c Text.NL) as [->|Hc].
    + constructor; [intros []|exact IH].
    + destruct (Text.split_lines s) as [|l ls].
      * constructor; [|constructor]. simpl. intros [H|[]]. congruence.
      * inversion IH as [|? ? Hl Hls]; subst. constructor; [|exact Hls].
        simpl. intros [H|H]; [congruence|exact (Hl H)].
Qed.

(** A text without line break is one line; a line break after such a
    text starts the next line. *)
Lemma split_lines_append (x rest : string) :
  no_break x ->
  Text.split_lines (x +:+ String Text.NL rest) = x :: Text.split_lines rest.
Proof.
  induction x as [|c x IH]; simpl; intros Hx.
  - reflexivity.
  - destruct (Ascii.eqb_spec c Text.NL) as [->|Hc]; [exfalso; apply Hx; left; reflexivity|].
    rewrite IH; [reflexivity|]. intros H. apply Hx. right. exact H.
Qed.

Lemma split_lines_single (x : string) : no_break x -> Text.split_lines x = [x].
Proof.
  induction x as [|c x IH]; simpl; intros Hx; [reflexivity|].
  destruct (Ascii.eqb_spec c Text.NL) as [->|Hc]; [exfalso; apply Hx; left; reflexivity|].
  rewrite IH; [reflexivity|]. intros H. apply Hx. right. exact H.
Qed.

(** Joining lines and splitting again gives the lines back. *)
Lemma split_join_lines (l : list string) :
  l <> [] -> Forall no_break l -> Text.split_lines (Text.join_lines l) = l.
Proof.
  intros Hne Hall. induction Hall as [|x l Hx Hl IH]; [contradiction|].
  destruct l as [|y l].
  - simpl. apply split_lines_single. exact Hx.
  - change (Text.join_lines (x :: y :: l))
      with (x +:+ String Text.NL (Text.join_lines (y :: l))).
    rewrite (split_lines_append _ _ Hx), IH by discriminate. reflexivity.
Qed.

(** Splitting a text into lines and joining them gives the text back. *)
Lemma join_split_lines (s : string) : Text.join_lines (Text.split_lines s) = s.
Proof.
  induction s as [|c s IH]; [reflexivity|]. simpl.
  destruct (Ascii.eqb_spec c Text.NL) as [->|Hc].
  - destruct (split_lines_cons s) as (x & t & Hs). rewrite Hs in *.
    change (Text.join_lines (EmptyString :: x :: t))
      with (String Text.NL (Text.join_lines (x :: t))).
    rewrite IH. reflexivity.
  - destruct (split_lines_cons s) as (x & t & Hs). rewrite Hs in *.
    rewrite <- IH. destruct t; reflexivity.
Qed.

Lemma filter_dropWhile (l : list string) :
  List.filter nonblank (Lodash.dropWhile Text.isEmpty l) = List.filter nonblank l.
Proof.
  induction l as [|x l IH]; simpl; [reflexivity|].
  destruct (Text.isEmpty x) eqn:Hx; simpl; [exact IH|]. rewrite Hx. reflexivity.
Qed.

Lemma filter_dropRightWhile (l : list string) :
  List.filter nonblank (Lodash.dropRightWhile Text.isEmpty l) = List.filter nonblank l.
Proof.
  induction l as [|x l IH] using rev_ind; [reflexivity|].
  destruct (Text.isEmpty x) eqn:Hx.
  - rewrite dropRightWhile_drop by exact Hx. rewrite IH, List.filter_app. simpl.
    rewrite Hx. simpl. rewrite app_nil_r. reflexivity.
  - rewrite dropRightWhile_keep by exact Hx. reflexivity.
Qed.

Lemma filter_glue (a b : list string) :
  List.filter nonblank (ChangelogSpec.glue a b)
  = List.filter nonblank a ++ List.filter nonblank b.
Proof.
  unfold ChangelogSpec.glue. destruct a as [|x a]; [reflexivity|].
  destruct b as [|y b]; [rewrite app_nil_r; reflexivity|].
  rewrite !List.filter_app. reflexivity.
Qed.

Lemma Forall_dropWhile {A : Type} (P : A -> Prop) (p : A -> bool) (l : list A) :
  Forall P l -> Forall P (Lodash.dropWhile p l).
Proof.
  induction 1 as [|x l Hx Hl IH]; simpl; [constructor|].
  destruct (p x); [exact IH|constructor; assumption].
Qed.

Lemma Forall_rev_list {A : Type} (P : A -> Prop) (l : list A) :
  Forall P l -> Forall P (rev l).
Proof.
  intros H. rewrite List.Forall_forall in H |- *. intros x Hx.
  apply H. apply in_rev. exact Hx.
Qed.

Lemma Forall_dropRightWhile {A : Type} (P : A -> Prop) (p : A -> bool) (l : list A) :
  Forall P l -> Forall P (Lodash.dropRightWhile p l).
Proof.
  intros H. unfold Lodash.dropRightWhile.
  apply Forall_rev_list, Forall_dropWhile, Forall_rev_list. exact H.
Qed.

End Lines.

Section MergeKeeps.

Local Abbreviation no_break := (fun s : string => ~ In Text.NL (Text.chars s)).
Local Abbreviation nonblank := (fun s : string => negb (Text.isEmpty s)).
Local Abbreviation dw := (Lodash.dropWhile Text.isEmpty).
Local Abbreviation dr := (Lodash.dropRightWhile Text.isEmpty).

Lemma merge_lines_filter (head mid tail : list string) :
  List.filter nonblank (fold_left Changelog.merge_step [head; mid; tail] [])
  = List.filter nonblank head ++ List.filter nonblank mid ++ List.filter nonblank tail.
Proof.
  rewrite fold_merge_shape.
  assert (HX : List.filter nonblank (ChangelogSpec.glue (dr (dw head)) (dr (dw mid)))
               = List.filter nonblank head ++ List.filter nonblank mid).
  { rewrite filter_glue, !filter_dropRightWhile, !filter_dropWhile. reflexivity. }
  destruct (ChangelogSpec.glue (dr (dw head)) (dr (dw mid))) as [|x X].
  - simpl in HX. symmetry in HX. apply app_eq_nil in HX. destruct HX as [-> ->].
    simpl. apply filter_dropWhile.
  - rewrite !List.filter_app, HX, filter_dropWhile. simpl.
    rewrite <- app_assoc. reflexivity.
Qed.

Lemma merge_lines_no_break (head mid tail : list string) :
  Forall no_break head -> Forall no_break mid -> Forall no_break tail ->
  Forall no_break (fold_left Changelog.merge_step [head; mid; tail] []).
Proof.
  intros Hh Hm Ht. rewrite fold_merge_shape.
  assert (He : Forall no_break [EmptyString]) by (constructor; [intros []|constructor]).
  assert (HX : Forall no_break (ChangelogSpec.glue (dr (dw head)) (dr (dw mid)))).
  { pose proof (Forall_dropRightWhile _ Text.isEmpty _
                  (Forall_dropWhile _ Text.isEmpty _ Hh)) as H1.
    pose proof (Forall_dropRightWhile _ Text.isEmpty _
                  (Forall_dropWhile _ Text.isEmpty _ Hm)) as H2.
    unfold ChangelogSpec.glue.
    destruct (dr (dw head)) as [|a A]; [exact H2|].
    destruct (dr (dw mid)) as [|b B]; [exact H1|].
    apply Forall_app. split; [exact H1|]. apply Forall_app. split; [exact He|exact H2]. }
  pose proof (Forall_dropWhile _ Text.isEmpty _ Ht) as HT.
  destruct (ChangelogSpec.glue (dr (dw head)) (dr (dw mid))) as [|x X]; [exact HT|].
  apply Forall_app. split; [exact HX|]. apply Forall_app. split; [exact He|exact HT].
Qed.

Lemma split_join_filter (l : list string) :
  Forall no_break l ->
  List.filter nonblank (Text.split_lines (Text.join_lines l)) = List.filter nonblank l.
Proof.
  intros Hl. destruct l as [|x l]; [reflexivity|].
  rewrite split_join_lines by (discriminate || exact Hl). reflexivity.
Qed.

End MergeKeeps.

(** X8. Whatever the index, the merge adds and removes blank lines only:
    the non-blank lines of the output are those of the existing lines
    before the cut, then those of the entry, then those of the existing
    lines from the cut, in their order. A negative index cuts that many
    lines from the end, an index beyond the end cuts at the end. *)
Theorem mergeEntry_keeps_lines (contents entry : string) (fromLine : Z) :
  let lines := Text.split_lines contents in
  let j := Z.to_nat (Lodash.clamp_index (Z.of_nat (length lines)) fromLine) in
  let nonblank := fun s => negb (Text.isEmpty s) in
  List.filter nonblank (Text.split_lines (Changelog.mergeEntry contents entry fromLine))
  = List.filter nonblank (firstn j lines)
      ++ List.filter nonblank (Text.split_lines entry)
      ++ List.filter nonblank (skipn j lines).
Proof.
  intros lines j nonblank. unfold Changelog.mergeEntry. fold lines.
  destruct (slice_cut lines fromLine) as [Hhead Htail]. fold j in Hhead, Htail.
  rewrite Hhead, Htail.
  pose proof (split_lines_no_break contents) as Hlines. fold lines in Hlines.
  rewrite split_join_filter.
  - apply merge_lines_filter.
  - apply merge_lines_no_break.
    + apply Forall_take. exact Hlines.
    + apply split_lines_no_break.
    + apply Forall_drop. exact Hlines.
Qed.

(** X9. On a file that is missing or empty, [prepend] writes the entry
    without its leading and trailing blank lines, followed by one line
    break (nothing for a blank entry), whatever the index, and calls back
    without error. *)
Theorem prepend_missing_file (fromLine : option Z) (file entry : string) (w : world)
  (Hempty : default EmptyString (files w !! file) = EmptyString) :
  let trimmed :=
    Lodash.dropRightWhile Text.isEmpty
      (Lodash.dropWhile Text.isEmpty (Text.split_lines entry)) in
  let r := Changelog.prepend fromLine file entry w in
  snd r = Called None
  /\ files (fst r)
     = <[file := Text.join_lines match trimmed with
                                 | [] => []
                                 | _ => trimmed ++ [EmptyString]
                                 end]> (files w).
Proof.
  intros trimmed r.
  assert (Hmerge : forall i, Changelog.mergeEntry EmptyString entry i
            = Text.join_lines match trimmed with
                              | [] => []
                              | _ => trimmed ++ [EmptyString]
                              end).
  { intros i. unfold Changelog.mergeEntry. rewrite fold_merge_shape.
    destruct (slice_cut (Text.split_lines EmptyString) i) as [Hh Ht].
    rewrite Hh, Ht. simpl Text.split_lines. simpl length.
    assert (Hj : Z.to_nat (Lodash.clamp_index (Z.of_nat 1) i) = 0%nat
                 \/ Z.to_nat (Lodash.clamp_index (Z.of_nat 1) i) = 1%nat).
    { unfold Lodash.clamp_index. destruct (Z.ltb_spec i 0); lia. }
    fold trimmed.
    destruct Hj as [-> | ->]; simpl firstn; simpl skipn;
      replace (Lodash.dropRightWhile Text.isEmpty (Lodash.dropWhile Text.isEmpty []))
        with (@nil string) by reflexivity;
      try replace (Lodash.dropRightWhile Text.isEmpty
                     (Lodash.dropWhile Text.isEmpty [EmptyString]))
        with (@nil string) by reflexivity;
      try replace (Lodash.dropWhile Text.isEmpty [EmptyString])
        with (@nil string) by reflexivity;
      try replace (Lodash.dropWhile Text.isEmpty (@nil string))
        with (@nil string) by reflexivity;
      unfold ChangelogSpec.glue; destruct trimmed; reflexivity. }
  unfold r, Changelog.prepend, Fs.touch, Fs.readFile, Fs.writeFile, Fs.log.
  destruct (files w !! file) as [c|] eqn:Hfile; cbn [files].
  - simpl in Hempty. subst c. rewrite Hfile. cbn [fst snd files].
    rewrite Hmerge. split; reflexivity.
  - rewrite lookup_insert_eq. cbn [fst snd files].
    rewrite Hmerge, insert_insert_eq. split; reflexivity.
Qed.

Lemma prepend_missing_file_witness :
  files (fst (Changelog.prepend None "CHANGELOG.md" Demo.changelog_entry (World ∅ [])))
  !! "CHANGELOG.md"
  = Some (Demo.line "## 1.1.0" +:+ Demo.line EmptyString +:+ Demo.line "bar").
Proof.
  destruct (prepend_missing_file None "CHANGELOG.md" Demo.changelog_entry (World ∅ []))
    as [_ Hfiles].
  - reflexivity.
  - rewrite Hfiles. rewrite lookup_insert_eq. vm_compute. reflexivity.
Defined.

(** X10. Merging an empty entry at line 0 only removes the blank lines
    at the top: a document whose first line is not blank comes back
    unchanged. *)
Theorem mergeEntry_empty_entry (contents : string) (first : string) (others : list string)
  (Hfirst : Text.split_lines contents = first :: others)
  (Hnonblank : Text.isEmpty first = false) :
  Changelog.mergeEntry contents EmptyString 0 = contents.
Proof.
  unfold Changelog.mergeEntry. rewrite fold_merge_shape.
  change (Lodash.slice (Text.split_lines contents) 0 0)
    with (Lodash.slice (Text.split_lines contents) 0 (Z.of_nat 0)).
  change (Lodash.slice_from (Text.split_lines contents) 0)
    with (Lodash.slice_from (Text.split_lines contents) (Z.of_nat 0)).
  rewrite slice_head, slice_tail. simpl firstn. simpl skipn.
  replace (ChangelogSpec.glue
             (Lodash.dropRightWhile Text.isEmpty (Lodash.dropWhile Text.isEmpty []))
             (Lodash.dropRightWhile Text.isEmpty
                (Lodash.dropWhile Text.isEmpty (Text.split_lines EmptyString))))
    with (@nil string) by reflexivity.
  rewrite Hfirst. simpl Lodash.dropWhile. rewrite Hnonblank.
  rewrite <- Hfirst. apply join_split_lines.
Qed.

Lemma mergeEntry_empty_entry_witness :
  Changelog.mergeEntry Demo.changelog_existing EmptyString 0 = Demo.changelog_existing.
Proof.
  apply (mergeEntry_empty_entry Demo.changelog_existing "## 1.0.0"
           [EmptyString; "foo"; EmptyString]); reflexivity.
Defined.

(** ** The private replace and the cleaning function, for any pattern *)

Section ReplaceAny.

Import Regex.

(** What [exec] reports is a piece of the text at the reported index. *)
Lemma match_at_sound (R : RegExp) (S : list ascii) (i : nat) (m : match_result) :
  (i <= length S)%nat -> match_at R S i = Some m ->
  index m = i /\ S = firstn i S ++ matched m ++ skipn (i + length (matched m)) S.
Proof.
  intros Hi. unfold match_at.
  destruct (rmatch (flags_of R) (source R) (start_state S i)) as [|s' others] eqn:Hr;
    [discriminate|].
  intros [= <-]. cbn [index matched].
  destruct (rmatch_extends (flags_of R) (source R) (start_state S i) s') as [mid Hmid].
  { rewrite Hr. left. reflexivity. }
  destruct (start_state_extends _ _ _ _ Hi Hmid) as [Hmatched Hsplit].
  rewrite Hmatched. split; [reflexivity|exact Hsplit].
Qed.

Lemma substitute_empty (S : list ascii) (m : match_result) : substitute S m [] = [].
Proof. reflexivity. Qed.

(** With an empty replacement the assembled text is a subsequence of the
    text. *)
Lemma assemble_sublist (S : list ascii) (ms : list match_result) (n : nat) :
  assemble S [] ms n `sublist_of` skipn n S.
Proof.
  revert n. induction ms as [|m ms IH]; intros n; simpl; [reflexivity|].
  destruct (Nat.leb_spec n (index m)) as [Hle|_]; [|apply IH].
  rewrite <- (firstn_skipn (index m - n) (skipn n S)) at 2.
  apply sublist_app; [reflexivity|].
  rewrite skipn_skipn. replace (index m - n + n)%nat with (index m) by lia.
  etransitivity; [apply IH|].
  rewrite Nat.add_comm, <- skipn_skipn. apply sublist_drop.
Qed.

Lemma replace_sublist (S : list ascii) (R : RegExp) :
  snd (Regex.replace S R []) `sublist_of` S.
Proof.
  unfold Regex.replace.
  destruct (global (flags_of R)).
  - destruct (collect (length S + 2) (with_lastIndex 0 R) S) as [R' ms]. simpl.
    apply (assemble_sublist S ms 0).
  - destruct (exec R S) as [R' [m|]]; simpl.
    + apply (assemble_sublist S [m] 0).
    + reflexivity.
Qed.

(** A pattern that finds nothing leaves the text as it is. *)
Lemma replace_no_match (S template : list ascii) (r : regex) (fl : flags) :
  snd (exec (fresh r fl) S) = None ->
  snd (Regex.replace S (fresh r fl) template) = S.
Proof.
  intros Hnone. unfold Regex.replace.
  change (with_lastIndex 0 (fresh r fl)) with (fresh r fl).
  destruct (global (flags_of (fresh r fl))).
  - replace (length S + 2)%nat with (Datatypes.S (length S + 1)) by lia. simpl collect.
    destruct (exec (fresh r fl) S) as [R' [m|]]; [discriminate|]. reflexivity.
  - destruct (exec (fresh r fl) S) as [R' [m|]]; [discriminate|]. reflexivity.
Qed.

End ReplaceAny.

(** X11. On a file of ASCII text, for any pattern without the [g] and
    [y] flags and any ASCII replacement template, a successful [replace]
    rewrites the leftmost match only: the text before and after it is
    kept, the match is replaced by the expanded template, and no other
    file changes. *)
Theorem replace_keeps_outside (file template contents : string) (R : Regex.RegExp)
  (m : Regex.match_result) (w : world)
  (Hfile : files w !! file = Some contents)
  (Hascii : Text.is_ascii contents = true /\ Text.is_ascii template = true)
  (Hflags : Regex.global (Regex.flags_of R) = false
            /\ Regex.sticky (Regex.flags_of R) = false)
  (Hmatch : snd (Regex.exec R (Text.chars contents)) = Some m) :
  let r := Presets.replace file R template w in
  exists before after,
    Text.chars contents = before ++ Regex.matched m ++ after
    /\ length before = Regex.index m
    /\ (forall j, (j < Regex.index m)%nat ->
          Regex.match_at R (Text.chars contents) j = None)
    /\ snd r = None
    /\ files (fst r)
       = <[file := Text.text (before
                     ++ Regex.substitute (Text.chars contents) m (Text.chars template)
                     ++ after)]> (files w)
    /\ (forall other, other <> file -> files (fst r) !! other = files w !! other).
Proof.
  intros r. destruct Hflags as [Hg Hy].
  assert (Hsearch : Regex.search R (Text.chars contents)
                      (length (Text.chars contents) + 1) 0 = Some m).
  { rewrite (exec_plain R _ Hg Hy) in Hmatch. exact Hmatch. }
  destruct (search_found _ _ _ _ _ Hsearch) as (i & Hi & Hat & Hleft).
  assert (Hile : (i <= length (Text.chars contents))%nat) by lia.
  destruct (match_at_sound _ _ _ _ Hile Hat) as [Hidx Hsplit].
  assert (Hr : r = (Fs.writeFile file
                      (Text.text (snd (Regex.replace (Text.chars contents) R
                                         (Text.chars template))))
                      (Fs.log (EvRead file) w), None)).
  { unfold r. rewrite (replace_present file R template contents w Hfile Hg Hy).
    rewrite Hmatch. reflexivity. }
  exists (firstn i (Text.chars contents)),
    (skipn (i + length (Regex.matched m)) (Text.chars contents)).
  split; [exact Hsplit|]. split; [rewrite length_firstn; lia|].
  split; [intros j Hj; apply Hleft; lia|].
  rewrite Hr. cbn [fst snd]. split; [reflexivity|].
  assert (Hfiles : files (Fs.writeFile file
                      (Text.text (snd (Regex.replace (Text.chars contents) R
                                         (Text.chars template))))
                      (Fs.log (EvRead file) w))
          = <[file := Text.text (firstn i (Text.chars contents)
                        ++ Regex.substitute (Text.chars contents) m (Text.chars template)
                        ++ skipn (i + length (Regex.matched m)) (Text.chars contents))]>
              (files w)).
  { unfold Fs.writeFile, Fs.log. cbn [files].
    rewrite (replace_plain R _ _ Hg Hy), Hsearch, Hidx. reflexivity. }
  split; [exact Hfiles|].
  intros other Hother. rewrite Hfiles. apply lookup_insert_ne. congruence.
Qed.

Lemma replace_keeps_outside_witness :
  files (fst (Presets.replace "p/v.h"
                (Regex.fresh (Presets.combined_source Demo.version_prefix) Presets.flag_m)
                (Presets.version_template "1.1.0")
                (World {[ "p/v.h" := Demo.two_versions ]} [])))
  !! "p/v.h" = Some Demo.two_versions_updated.
Proof.
  edestruct (replace_keeps_outside "p/v.h" (Presets.version_template "1.1.0")
               Demo.two_versions
               (Regex.fresh (Presets.combined_source Demo.version_prefix) Presets.flag_m))
    with (w := World {[ "p/v.h" := Demo.two_versions ]} [])
    as (before & after & _ & _ & _ & _ & Hfiles & _).
  - apply lookup_singleton_eq.
  - split; vm_compute; reflexivity.
  - split; reflexivity.
  - vm_compute. reflexivity.
  - vm_compute. reflexivity.
Defined.

(** X12. Cleaning a version with a RegExp always gives a string, and
    that string is a subsequence of the version: characters are removed,
    never added or reordered, whatever the pattern and its flags; a fresh
    pattern that finds nothing gives the version back. *)
Theorem clean_pattern_subsequence (E : Presets.env) (R : Regex.RegExp) (version : string) :
  (exists cleaned,
     Presets.getCleanFunction E (Some (Presets.CleanPattern R)) version = Some cleaned
     /\ Text.chars cleaned `sublist_of` Text.chars version)
  /\ (Regex.lastIndex R = 0%nat ->
      snd (Regex.exec R (Text.chars version)) = None ->
      Presets.getCleanFunction E (Some (Presets.CleanPattern R)) version = Some version).
Proof.
  change (Presets.getCleanFunction E (Some (Presets.CleanPattern R)) version)
    with (Some (Text.text (snd (Regex.replace (Text.chars version) R [])))).
  split.
  - eexists. split; [reflexivity|]. rewrite text_chars. apply replace_sublist.
  - intros Hfresh Hnone. destruct R as [r fl li]. simpl in Hfresh. subst li.
    rewrite (replace_no_match _ _ r fl Hnone). rewrite chars_text. reflexivity.
Qed.

(** ** The flags of the combined pattern *)

Section CombinedFlags.

Import Regex.














End CombinedFlags.



(** X14. On a target file that does not exist the private replace hands
    the ENOENT error of the read to its callback and creates nothing;
    [quoted] with a valid configuration reports that error. *)
Theorem replace_missing_file (file template : string) (R : Regex.RegExp) (w : world)
  (Hmissing : files w !! file = None) :
  Presets.replace file R template w = (Fs.log (EvRead file) w, Some (Fs.ENOENT file))
  /\ files (fst (Presets.replace file R template w)) = files w
  /\ (forall E options cwd version v f Rin fl,
        Presets.config_ok E options = true ->
        Presets.file options = Some f ->
        Presets.regex_opt options = Some Rin ->
        Presets.usable (Presets.getCleanFunction E (Presets.clean_opt options) version)
        = Some v ->
        Regex.parse_flags
          (Presets.uniqBy (Regex.flags_string (Regex.flags_of Rin)
                             ++ Text.chars (default EmptyString (Presets.regexFlags options))))
        = Some fl ->
        Presets.path_join E [cwd; default "." (Presets.baseDir options); f] = file ->
        Presets.quoted E options cwd version w
        = (Fs.log (EvRead file) w, Called (Some (Fs.ENOENT file)))).
Proof.
  assert (Hrep : forall R0 t, Presets.replace file R0 t w
                              = (Fs.log (EvRead file) w, Some (Fs.ENOENT file))).
  { intros R0 t. unfold Presets.replace, Fs.readFile. rewrite Hmissing. reflexivity. }
  split; [apply Hrep|]. split; [rewrite Hrep; reflexivity|].
  intros E options cwd version v f Rin fl Hok Hf HR Hv Hfl Hpath.
  rewrite (quoted_runs_replace E options cwd version v f Rin fl w Hok Hf HR Hv Hfl).
  rewrite Hpath, Hrep. reflexivity.
Qed.

Lemma replace_missing_file_witness :
  Presets.quoted Demo.env Demo.version_options "p" "1.1.0" (World ∅ [])
  = (World ∅ [EvRead "p/v.h"], Called (Some (Fs.ENOENT "p/v.h"))).
Proof.
  destruct (replace_missing_file "p/v.h" EmptyString
              (Regex.fresh Regex.Eps Regex.no_flags) (World ∅ []))
    as (_ & _ & Hquoted); [reflexivity|].
  apply (Hquoted Demo.env Demo.version_options "p" "1.1.0" "1.1.0" "v.h"
           (Regex.fresh Demo.version_prefix Presets.flag_m) Presets.flag_m);
    reflexivity.
Defined.

(** X15. Without a lock file [cargo] only looks for it: the lock file is
    neither read nor created, and the outcome is that of the manifest
    update alone. *)
Theorem cargo_without_lock (E : Presets.env) (clean : option Presets.clean_option)
  (cwd version v toml : string) (m : Regex.match_result) (w : world)
  (Hv : Presets.usable (Presets.getCleanFunction E clean version) = Some v)
  (Htoml : files w !! Presets.path_join E [cwd; "Cargo.toml"] = Some toml)
  (Hlock : files w !! Presets.path_join E [cwd; "Cargo.lock"] = None)
  (Hname : snd (Regex.exec (Regex.fresh Presets.package_name_pattern Presets.flag_m)
                  (Text.chars toml)) = Some m) :
  let cargoToml := Presets.path_join E [cwd; "Cargo.toml"] in
  let cargoLock := Presets.path_join E [cwd; "Cargo.lock"] in
  let w2 := Fs.log (EvExists cargoLock) (Fs.log (EvRead cargoToml) w) in
  let step := Presets.replace cargoToml
                (Regex.fresh Presets.package_version_pattern Presets.flag_m)
                (Presets.version_template v) w2 in
  Presets.cargo E clean cwd version w = (fst step, Called (snd step))
  /\ files (fst (Presets.cargo E clean cwd version w)) !! cargoLock = None
  /\ exists written,
       trace (fst (Presets.cargo E clean cwd version w))
       = trace w ++ [EvRead cargoToml; EvExists cargoLock; EvRead cargoToml] ++ written
       /\ (written = [] \/ exists t, written = [EvWrite cargoToml t]).
Proof.
  intros cargoToml cargoLock w2 step.
  assert (Hne : cargoToml <> cargoLock).
  { unfold cargoToml, cargoLock. intros Heq. rewrite Heq in Htoml. congruence. }
  assert (Hcargo : Presets.cargo E clean cwd version w = (fst step, Called (snd step))).
  { unfold Presets.cargo. rewrite Hv. unfold Fs.readFile at 1. rewrite Htoml, Hname.
    unfold Fs.existsSync. rewrite files_log, Hlock.
    rewrite bool_decide_eq_false_2 by (intros [? ?]; discriminate).
    fold cargoToml cargoLock w2. fold step. destruct step. reflexivity. }
  rewrite Hcargo. cbn [fst].
  assert (Hstep : step = match snd (Regex.exec
                                (Regex.fresh Presets.package_version_pattern Presets.flag_m)
                                (Text.chars toml)) with
                         | None => (Fs.log (EvRead cargoToml) w2,
                                    Some (JsError None ("Pattern does not match " +:+ cargoToml)))
                         | Some _ =>
                             (Fs.writeFile cargoToml
                                (Text.text (snd (Regex.replace (Text.chars toml)
                                   (Regex.fresh Presets.package_version_pattern Presets.flag_m)
                                   (Text.chars (Presets.version_template v)))))
                                (Fs.log (EvRead cargoToml) w2), None)
                         end).
  { unfold step. apply replace_present; [exact Htoml|reflexivity|reflexivity]. }
  split; [reflexivity|]. split.
  - rewrite Hstep. destruct (snd (Regex.exec (Regex.fresh Presets.package_version_pattern Presets.flag_m)
                     (Text.chars toml))); cbn [fst].
    + unfold Fs.writeFile, w2, Fs.log. cbn [files].
      rewrite lookup_insert_ne by exact Hne. exact Hlock.
    + exact Hlock.
  - rewrite Hstep. destruct (snd (Regex.exec (Regex.fresh Presets.package_version_pattern Presets.flag_m)
                     (Text.chars toml))); cbn [fst].
    + eexists. split; [|right; eexists; reflexivity].
      unfold Fs.writeFile, w2, Fs.log. cbn [trace]. rewrite <- !app_assoc. reflexivity.
    + exists []. split; [|left; reflexivity].
      unfold w2, Fs.log. cbn [trace]. rewrite <- !app_assoc. reflexivity.
Qed.

Lemma cargo_without_lock_witness :
  let w := World {[ "p/Cargo.toml" := Demo.cargo_toml ]} [] in
  files (fst (Presets.cargo Demo.env None "p" "0.2.0" w)) !! "p/Cargo.lock" = None.
Proof.
  intros w.
  edestruct (cargo_without_lock Demo.env None "p" "0.2.0" "0.2.0" Demo.cargo_toml)
    with (w := w) as (_ & Hlock & _).
  - vm_compute. reflexivity.
  - vm_compute. reflexivity.
  - vm_compute. reflexivity.
  - vm_compute. reflexivity.
  - exact Hlock.
Defined.

(** ** Literals and runs *)

Section Literals.

Import Regex.

Variable fl : flags.
Hypothesis Hcase : ignoreCase fl = false.

Lemma in_rmatch_seq (a b : regex) (s s' : mstate) :
  In s' (rmatch fl (Seq a b) s) <->
  exists s1, In s1 (rmatch fl a s) /\ In s' (rmatch fl b s1).
Proof. cbn [rmatch]. apply in_flat_map. Qed.

Lemma in_rmatch_char (c : ascii) (s s' : mstate) :
  In s' (rmatch fl (Atom (AChar c)) s) -> extends s s' [c] /\ caps s' = caps s.
Proof.
  cbn [rmatch]. destruct (rest s) as [|x t] eqn:Hrest; [intros []|].
  unfold atom_test, canon. rewrite Hcase.
  destruct (Ascii.eqb_spec c x) as [->|_]; [|intros []].
  intros [<-|[]]. split; [|reflexivity]. split; [reflexivity|exact Hrest].
Qed.

(** A literal matches its own text and nothing else. *)
Lemma in_rmatch_lit (str : string) (s s' : mstate) :
  In s' (rmatch fl (Lit str) s) -> extends s s' (Text.chars str) /\ caps s' = caps s.
Proof.
  unfold Lit. revert s. induction (Text.chars str) as [|c l IH]; intros s.
  - simpl. intros [<-|[]]. split; [apply extends_refl|reflexivity].
  - cbn [fold_right]. rewrite in_rmatch_seq. intros (s1 & H1 & H2).
    destruct (in_rmatch_char _ _ _ H1) as [He1 Hc1].
    destruct (IH _ H2) as [He2 Hc2]. split.
    + apply (extends_trans _ _ _ [c] l He1 He2).
    + rewrite Hc2. exact Hc1.
Qed.

(** A repetition of one atom consumes characters the atom accepts. *)
Lemma in_rmatch_run (greedy : bool) (a : atom) (s s' : mstate) :
  In s' (rmatch fl (Star greedy (Atom a)) s) ->
  exists mid, extends s s' mid /\ Forall (fun c => atom_test fl a c = true) mid
              /\ caps s' = caps s.
Proof.
  cbn [rmatch groups_of].
  apply (star_loop_rel
           (fun x y => exists mid, extends x y mid
                                   /\ Forall (fun c => atom_test fl a c = true) mid
                                   /\ caps y = caps x)).
  - intros x. exists []. split; [apply extends_refl|]. split; [constructor|reflexivity].
  - intros x y z (m1 & He1 & Hf1 & Hc1) (m2 & He2 & Hf2 & Hc2).
    exists (m1 ++ m2). split; [apply (extends_trans _ y); assumption|].
    split; [apply Forall_app; split; assumption|]. rewrite Hc2. exact Hc1.
  - intros x y. cbn [clear_caps fold_right consumed rest caps].
    destruct (rest x) as [|c t] eqn:Hrest; [intros []|].
    destruct (atom_test fl a c) eqn:Htest; [|intros []].
    intros [<-|[]]. exists [c]. split; [split; [reflexivity|exact Hrest]|].
    split; [repeat constructor; exact Htest|reflexivity].
Qed.

Lemma in_rmatch_group (n : nat) (r : regex) (s s' : mstate) :
  In s' (rmatch fl (Group n r) s) ->
  exists s1 mid, In s1 (rmatch fl r s) /\ extends s s1 mid
                 /\ extends s s' mid /\ caps s' = <[n := mid]> (caps s1).
Proof.
  cbn [rmatch]. rewrite in_map_iff. intros (s1 & <- & H1).
  destruct (rmatch_extends fl _ _ _ H1) as [mid Hmid].
  exists s1, mid. split; [exact H1|]. split; [exact Hmid|]. split; [exact Hmid|].
  cbn [caps]. rewrite (extends_taken _ _ _ Hmid). reflexivity.
Qed.

End Literals.

Section HeadLiteral.

Import Regex.

Lemma search_all_none (R : RegExp) (S : list ascii) (fuel i0 : nat) :
  (forall j, (i0 <= j < i0 + fuel)%nat -> match_at R S j = None) ->
  search R S fuel i0 = None.
Proof.
  revert i0. induction fuel as [|fuel IH]; intros i0 H; simpl; [reflexivity|].
  rewrite (H i0) by lia. apply IH. intros j Hj. apply H. lia.
Qed.

(** A pattern that begins with a literal matches only where the text
    has that literal. *)
Lemma match_at_head_literal (R : RegExp) (str : string) (tail : regex)
  (S : list ascii) (i : nat) :
  source R = Seq (Lit str) tail -> ignoreCase (flags_of R) = false ->
  (forall pre post, S <> pre ++ Text.chars str ++ post) ->
  match_at R S i = None.
Proof.
  intros Hsrc Hcase Habsent. unfold match_at.
  destruct (rmatch (flags_of R) (source R) (start_state S i)) as [|s' l] eqn:Hm;
    [reflexivity|].
  exfalso.
  assert (Hin : In s' (rmatch (flags_of R) (source R) (start_state S i)))
    by (rewrite Hm; left; reflexivity).
  rewrite Hsrc in Hin. apply in_rmatch_seq in Hin. destruct Hin as (s1 & H1 & _).
  destruct (in_rmatch_lit _ Hcase _ _ _ H1) as [[_ Hrest] _].
  cbn [start_state rest] in Hrest.
  apply (Habsent (firstn i S) (rest s1)).
  rewrite <- Hrest. symmetry. apply firstn_skipn.
Qed.

End HeadLiteral.

(** X16. [updateVersion.cargo] with a usable version and a bad manifest:
    when Cargo.toml is missing the callback gets the ENOENT error of the
    read; when its text nowhere contains the [package] header the
    callback gets the error Package name not found in the manifest path.
    In both cases the only I/O is the one read of the manifest: the lock
    file is not looked at and nothing is written. *)
Theorem cargo_bad_manifest (E : Presets.env) (clean : option Presets.clean_option)
  (cwd version v : string) (w : world)
  (Hv : Presets.usable (Presets.getCleanFunction E clean version) = Some v) :
  let cargoToml := Presets.path_join E [cwd; "Cargo.toml"] in
  (files w !! cargoToml = None ->
   Presets.cargo E clean cwd version w
   = (Fs.log (EvRead cargoToml) w, Called (Some (Fs.ENOENT cargoToml))))
  /\ (forall contents,
        files w !! cargoToml = Some contents ->
        (forall pre post,
            Text.chars contents <> pre ++ Text.chars "[package]" ++ post) ->
        Presets.cargo E clean cwd version w
        = (Fs.log (EvRead cargoToml) w,
           Called (Some (JsError None ("Package name not found in " +:+ cargoToml))))).
Proof.
  intros cargoToml. split.
  - intros Hmissing. unfold Presets.cargo. rewrite Hv.
    fold cargoToml. unfold Fs.readFile. rewrite Hmissing. reflexivity.
  - intros contents Hfile Habsent. unfold Presets.cargo. rewrite Hv.
    fold cargoToml. unfold Fs.readFile. rewrite Hfile.
    rewrite exec_plain by reflexivity. cbn [snd].
    rewrite search_all_none; [reflexivity|].
    intros j _.
    apply (match_at_head_literal
             (Regex.fresh Presets.package_name_pattern Presets.flag_m) "[package]"
             _ _ _ eq_refl eq_refl Habsent).
Qed.

Lemma cargo_bad_manifest_witness :
  Presets.cargo Demo.env None "p" "0.2.0" (World {[ "p/Cargo.toml" := "name = 'x'" ]} [])
  = (World {[ "p/Cargo.toml" := "name = 'x'" ]} [EvRead "p/Cargo.toml"],
     Called (Some (JsError None "Package name not found in p/Cargo.toml"))).
Proof.
  refine (proj2 (cargo_bad_manifest Demo.env None "p" "0.2.0" "0.2.0"
                   (World {[ "p/Cargo.toml" := "name = 'x'" ]} []) _)
            "name = 'x'" _ _).
  - vm_compute. reflexivity.
  - vm_compute. reflexivity.
  - intros pre post H. cbv in H.
    do 10 (destruct pre as [|? pre]; [discriminate H|]; injection H as _ H).
    destruct pre; discriminate H.
Defined.

(** ** Angular commit subjects *)

Section AngularSubject.

Import Regex.

Lemma extends_unique (s s' : mstate) (a b : list ascii) :
  extends s s' a -> extends s s' b -> a = b.
Proof.
  intros [_ Ha] [_ Hb]. rewrite Ha in Hb. apply app_inv_tail in Hb. exact Hb.
Qed.

Lemma in_rmatch_optional (r : regex) (s s' : mstate) :
  In s' (rmatch no_flags (Angular.optional r) s) -> In s' (rmatch no_flags r s) \/ s' = s.
Proof.
  unfold Angular.optional. cbn [rmatch]. rewrite in_app_iff.
  intros [H|[<-|[]]]; [left; exact H|right; reflexivity].
Qed.

Lemma in_rmatch_group_run (n : nat) (g : bool) (a : atom) (s s' : mstate) :
  In s' (rmatch no_flags (Group n (Star g (Atom a))) s) ->
  exists mid, extends s s' mid /\ Forall (fun c => atom_test no_flags a c = true) mid
              /\ caps s' = <[n := mid]> (caps s).
Proof.
  intros H. apply (in_rmatch_group no_flags) in H.
  destruct H as (s1 & mid & H1 & He1 & He & Hc).
  apply (in_rmatch_run no_flags) in H1. destruct H1 as (mid' & He1' & Hf & Hc1).
  rewrite (extends_unique _ _ _ _ He1 He1') in He, Hc.
  exists mid'. split; [exact He|]. split; [exact Hf|]. rewrite Hc, Hc1. reflexivity.
Qed.

(** The fixup marker: the literal followed by white space. *)
Lemma in_rmatch_fixup (s s' : mstate) :
  In s' (rmatch no_flags Angular.fixup s) ->
  exists ws, extends s s' (Text.chars "fixup!" ++ ws)
             /\ Forall (fun c => Text.is_space c = true) ws /\ caps s' = caps s.
Proof.
  unfold Angular.fixup. rewrite in_rmatch_seq. intros (s1 & H1 & H2).
  destruct (in_rmatch_lit no_flags eq_refl _ _ _ H1) as [He1 Hc1].
  apply (in_rmatch_run no_flags) in H2. destruct H2 as (ws & He2 & Hf & Hc2).
  exists ws. split; [apply (extends_trans _ s1); assumption|].
  split; [|rewrite Hc2; exact Hc1].
  eapply List.Forall_impl; [|exact Hf]. intros c Hc. cbn in Hc.
  rewrite orb_false_r in Hc. exact Hc.
Qed.

Lemma in_rmatch_scope (s s' : mstate) :
  In s' (rmatch no_flags Angular.scope_group s) ->
  exists sc, extends s s' ("("%char :: sc ++ [")"%char])
             /\ Forall (fun c => class_mem Angular.scope_items c = true) sc
             /\ caps s' !! 3%nat = Some sc
             /\ caps s' !! 1%nat = caps s !! 1%nat.
Proof.
  unfold Angular.scope_group. intros H. apply (in_rmatch_group no_flags) in H.
  destruct H as (s3 & mid & H3 & He3 & He & Hc).
  rewrite in_rmatch_seq in H3. destruct H3 as (s1 & H1 & H3).
  rewrite in_rmatch_seq in H3. destruct H3 as (s2 & H2 & H3).
  destruct (in_rmatch_char no_flags eq_refl _ _ _ H1) as [He1 Hc1].
  apply in_rmatch_group_run in H2. destruct H2 as (sc & He2 & Hf & Hc2).
  destruct (in_rmatch_char no_flags eq_refl _ _ _ H3) as [He3' Hc3].
  assert (He' : extends s s3 ("("%char :: sc ++ [")"%char])).
  { apply (extends_trans _ s1 _ ["("%char]); [exact He1|].
    apply (extends_trans _ s2); assumption. }
  rewrite (extends_unique _ _ _ _ He3 He') in He, Hc.
  exists sc. split; [exact He|]. split; [exact Hf|].
  rewrite Hc, Hc3, Hc2, Hc1. split.
  - rewrite lookup_insert_ne by lia. apply lookup_insert_eq.
  - rewrite !lookup_insert_ne by lia. reflexivity.
Qed.

(** Every way the subject pattern matches splits the whole subject. *)
Lemma subject_pattern_split (S : list ascii) (i : nat) (s' : mstate) :
  In s' (rmatch no_flags Angular.subject_pattern (start_state S i)) ->
  exists marker t sct tail,
    S = marker ++ t ++ sct ++ Text.chars ": " ++ tail
    /\ (marker = [] \/
        exists ws, marker = Text.chars "fixup!" ++ ws
                   /\ Forall (fun c => Text.is_space c = true) ws)
    /\ Forall (fun c => class_mem [CWord] c = true) t
    /\ caps s' !! 1%nat = Some t
    /\ (sct = [] /\ caps s' !! 3%nat = None \/
        exists sc, sct = "("%char :: sc ++ [")"%char]
                   /\ Forall (fun c => class_mem Angular.scope_items c = true) sc
                   /\ caps s' !! 3%nat = Some sc)
    /\ Forall (fun c => is_line_terminator c = false) tail
    /\ caps s' !! 4%nat = Some tail.
Proof.
  unfold Angular.subject_pattern.
  rewrite in_rmatch_seq. intros (s0 & H0 & H).
  rewrite in_rmatch_seq in H. destruct H as (s1 & H1 & H).
  rewrite in_rmatch_seq in H. destruct H as (s2 & H2 & H).
  rewrite in_rmatch_seq in H. destruct H as (s3 & H3 & H).
  rewrite in_rmatch_seq in H. destruct H as (s4 & H4 & H).
  rewrite in_rmatch_seq in H. destruct H as (s5 & H5 & H6).
  (* start of text *)
  cbn [rmatch] in H0. unfold at_bol in H0. cbn [start_state consumed] in H0.
  destruct (rev (firstn i S)) as [|c l] eqn:Hrev; [|destruct H0].
  destruct H0 as [<-|[]].
  assert (Hstart : start_state S i = MState [] S ∅).
  { unfold start_state. rewrite Hrev. f_equal.
    apply (f_equal (@rev ascii)) in Hrev. rewrite rev_involutive in Hrev.
    rewrite <- (firstn_skipn i S) at 2. rewrite Hrev. reflexivity. }
  rewrite Hstart in *. clear Hstart Hrev.
  (* the optional marker *)
  assert (Hmarker : exists marker,
             extends (MState [] S ∅) s1 marker /\ caps s1 = ∅
             /\ (marker = [] \/
                 exists ws, marker = Text.chars "fixup!" ++ ws
                            /\ Forall (fun c => Text.is_space c = true) ws)).
  { apply in_rmatch_optional in H1. destruct H1 as [H1| ->].
    - apply in_rmatch_fixup in H1. destruct H1 as (ws & He & Hf & Hc).
      exists (Text.chars "fixup!" ++ ws). split; [exact He|]. split; [exact Hc|].
      right. exists ws. split; [reflexivity|exact Hf].
    - exists []. split; [apply extends_refl|]. split; [reflexivity|]. left. reflexivity. }
  destruct Hmarker as (marker & He1 & Hc1 & Hmarker).
  (* the type *)
  apply in_rmatch_group_run in H2. destruct H2 as (t & He2 & Hf2 & Hc2).
  rewrite Hc1 in Hc2.
  (* the optional scope *)
  assert (Hscope : exists sct,
             extends s2 s3 sct /\ caps s3 !! 1%nat = Some t
             /\ (sct = [] /\ caps s3 !! 3%nat = None \/
                 exists sc, sct = "("%char :: sc ++ [")"%char]
                            /\ Forall (fun c => class_mem Angular.scope_items c = true) sc
                            /\ caps s3 !! 3%nat = Some sc)).
  { apply in_rmatch_optional in H3. destruct H3 as [H3| ->].
    - apply in_rmatch_scope in H3. destruct H3 as (sc & He & Hf & Hc3 & Hc1').
      exists ("("%char :: sc ++ [")"%char]). split; [exact He|]. split.
      + rewrite Hc1', Hc2. apply lookup_insert_eq.
      + right. exists sc. split; [reflexivity|]. split; [exact Hf|exact Hc3].
    - exists []. split; [apply extends_refl|]. rewrite Hc2. split.
      + apply lookup_insert_eq.
      + left. split; [reflexivity|]. rewrite lookup_insert_ne by lia. apply lookup_empty. }
  destruct Hscope as (sct & He3 & Hc3 & Hscope).
  (* the separator, the title and the end of text *)
  destruct (in_rmatch_lit no_flags eq_refl _ _ _ H4) as [He4 Hc4].
  apply in_rmatch_group_run in H5. destruct H5 as (tail & He5 & Hf5 & Hc5).
  cbn [rmatch] in H6. unfold at_eol in H6.
  destruct (rest s5) as [|c l] eqn:Hrest; [|destruct H6].
  destruct H6 as [<-|[]].
  exists marker, t, sct, tail.
  assert (Hall : extends (MState [] S ∅) s5
                   (marker ++ t ++ sct ++ Text.chars ": " ++ tail)).
  { apply (extends_trans _ s1); [exact He1|].
    apply (extends_trans _ s2); [exact He2|].
    apply (extends_trans _ s3); [exact He3|].
    apply (extends_trans _ s4); [exact He4|exact He5]. }
  destruct Hall as [_ Hall]. cbn [rest] in Hall. rewrite Hrest, app_nil_r in Hall.
  split; [exact Hall|]. split; [exact Hmarker|].
  split.
  { eapply List.Forall_impl; [|exact Hf2]. intros c Hc. exact Hc. }
  rewrite Hc5, Hc4.
  split; [rewrite lookup_insert_ne by lia; exact Hc3|].
  split.
  { destruct Hscope as [[-> Hn]|(sc & -> & Hf & Hs)].
    - left. split; [reflexivity|]. rewrite lookup_insert_ne by lia. exact Hn.
    - right. exists sc. split; [reflexivity|]. split; [exact Hf|].
      rewrite lookup_insert_ne by lia. exact Hs. }
  split; [|apply lookup_insert_eq].
  eapply List.Forall_impl; [|exact Hf5]. intros c Hc. cbn in Hc.
  apply negb_true_iff in Hc. exact Hc.
Qed.

End AngularSubject.

Lemma prefix_chars (t s : string) (r : list ascii) :
  Text.chars s = Text.chars t ++ r -> Angular.startsWith s t = true.
Proof.
  unfold Angular.startsWith. revert s. induction t as [|c t IH]; intros s H.
  - destruct s; reflexivity.
  - destruct s as [|c' s]; [discriminate H|].
    unfold Text.chars in *. cbn in H. injection H as -> H.
    cbn. destruct (ascii_dec c c) as [_|Hne]; [|congruence]. apply IH. exact H.
Qed.

(** A parsed type that is a string comes from a match of the subject
    pattern, whose captures are the parts. *)
Lemma subjectParser_matched (subject t : string) :
  Angular.type (Angular.subjectParser subject) = VString t ->
  exists i s' m,
    In s' (Regex.rmatch Regex.no_flags Angular.subject_pattern
             (Regex.start_state (Text.chars subject) i))
    /\ snd (Regex.exec (Regex.fresh Angular.subject_pattern Regex.no_flags)
              (Text.chars subject)) = Some m
    /\ Regex.captures m
       = [Regex.caps s' !! 1%nat; Regex.caps s' !! 2%nat;
          Regex.caps s' !! 3%nat; Regex.caps s' !! 4%nat].
Proof.
  unfold Angular.subjectParser. cbn [Angular.type].
  rewrite exec_plain by reflexivity. cbn [snd].
  destruct (Regex.search (Regex.fresh Angular.subject_pattern Regex.no_flags)
              (Text.chars subject) (length (Text.chars subject) + 1) 0)
    as [m|] eqn:Hsearch; [|discriminate].
  intros _. apply search_found in Hsearch. destruct Hsearch as (i & _ & Hm & _).
  unfold Regex.match_at in Hm.
  destruct (Regex.rmatch _ _ (Regex.start_state (Text.chars subject) i))
    as [|s' l] eqn:Hr; [discriminate Hm|].
  injection Hm as <-.
  exists i, s'. eexists. split; [|split; reflexivity].
  cbn [Regex.fresh Regex.flags_of Regex.source] in Hr. rewrite Hr. left. reflexivity.
Qed.

(** X17. [subjectParser.angular] on a subject of ASCII text: when the
    parsed type is a string, the subject is, in this order, an optional fixup marker (the word fixup
    with an exclamation mark, then white space), the type, an optional
    scope in parentheses, a colon and a space, and the remaining text up
    to the end of the subject. The type holds word characters only, the
    scope holds scope characters only and is undefined when there are no
    parentheses, the remaining text has no line break, and the title is
    the remaining text, or the whole subject when nothing remains. *)
Theorem subjectParser_sound (subject t : string)
  (Hascii : Text.is_ascii subject = true)
  (Htype : Angular.type (Angular.subjectParser subject) = VString t) :
  exists marker sct tail,
    Text.chars subject = marker ++ Text.chars t ++ sct ++ Text.chars ": " ++ tail
    /\ (marker = [] \/
        exists ws, marker = Text.chars "fixup!" ++ ws
                   /\ Forall (fun c => Text.is_space c = true) ws)
    /\ Forall (fun c => Regex.class_mem [Regex.CWord] c = true) (Text.chars t)
    /\ (sct = [] /\ Angular.scope (Angular.subjectParser subject) = VUndefined \/
        exists sc, sct = "("%char :: Text.chars sc ++ [")"%char]
                   /\ Forall (fun c => Regex.class_mem Angular.scope_items c = true) (Text.chars sc)
                   /\ Angular.scope (Angular.subjectParser subject) = VString sc)
    /\ Forall (fun c => Regex.is_line_terminator c = false) tail
    /\ Angular.title (Angular.subjectParser subject)
       = VString (match tail with [] => subject | _ => Text.text tail end).
Proof.
  destruct (subjectParser_matched subject t Htype) as (i & s' & m & Hin & Hexec & Hcaps).
  apply subject_pattern_split in Hin.
  destruct Hin as (marker & tc & sct & tail & HS & Hmarker & Hword & H1 & Hscope & Htail & H4).
  unfold Angular.subjectParser in *. cbn [Angular.type Angular.scope Angular.title] in *.
  rewrite Hexec in *. unfold Angular.part in *. rewrite Hcaps in *.
  cbn [nth Nat.sub] in *.
  rewrite H1 in Htype. injection Htype as <-.
  rewrite text_chars.
  exists marker, sct, tail. split; [exact HS|]. split; [exact Hmarker|].
  split; [exact Hword|]. split.
  { destruct Hscope as [[-> Hn]|(sc & -> & Hf & Hs)].
    - left. split; [reflexivity|]. rewrite Hn. reflexivity.
    - right. exists (Text.text sc). rewrite text_chars.
      split; [reflexivity|]. split; [exact Hf|]. rewrite Hs. reflexivity. }
  split; [exact Htail|].
  rewrite H4. destruct tail as [|c tail]; reflexivity.
Qed.

Lemma subjectParser_sound_witness :
  exists marker sct tail,
    Text.chars "fixup! feat($ngInclude): lorem ipsum"
    = marker ++ Text.chars "feat" ++ sct ++ Text.chars ": " ++ tail.
Proof.
  destruct (subjectParser_sound "fixup! feat($ngInclude): lorem ipsum" "feat")
    as (marker & sct & tail & H & _).
  - vm_compute. reflexivity.
  - vm_compute. reflexivity.
  - exists marker, sct, tail. exact H.
Defined.

(** X18. [subjectParser.angular] always gives a title that is a string,
    whether or not the subject has the conventional form, and the title
    is empty only for the empty subject. *)
Theorem subjectParser_title (subject : string) :
  exists t, Angular.title (Angular.subjectParser subject) = VString t
            /\ (t = EmptyString <-> subject = EmptyString).
Proof.
  unfold Angular.subjectParser. cbn [Angular.title].
  destruct (Angular.part _ 4) as [| |s] eqn:Hp.
  - exists subject. split; [reflexivity|tauto].
  - exists subject. split; [reflexivity|tauto].
  - cbn [truthy]. destruct (String.eqb_spec s EmptyString) as [->|Hne]; cbn [negb].
    + exists subject. split; [reflexivity|tauto].
    + exists s. split; [reflexivity|]. split; [intros ->; congruence|].
      intros ->. exfalso. revert Hp. vm_compute. discriminate.
Qed.

(** X19. [includeCommitWhen.angular] on the two forms of a subject: a
    commit that is included by its parsed subject is also included by
    the text of that subject. A fixup commit is included by its text
    because the marker itself begins with fix. *)
Theorem includeCommitWhen_parsed_raw (subject : string)
  (Hparsed : Angular.includeCommitWhen
               (Angular.SubjectParsed (Angular.subjectParser subject)) = true) :
  Angular.includeCommitWhen (Angular.SubjectText subject) = true.
Proof.
  cbn [Angular.includeCommitWhen] in *.
  destruct (Angular.type (Angular.subjectParser subject)) as [| |t] eqn:Htype;
    [discriminate Hparsed|discriminate Hparsed|].
  destruct (subjectParser_matched subject t Htype) as (i & s' & m & Hin & Hexec & Hcaps).
  apply subject_pattern_split in Hin.
  destruct Hin as (marker & tc & sct & tail & HS & Hmarker & _ & H1 & _).
  assert (tc = Text.chars t) as ->.
  { unfold Angular.subjectParser in Htype. cbn [Angular.type] in Htype.
    rewrite Hexec in Htype. unfold Angular.part in Htype. rewrite Hcaps in Htype.
    cbn [nth Nat.sub] in Htype. rewrite H1 in Htype. injection Htype as <-.
    symmetry. apply text_chars. }
  destruct Hmarker as [->|(ws & -> & _)].
  - assert (Hpre : Angular.startsWith subject t = true)
      by (apply (prefix_chars _ _ _ HS)).
    unfold Lodash.includes in Hparsed. cbn [existsb value_eqb] in Hparsed.
    rewrite orb_false_r in Hparsed.
    apply orb_true_iff in Hparsed. destruct Hparsed as [H|H].
    { apply String.eqb_eq in H. subst t. rewrite Hpre. reflexivity. }
    apply orb_true_iff in H. destruct H as [H|H].
    { apply String.eqb_eq in H. subst t. rewrite Hpre. apply orb_true_iff. left.
      apply orb_true_r. }
    apply String.eqb_eq in H. subst t. rewrite Hpre. apply orb_true_r.
  - assert (Hpre : Angular.startsWith subject "fix" = true).
    { apply (prefix_chars "fix" subject
               (Text.chars "up!" ++ ws ++ Text.chars t ++ sct ++ Text.chars ": " ++ tail)).
      rewrite HS. reflexivity. }
    rewrite Hpre. apply orb_true_iff. left. apply orb_true_r.
Qed.

Lemma includeCommitWhen_parsed_raw_witness :
  Angular.includeCommitWhen (Angular.SubjectText "perf(core): faster") = true.
Proof.
  apply (includeCommitWhen_parsed_raw "perf(core): faster").
  vm_compute. reflexivity.
Defined.

(** X20. The [v-prefix] reference of a version always begins with v,
    applying it twice is the same as applying it once, and it changes a
    version by at most one leading v. *)
Theorem v_prefix_idempotent (version : string) :
  Angular.startsWith (Angular.v_prefix version) "v" = true
  /\ Angular.v_prefix (Angular.v_prefix version) = Angular.v_prefix version
  /\ (Angular.v_prefix version = version \/ Angular.v_prefix version = "v" +:+ version).
Proof.
  assert (Hv : Angular.startsWith (Angular.v_prefix version) "v" = true).
  { unfold Angular.v_prefix.
    destruct (Angular.startsWith version "v") eqn:H; [exact H|].
    apply (prefix_chars "v" _ (Text.chars version)). reflexivity. }
  split; [exact Hv|]. split.
  - unfold Angular.v_prefix at 1. rewrite Hv. reflexivity.
  - unfold Angular.v_prefix. destruct (Angular.startsWith version "v"); auto.
Qed.

(** ** Subjects of the conventional form *)

Section Reach.

Import Regex.

Variable fl : flags.
Hypothesis Hcase : ignoreCase fl = false.

Lemma reach_seq (a b : regex) (s : mstate) (x y : list ascii) :
  Matching.reach fl a s x -> (forall s1, rest s1 = x -> Matching.reach fl b s1 y) -> Matching.reach fl (Seq a b) s y.
Proof.
  intros (s1 & H1 & Hx) Hb. destruct (Hb s1 Hx) as (s2 & H2 & Hy).
  exists s2. split; [|exact Hy]. apply in_rmatch_seq. exists s1. split; assumption.
Qed.

Lemma reach_char (c : ascii) (s : mstate) (x : list ascii) :
  rest s = c :: x -> Matching.reach fl (Atom (AChar c)) s x.
Proof.
  intros Hrest. unfold Matching.reach. cbn [rmatch]. rewrite Hrest.
  unfold atom_test, canon. rewrite Hcase, Ascii.eqb_refl.
  eexists. split; [left; reflexivity|reflexivity].
Qed.

Lemma reach_lit (str : string) (s : mstate) (x : list ascii) :
  rest s = Text.chars str ++ x -> Matching.reach fl (Lit str) s x.
Proof.
  unfold Lit. revert s. induction (Text.chars str) as [|c l IH]; intros s Hrest.
  - exists s. split; [left; reflexivity|exact Hrest].
  - cbn [fold_right]. apply (reach_seq _ _ _ (l ++ x)).
    + apply reach_char. exact Hrest.
    + intros s1 H1. apply IH. exact H1.
Qed.

Lemma star_loop_self (body : mstate -> list mstate) (greedy : bool) (n : nat)
  (s : mstate) : In s (star_loop body greedy n s).
Proof.
  destruct n as [|n]; [left; reflexivity|]. cbn [star_loop].
  destruct greedy; [apply in_or_app; right; left; reflexivity|left; reflexivity].
Qed.

Lemma reach_run (greedy : bool) (a : atom) (mid : list ascii) (s : mstate)
  (x : list ascii) :
  Forall (fun c => atom_test fl a c = true) mid ->
  rest s = mid ++ x -> Matching.reach fl (Star greedy (Atom a)) s x.
Proof.
  intros Hf Hrest. unfold Matching.reach. cbn [rmatch groups_of].
  assert (Hn : (length mid <= length (rest s))%nat)
    by (rewrite Hrest, length_app; lia).
  revert Hn. generalize (length (rest s)) as n. revert s Hrest.
  induction Hf as [|c mid Hc Hf IH]; intros s Hrest n Hn.
  - exists s. split; [apply star_loop_self|exact Hrest].
  - destruct n as [|n]; [simpl in Hn; lia|].
    set (s1 := MState (c :: consumed s) (mid ++ x) (caps s)).
    destruct (IH s1 eq_refl n) as (s' & Hin & Hx); [simpl in Hn; lia|].
    exists s'. split; [|exact Hx]. cbn [star_loop].
    assert (Hmore : In s' (flat_map
                             (fun s0 => if (length (rest s0) <? length (rest s))%nat
                                        then star_loop
                                               (fun s2 => rmatch fl (Atom a) (clear_caps [] s2))
                                               greedy n s0
                                        else [])
                             (rmatch fl (Atom a) (clear_caps [] s)))).
    { apply in_flat_map. exists s1. split.
      - cbn [rmatch clear_caps fold_right rest consumed caps]. rewrite Hrest.
        cbn [app]. rewrite Hc. left. reflexivity.
      - replace (length (rest s1) <? length (rest s))%nat with true; [exact Hin|].
        symmetry. apply Nat.ltb_lt. rewrite Hrest. cbn [s1 rest app length]. lia. }
    destruct greedy; [apply in_or_app; left; exact Hmore|right; exact Hmore].
Qed.

Lemma reach_group (n : nat) (r : regex) (s : mstate) (x : list ascii) :
  Matching.reach fl r s x -> Matching.reach fl (Group n r) s x.
Proof.
  intros (s1 & H1 & Hx). unfold Matching.reach. cbn [rmatch].
  eexists. split; [apply in_map; exact H1|exact Hx].
Qed.

Lemma reach_alt_l (a b : regex) (s : mstate) (x : list ascii) :
  Matching.reach fl a s x -> Matching.reach fl (Alt a b) s x.
Proof.
  intros (s1 & H1 & Hx). exists s1. split; [|exact Hx].
  cbn [rmatch]. apply in_or_app. left. exact H1.
Qed.

Lemma reach_alt_r (a b : regex) (s : mstate) (x : list ascii) :
  Matching.reach fl b s x -> Matching.reach fl (Alt a b) s x.
Proof.
  intros (s1 & H1 & Hx). exists s1. split; [|exact Hx].
  cbn [rmatch]. apply in_or_app. right. exact H1.
Qed.

Lemma reach_eps (s : mstate) : Matching.reach fl Eps s (rest s).
Proof. exists s. split; [left; reflexivity|reflexivity]. Qed.

Lemma reach_eol (s : mstate) : rest s = [] -> Matching.reach fl Eol s [].
Proof.
  intros Hrest. exists s. split; [|exact Hrest].
  cbn [rmatch]. unfold at_eol. rewrite Hrest. left. reflexivity.
Qed.

End Reach.

(** A maximal run of characters with a property is determined by the
    text. *)
Lemma run_unique {A : Type} (p : A -> bool) (a b : list A) (x y : A) (r r' : list A) :
  Forall (fun c => p c = true) a -> Forall (fun c => p c = true) b ->
  p x = false -> p y = false ->
  a ++ x :: r = b ++ y :: r' -> a = b /\ x = y /\ r = r'.
Proof.
  intros Ha. revert b. induction Ha as [|c a Hc Ha IH]; intros b Hb Hx Hy H.
  - destruct Hb as [|d b Hd Hb].
    + injection H as -> ->. auto.
    + injection H as -> _. congruence.
  - destruct Hb as [|d b Hd Hb].
    + injection H as -> _. congruence.
    + injection H as -> H. destruct (IH b Hb Hx Hy H) as (-> & -> & ->). auto.
Qed.

Section Characters.

Import Regex.

Lemma word_not_space (c : ascii) :
  class_mem [CWord] c = true -> Text.is_space c = false.
Proof. destruct c as [[] [] [] [] [] [] [] []]; vm_compute; congruence. Qed.

Lemma word_not_paren (c : ascii) :
  class_mem [CWord] c = true -> c <> "("%char /\ c <> ":"%char /\ c <> "!"%char.
Proof. intros H. repeat split; intros ->; vm_compute in H; discriminate H. Qed.

End Characters.

Section AngularComplete.

Import Regex.

Lemma subject_pattern_reach (S : list ascii) (ws sc : option (list ascii))
  (t tail : list ascii) :
  S = Angular.marker_chars ws ++ t ++ Angular.scope_chars sc ++ Text.chars ": " ++ tail ->
  (forall l, ws = Some l -> Forall (fun c => Text.is_space c = true) l) ->
  Forall (fun c => class_mem [CWord] c = true) t ->
  (forall l, sc = Some l -> Forall (fun c => class_mem Angular.scope_items c = true) l) ->
  Forall (fun c => is_line_terminator c = false) tail ->
  exists s', In s' (rmatch no_flags Angular.subject_pattern (start_state S 0)).
Proof.
  intros HS Hws Ht Hsc Htail.
  assert (Hreach : Matching.reach no_flags
            (Seq (Angular.optional Angular.fixup)
               (Seq (Group 1 (Star true Angular.word))
                  (Seq (Angular.optional Angular.scope_group)
                     (Seq (Lit ": ") (Seq (Group 4 (Star true (Atom ADot))) Eol)))))
            (start_state S 0) []).
  { apply (reach_seq no_flags _ _ _ (t ++ Angular.scope_chars sc ++ Text.chars ": " ++ tail)).
    { destruct ws as [l|].
      - apply reach_alt_l. unfold Angular.fixup.
        apply (reach_seq no_flags _ _ _ (l ++ t ++ Angular.scope_chars sc ++ Text.chars ": " ++ tail)).
        + apply (reach_lit no_flags eq_refl). cbn [start_state rest skipn]. rewrite HS.
          cbn [Angular.marker_chars]. rewrite <- app_assoc. reflexivity.
        + intros s1 H1. apply (reach_run no_flags _ _ l); [|exact H1].
          eapply List.Forall_impl; [|exact (Hws l eq_refl)].
          intros c Hc. cbn. rewrite Hc. reflexivity.
      - apply reach_alt_r. exists (start_state S 0). split; [left; reflexivity|].
        cbn [start_state rest skipn]. rewrite HS. reflexivity. }
    intros s1 H1.
    apply (reach_seq no_flags _ _ _ (Angular.scope_chars sc ++ Text.chars ": " ++ tail)).
    { apply reach_group. apply (reach_run no_flags _ _ t); [|exact H1].
      eapply List.Forall_impl; [|exact Ht]. intros c Hc. exact Hc. }
    intros s2 H2.
    apply (reach_seq no_flags _ _ _ (Text.chars ": " ++ tail)).
    { destruct sc as [l|].
      - apply reach_alt_l. unfold Angular.scope_group. apply reach_group.
        apply (reach_seq no_flags _ _ _ (l ++ ")"%char :: Text.chars ": " ++ tail)).
        + apply (reach_char no_flags eq_refl). rewrite H2. cbn [Angular.scope_chars app].
          rewrite <- app_assoc. reflexivity.
        + intros s3 H3.
          apply (reach_seq no_flags _ _ _ (")"%char :: Text.chars ": " ++ tail)).
          * apply reach_group. apply (reach_run no_flags _ _ l); [|exact H3].
            eapply List.Forall_impl; [|exact (Hsc l eq_refl)]. intros c Hc. exact Hc.
          * intros s4 H4. apply (reach_char no_flags eq_refl). exact H4.
      - apply reach_alt_r. exists s2. split; [left; reflexivity|exact H2]. }
    intros s3 H3.
    apply (reach_seq no_flags _ _ _ tail).
    { apply (reach_lit no_flags eq_refl). exact H3. }
    intros s4 H4.
    apply (reach_seq no_flags _ _ _ []).
    { apply reach_group. apply (reach_run no_flags _ _ tail).
      - eapply List.Forall_impl; [|exact Htail]. intros c Hc. cbn. rewrite Hc. reflexivity.
      - rewrite app_nil_r. exact H4. }
    intros s5 H5. apply reach_eol. exact H5. }
  destruct Hreach as (s' & Hin & _). exists s'.
  unfold Angular.subject_pattern. apply in_rmatch_seq.
  exists (start_state S 0). split; [left; reflexivity|exact Hin].
Qed.

End AngularComplete.

Section AngularUnique.

Import Regex.

Lemma head_not_space (t : list ascii) (x : ascii) (r : list ascii) :
  Forall (fun c => class_mem [CWord] c = true) t -> Text.is_space x = false ->
  exists h k, t ++ x :: r = h :: k /\ Text.is_space h = false.
Proof.
  intros Ht Hx. destruct Ht as [|c t Hc Ht].
  - exists x, r. split; [reflexivity|exact Hx].
  - exists c, (t ++ x :: r). split; [reflexivity|apply word_not_space; exact Hc].
Qed.

(** What follows the type: a colon, or the opening parenthesis of the
    scope. *)
Lemma after_type (sct tail : list ascii) :
  (sct = [] \/
   exists sc, sct = "("%char :: sc ++ [")"%char]
              /\ Forall (fun c => class_mem Angular.scope_items c = true) sc) ->
  exists x r, sct ++ Text.chars ": " ++ tail = x :: r
              /\ class_mem [CWord] x = false /\ Text.is_space x = false
              /\ x <> "!"%char
              /\ (x = ":"%char <-> sct = []).
Proof.
  intros [->|(sc & -> & _)].
  - exists ":"%char, (" "%char :: tail). repeat split; try reflexivity; discriminate.
  - exists "("%char, ((sc ++ [")"%char]) ++ Text.chars ": " ++ tail).
    repeat split; try reflexivity; discriminate.
Qed.

Lemma subject_split_unique (m1 m2 t1 t2 s1 s2 tail1 tail2 : list ascii) :
  m1 ++ t1 ++ s1 ++ Text.chars ": " ++ tail1 = m2 ++ t2 ++ s2 ++ Text.chars ": " ++ tail2 ->
  (m1 = [] \/ exists ws, m1 = Text.chars "fixup!" ++ ws
                         /\ Forall (fun c => Text.is_space c = true) ws) ->
  (m2 = [] \/ exists ws, m2 = Text.chars "fixup!" ++ ws
                         /\ Forall (fun c => Text.is_space c = true) ws) ->
  Forall (fun c => class_mem [CWord] c = true) t1 ->
  Forall (fun c => class_mem [CWord] c = true) t2 ->
  (s1 = [] \/ exists sc, s1 = "("%char :: sc ++ [")"%char]
                         /\ Forall (fun c => class_mem Angular.scope_items c = true) sc) ->
  (s2 = [] \/ exists sc, s2 = "("%char :: sc ++ [")"%char]
                         /\ Forall (fun c => class_mem Angular.scope_items c = true) sc) ->
  t1 = t2 /\ s1 = s2 /\ tail1 = tail2.
Proof.
  intros HS Hm1 Hm2 Ht1 Ht2 Hs1 Hs2.
  destruct (after_type s1 tail1 Hs1) as (x1 & r1 & Hr1 & Hw1 & Hsp1 & Hb1 & Hc1).
  destruct (after_type s2 tail2 Hs2) as (x2 & r2 & Hr2 & Hw2 & Hsp2 & Hb2 & Hc2).
  rewrite Hr1, Hr2 in HS.
  assert (Hfix : Forall (fun c => class_mem [CWord] c = true) (Text.chars "fixup"))
    by (repeat constructor).
  (* the markers agree *)
  assert (Hbody : t1 ++ x1 :: r1 = t2 ++ x2 :: r2).
  { destruct Hm1 as [->|(ws1 & -> & Hws1)]; destruct Hm2 as [->|(ws2 & -> & Hws2)].
    - exact HS.
    - exfalso.
      assert (HS' : t1 ++ x1 :: r1
                    = Text.chars "fixup" ++ "!"%char :: (ws2 ++ t2 ++ x2 :: r2))
        by (etransitivity; [exact HS|]; rewrite <- app_assoc; reflexivity).
      destruct (run_unique (fun c => class_mem [CWord] c) t1 (Text.chars "fixup")
                  x1 "!"%char _ _ Ht1 Hfix Hw1 eq_refl HS') as (_ & Hx & _).
      contradiction.
    - exfalso.
      assert (HS' : Text.chars "fixup" ++ "!"%char :: (ws1 ++ t1 ++ x1 :: r1)
                    = t2 ++ x2 :: r2)
        by (etransitivity; [|exact HS]; rewrite <- app_assoc; reflexivity).
      destruct (run_unique (fun c => class_mem [CWord] c) (Text.chars "fixup") t2
                  "!"%char x2 _ _ Hfix Ht2 eq_refl Hw2 HS') as (_ & Hx & _).
      symmetry in Hx. contradiction.
    - rewrite <- !app_assoc in HS. apply app_inv_head in HS.
      destruct (head_not_space t1 x1 r1 Ht1 Hsp1) as (h1 & k1 & Hk1 & Hh1).
      destruct (head_not_space t2 x2 r2 Ht2 Hsp2) as (h2 & k2 & Hk2 & Hh2).
      rewrite Hk1, Hk2 in HS |- *.
      destruct (run_unique Text.is_space ws1 ws2 h1 h2 k1 k2 Hws1 Hws2 Hh1 Hh2 HS)
        as (_ & -> & ->).
      reflexivity. }
  destruct (run_unique (fun c => class_mem [CWord] c) t1 t2 x1 x2 r1 r2
              Ht1 Ht2 Hw1 Hw2 Hbody) as (-> & -> & ->).
  split; [reflexivity|].
  destruct Hs1 as [->|(sc1 & -> & Hsc1)]; destruct Hs2 as [->|(sc2 & -> & Hsc2)].
  - split; [reflexivity|]. rewrite <- Hr2 in Hr1. cbn in Hr1. congruence.
  - exfalso. assert (x2 = ":"%char) by (cbn in Hr1; congruence).
    apply Hc2 in H. discriminate H.
  - exfalso. assert (x2 = ":"%char) by (cbn in Hr2; congruence).
    apply Hc1 in H. discriminate H.
  - rewrite <- Hr2 in Hr1. cbn [app] in Hr1. injection Hr1 as Hr1.
    rewrite <- !app_assoc in Hr1. cbn [app] in Hr1.
    destruct (run_unique (fun c => class_mem Angular.scope_items c) sc1 sc2
                ")"%char ")"%char _ _ Hsc1 Hsc2 eq_refl eq_refl Hr1) as (-> & _ & Htl).
    split; [reflexivity|]. cbn in Htl. congruence.
Qed.

End AngularUnique.

(** X21. [subjectParser.angular] on a subject of the conventional form:
    for a subject of ASCII text that is an optional fixup marker with white space, word
    characters, an optional scope of scope characters in parentheses, a
    colon and a space, and text without a line break, the parsed type is
    the word, the scope is the text between the parentheses (undefined
    without parentheses), and the title is the text after the colon and
    space, or the whole subject when that text is empty. *)
Theorem subjectParser_complete (subject t : string) (ws sc : option (list ascii))
  (tail : list ascii)
  (Hascii : Text.is_ascii subject = true)
  (Hsubject : Text.chars subject
              = Angular.marker_chars ws ++ Text.chars t ++ Angular.scope_chars sc
                  ++ Text.chars ": " ++ tail)
  (Hws : forall l, ws = Some l -> Forall (fun c => Text.is_space c = true) l)
  (Ht : Forall (fun c => Regex.class_mem [Regex.CWord] c = true) (Text.chars t))
  (Hsc : forall l, sc = Some l ->
                   Forall (fun c => Regex.class_mem Angular.scope_items c = true) l)
  (Htail : Forall (fun c => Regex.is_line_terminator c = false) tail) :
  Angular.subjectParser subject
  = Angular.ParsedSubject (VString t)
      (match sc with Some l => VString (Text.text l) | None => VUndefined end)
      (VString (match tail with [] => subject | _ => Text.text tail end)).
Proof.
  destruct (subject_pattern_reach _ ws sc _ tail Hsubject Hws Ht Hsc Htail) as (s0 & Hreach).
  unfold Angular.subjectParser. rewrite exec_plain by reflexivity. cbn [snd].
  rewrite Nat.add_1_r. cbn [Regex.search]. unfold Regex.match_at.
  cbn [Regex.fresh Regex.flags_of Regex.source].
  destruct (Regex.rmatch Regex.no_flags Angular.subject_pattern
              (Regex.start_state (Text.chars subject) 0)) as [|s' others] eqn:Hr;
    [destruct Hreach|].
  assert (Hin : In s' (Regex.rmatch Regex.no_flags Angular.subject_pattern
                         (Regex.start_state (Text.chars subject) 0)))
    by (rewrite Hr; left; reflexivity).
  apply subject_pattern_split in Hin.
  destruct Hin as (m' & t' & sct' & tail' & HS & Hm' & Ht' & H1 & Hscope & Htail' & H4).
  assert (Hm : Angular.marker_chars ws = [] \/
               exists l, Angular.marker_chars ws = Text.chars "fixup!" ++ l
                         /\ Forall (fun c => Text.is_space c = true) l).
  { destruct ws as [l|]; [right|left; reflexivity].
    exists l. split; [reflexivity|apply Hws; reflexivity]. }
  assert (Hs : Angular.scope_chars sc = [] \/
               exists l, Angular.scope_chars sc = "("%char :: l ++ [")"%char]
                         /\ Forall (fun c => Regex.class_mem Angular.scope_items c = true) l).
  { destruct sc as [l|]; [right|left; reflexivity].
    exists l. split; [reflexivity|apply Hsc; reflexivity]. }
  assert (Hs' : sct' = [] \/
                exists l, sct' = "("%char :: l ++ [")"%char]
                          /\ Forall (fun c => Regex.class_mem Angular.scope_items c = true) l).
  { destruct Hscope as [[-> _]|(l & -> & Hf & _)]; [left; reflexivity|].
    right. exists l. split; [reflexivity|exact Hf]. }
  rewrite Hsubject in HS.
  destruct (subject_split_unique _ _ _ _ _ _ _ _ HS Hm Hm' Ht Ht' Hs Hs')
    as (Et & Es & Etail).
  subst t' sct' tail'.
  unfold Angular.part. cbn [Regex.captures].
  change (Regex.max_group Angular.subject_pattern) with 4%nat.
  cbn [seq map nth Nat.sub]. rewrite H1, H4, chars_text.
  assert (H3 : Regex.caps s' !! 3%nat = sc).
  { destruct Hscope as [[Hnil Hn]|(l & Hl & _ & Hsome)].
    - destruct sc; [discriminate Hnil|exact Hn].
    - destruct sc as [l0|]; [|discriminate Hl]. cbn [Angular.scope_chars] in Hl.
      injection Hl as Hl. apply app_inv_tail in Hl. subst l0. exact Hsome. }
  rewrite H3. destruct sc; destruct tail; reflexivity.
Qed.

Lemma subjectParser_complete_witness :
  Angular.subjectParser "feat(core): add x"
  = Angular.ParsedSubject (VString "feat") (VString "core") (VString "add x").
Proof.
  apply (subjectParser_complete "feat(core): add x" "feat" None
           (Some (Text.chars "core")) (Text.chars "add x")).
  - vm_compute. reflexivity.
  - reflexivity.
  - intros l H. discriminate H.
  - repeat constructor.
  - intros l [= <-]. repeat constructor.
  - repeat constructor.
Defined.

(** ** Nested changelogs, documented versions and package.json *)

Section InPlace.

Context {B : Type}.

(** Altering each key of a list without repetition alters exactly those
    keys, once. *)
Lemma fold_alter_lookup (f : B -> B) (l : list positive) (h : gmap positive B)
  (r : positive) :
  NoDup l ->
  fold_left (fun h' k => alter f k h') l h !! r
  = if decide (r ∈ l) then f <$> h !! r else h !! r.
Proof.
  intros Hnd. revert h. induction Hnd as [|a l Ha Hnd IH]; intros h.
  - simpl. destruct (decide (r ∈ [])) as [Hin|_]; [|reflexivity].
    apply elem_of_nil in Hin. destruct Hin.
  - cbn [fold_left]. rewrite IH.
    destruct (decide (r = a)) as [->|Hne].
    + destruct (decide (a ∈ l)) as [Hin|_]; [contradiction|].
      destruct (decide (a ∈ a :: l)) as [_|Hout]; [apply lookup_alter_eq|].
      exfalso. apply Hout. left.
    + rewrite lookup_alter_ne by congruence.
      destruct (decide (r ∈ l)) as [Hin|Hout];
        destruct (decide (r ∈ a :: l)) as [Hin'|Hout']; try reflexivity.
      * exfalso. apply Hout'. right. exact Hin.
      * exfalso. apply elem_of_cons in Hin'. destruct Hin' as [->|Hin']; contradiction.
Qed.

End InPlace.

(** X22. [extractContentsBetween] on a changelog that holds no entry
    object twice: the entries returned are, in their original order,
    those whose version lies between start and end; each of them is
    renamed in place, once, to the repository name, a hyphen and its old
    version, keeping its body; every other entry is left as it was. *)
Theorem extractContentsBetween_effect {B : Type} (E : Versions.comparators)
  (changelog : list positive) (repo start stop : string)
  (h : gmap positive (Documented.entry B))
  (Hdistinct : NoDup changelog) :
  let h' := fst (Documented.extractContentsBetween E changelog repo start stop h) in
  let kept := snd (Documented.extractContentsBetween E changelog repo start stop h) in
  sublist kept changelog
  /\ (forall r, In r kept <->
                In r changelog /\ Documented.in_range E start stop h r = true)
  /\ (forall r e, In r kept -> h !! r = Some e ->
                  h' !! r = Some (Documented.Entry (repo +:+ "-" +:+ Documented.version e)
                                    (Documented.body e)))
  /\ (forall r, ~ In r kept -> h' !! r = h !! r).
Proof.
  intros h' kept. subst h' kept. unfold Documented.extractContentsBetween.
  cbn [fst snd].
  set (kept := filter (Documented.in_range E start stop h) changelog).
  assert (Hnd : NoDup kept) by (apply NoDup_filter; exact Hdistinct).
  split; [apply sublist_filter|].
  split.
  { intros r. rewrite <- !list_elem_of_In. unfold kept.
    rewrite list_elem_of_filter.
    destruct (Documented.in_range E start stop h r); simpl; intuition congruence. }
  split.
  - intros r e Hin Hr. rewrite fold_alter_lookup by exact Hnd.
    apply list_elem_of_In in Hin.
    destruct (decide (r ∈ kept)) as [_|Hout]; [|contradiction].
    rewrite Hr. reflexivity.
  - intros r Hout. rewrite fold_alter_lookup by exact Hnd.
    destruct (decide (r ∈ kept)) as [Hin|_]; [|reflexivity].
    exfalso. apply Hout. apply list_elem_of_In. exact Hin.
Qed.

Lemma extractContentsBetween_effect_witness :
  fst (Documented.extractContentsBetween Demo.comparators [1%positive; 2%positive]
         "repo" "1.5.0" "2.5.0" Samples.nested) !! 1%positive
  = Samples.nested !! 1%positive.
Proof.
  refine (proj2 (proj2 (proj2
            (extractContentsBetween_effect Demo.comparators [1%positive; 2%positive]
               "repo" "1.5.0" "2.5.0" Samples.nested _))) 1%positive _).
  - apply (bool_decide_unpack (NoDup [1%positive; 2%positive])). vm_compute. exact I.
  - vm_compute. intros [H|[]]. discriminate H.
Defined.

Section Headers.

Variable T : Documented.titles_env.

Lemma filter_valid_in (index : nat) (tokens : list string) (s : string) :
  In s (Documented.filter_valid T index tokens) ->
  In s tokens /\ exists loose, Documented.semver_valid T loose s = true.
Proof.
  revert index. induction tokens as [|t ts IH]; intros index; simpl; [intros []|].
  destruct (Documented.semver_valid T (Documented.loose_at index) t) eqn:Hv.
  - intros [<-|H].
    + split; [left; reflexivity|]. exists (Documented.loose_at index). exact Hv.
    + destruct (IH _ H) as [Hin Hl]. split; [right; exact Hin|exact Hl].
  - intros H. destruct (IH _ H) as [Hin Hl]. split; [right; exact Hin|exact Hl].
Qed.

Lemma clean_each_identity (index : nat) (versions : list string) :
  Documented.clean_each T (Presets.CleanFlag false) index versions = map Some versions.
Proof.
  revert index. induction versions as [|v vs IH]; intros index; simpl; [reflexivity|].
  rewrite IH. reflexivity.
Qed.

Lemma clean_each_length (clean : Presets.clean_option) (index : nat)
  (versions : list string) :
  length (Documented.clean_each T clean index versions) = length versions.
Proof.
  revert clean index. induction versions as [|v vs IH]; intros clean index; [reflexivity|].
  cbn [Documented.clean_each].
  destruct clean as [[|]|R]; try (cbn [length]; rewrite IH; reflexivity).
  destruct (Regex.replace (Text.chars v) R []) as [R' cleaned].
  cbn [length]. rewrite IH. reflexivity.
Qed.

End Headers.

(** X23. [changelog-headers] on a changelog file that does not exist:
    the callback gets no error and an empty list of versions, and the
    only I/O is the failed read. *)
Theorem changelog_headers_missing_file (T : Documented.titles_env)
  (clean : option Presets.clean_option) (file : string) (w : world)
  (Hmissing : files w !! file = None) :
  Documented.changelog_headers T clean file w
  = (Fs.log (EvRead file) w, Documented.Replied None (Some [])).
Proof.
  unfold Documented.changelog_headers, Fs.readFile. rewrite Hmissing.
  reflexivity.
Qed.

Lemma changelog_headers_missing_file_witness :
  Documented.changelog_headers Samples.titles_env None "CHANGELOG.md" (World ∅ [])
  = (World ∅ [EvRead "CHANGELOG.md"], Documented.Replied None (Some [])).
Proof.
  apply (changelog_headers_missing_file Samples.titles_env None "CHANGELOG.md" (World ∅ [])).
  vm_compute. reflexivity.
Defined.

(** X24. [changelog-headers] without cleaning, on an existing file: the
    callback gets no error, the file is only read, and every version
    reported is a word of one of the titles of the changelog, separated
    by single spaces, that semver accepts as a version. *)
Theorem changelog_headers_versions (T : Documented.titles_env)
  (file changelog : string) (w : world)
  (Hfile : files w !! file = Some changelog) :
  exists versions,
    Documented.changelog_headers T (Some (Presets.CleanFlag false)) file w
    = (Fs.log (EvRead file) w, Documented.Replied None (Some (map Some versions)))
    /\ forall v, In v versions ->
         exists title,
           In title (Documented.extractTitles T changelog)
           /\ In v (Documented.split_on " " title)
           /\ exists loose, Documented.semver_valid T loose v = true.
Proof.
  unfold Documented.changelog_headers, Fs.readFile. rewrite Hfile.
  cbn [default]. rewrite clean_each_identity.
  eexists. split; [reflexivity|].
  intros v Hin. apply in_concat in Hin. destruct Hin as (l & Hl & Hv).
  apply in_map_iff in Hl. destruct Hl as (title & <- & Htitle).
  exists title. split; [exact Htitle|]. apply (filter_valid_in T _ _ _ Hv).
Qed.

Lemma changelog_headers_versions_witness :
  exists versions,
    Documented.changelog_headers Samples.titles_env (Some (Presets.CleanFlag false))
      "CHANGELOG.md" (World {[ "CHANGELOG.md" := "## 1.2.0" ]} [])
    = (Fs.log (EvRead "CHANGELOG.md") (World {[ "CHANGELOG.md" := "## 1.2.0" ]} []),
       Documented.Replied None (Some (map Some versions))).
Proof.
  destruct (changelog_headers_versions Samples.titles_env "CHANGELOG.md" "## 1.2.0"
              (World {[ "CHANGELOG.md" := "## 1.2.0" ]} []))
    as (versions & H & _).
  - vm_compute. reflexivity.
  - exists versions. exact H.
Defined.

(** Of the words of one title the first is checked strictly and the
    others loosely. *)
Lemma filter_valid_words (T : Documented.titles_env) (t : string) (ts : list string) :
  Documented.filter_valid T 0 (t :: ts)
  = (if Documented.semver_valid T false t then [t] else [])
      ++ List.filter (Documented.semver_valid T true) ts.
Proof.
  assert (Hrest : forall l i, Documented.filter_valid T (S i) l
                              = List.filter (Documented.semver_valid T true) l).
  { induction l as [|x l IH]; intros i; [reflexivity|].
    cbn [Documented.filter_valid List.filter].
    change (Documented.loose_at (S i)) with true.
    rewrite IH. reflexivity. }
  cbn [Documented.filter_valid]. change (Documented.loose_at 0) with false.
  rewrite Hrest. destruct (Documented.semver_valid T false t); reflexivity.
Qed.

Lemma split_on_cons (sep : ascii) (s : string) :
  exists first others, Documented.split_on sep s = first :: others.
Proof.
  destruct s as [|c s]; simpl; [eauto|].
  destruct (Ascii.eqb c sep); [eauto|].
  destruct (Documented.split_on sep s); eauto.
Qed.

(** X25. The versions [changelog-headers] reports without cleaning, on
    an existing file: a version is reported exactly when it is the first
    word of a title and [semver.valid] accepts it strictly, or a later
    word of a title and [semver.valid] accepts it loosely. The words of
    a title are its pieces between single spaces. *)
Theorem changelog_headers_first_word_strict (T : Documented.titles_env)
  (file changelog : string) (w : world)
  (Hfile : files w !! file = Some changelog) :
  exists versions,
    snd (Documented.changelog_headers T (Some (Presets.CleanFlag false)) file w)
    = Documented.Replied None (Some (map Some versions))
    /\ forall v, In v versions <->
         exists title first others,
           In title (Documented.extractTitles T changelog)
           /\ Documented.split_on " " title = first :: others
           /\ (v = first /\ Documented.semver_valid T false first = true
               \/ In v others /\ Documented.semver_valid T true v = true).
Proof.
  unfold Documented.changelog_headers, Fs.readFile. rewrite Hfile.
  cbn [default snd]. rewrite clean_each_identity.
  eexists. split; [reflexivity|].
  intros v. rewrite in_concat. split.
  - intros (l & Hl & Hv). apply in_map_iff in Hl. destruct Hl as (title & <- & Htitle).
    destruct (split_on_cons " " title) as (first & others & Hsplit).
    exists title, first, others. split; [exact Htitle|]. split; [exact Hsplit|].
    rewrite Hsplit, filter_valid_words in Hv. apply in_app_iff in Hv.
    destruct Hv as [Hv|Hv].
    + left. destruct (Documented.semver_valid T false first) eqn:Hvalid; [|destruct Hv].
      destruct Hv as [<-|[]]. split; reflexivity.
    + right. apply List.filter_In in Hv. exact Hv.
  - intros (title & first & others & Htitle & Hsplit & Hcase).
    exists (Documented.filter_valid T 0 (Documented.split_on " " title)). split.
    + apply in_map_iff. exists title. split; [reflexivity|exact Htitle].
    + rewrite Hsplit, filter_valid_words. apply in_app_iff.
      destruct Hcase as [[-> Hvalid]|[Hin Hvalid]].
      * left. rewrite Hvalid. left. reflexivity.
      * right. apply List.filter_In. split; assumption.
Qed.

Lemma changelog_headers_first_word_strict_witness :
  exists versions,
    snd (Documented.changelog_headers Samples.titles_env (Some (Presets.CleanFlag false))
           "CHANGELOG.md" (World {[ "CHANGELOG.md" := "## 1.2.0" ]} []))
    = Documented.Replied None (Some (map Some versions)).
Proof.
  destruct (changelog_headers_first_word_strict Samples.titles_env "CHANGELOG.md"
              "## 1.2.0" (World {[ "CHANGELOG.md" := "## 1.2.0" ]} []))
    as (versions & H & _).
  - vm_compute. reflexivity.
  - exists versions. exact H.
Defined.

(** X26. [updateVersion.npm] always invokes its callback. An error it
    reports with the code ENOENT always carries the message No such file
    or directory followed by the path of package.json, and it reports
    success only when the version is usable and the update of
    package.json succeeded. *)
Theorem npm_always_calls_back (E : Presets.env) (clean : option Presets.clean_option)
  (cwd version : string) (w : world) :
  exists error,
    snd (Presets.npm E clean cwd version w) = Called error
    /\ (forall e, error = Some e -> code e = Some "ENOENT" ->
          message e
          = "No such file or directory: " +:+ Presets.path_join E [cwd; "package.json"])
    /\ (error = None ->
        exists v, Presets.usable (Presets.getCleanFunction E clean version) = Some v
                  /\ Presets.updateJSON E (Presets.path_join E [cwd; "package.json"]) v w
                     = (fst (Presets.npm E clean cwd version w), None)).
Proof.
  unfold Presets.npm.
  destruct (Presets.usable (Presets.getCleanFunction E clean version)) as [v|] eqn:Hv.
  - destruct (Presets.updateJSON E (Presets.path_join E [cwd; "package.json"]) v w)
      as [w' [err|]] eqn:Hup.
    + destruct (bool_decide (code err = Some "ENOENT")) eqn:Hcode.
      * eexists. split; [reflexivity|]. split; [|discriminate].
        intros e [= <-] _. reflexivity.
      * eexists. split; [reflexivity|]. split; [|discriminate].
        intros e [= <-] He. apply bool_decide_eq_false in Hcode. contradiction.
    + exists None. split; [reflexivity|]. split; [discriminate|].
      intros _. exists v. split; [reflexivity|exact Hup].
  - eexists. split; [reflexivity|]. split; [|discriminate].
    intros e [= <-] He. discriminate He.
Qed.
